(** * depload: loading a binary's dependencies and mapping imports to exports

    A shallow embedding of [depload.cpp] (an IDA plugin) and the proofs of
    its properties.  C strings are byte sequences ([list ascii]); the
    plugin's linked list of loaded files lives in an explicit heap; the
    calls into the disassembler's SDK act on an explicit database record
    and are logged in a trace. *)

From Stdlib Require Import ZArith Ascii String.
From stdpp Require Import base option list gmap strings pretty.

Open Scope Z_scope.

(** ** C strings *)

Abbreviation text := (list ascii).

(** A string literal, as the bytes before its terminator. *)
Definition str (s : string) : text := list_ascii_of_string s.

Module C.

Definition NUL : ascii := "000"%char.

(** The value of a [char] in an expression; [char] is signed for the
    compiler the SDK targets, so bytes over 127 are negative. *)
Definition char_val (c : ascii) : Z :=
  let n := Z.of_N (N_of_ascii c) in
  if 128 <=? n then n - 256 else n.

(** The value of a byte as [unsigned char], as [strcmp] compares them. *)
Definition uchar_val (c : ascii) : Z := Z.of_N (N_of_ascii c).

(** A well-formed C string value has no NUL among its characters. *)
Definition cstring (s : text) : Prop := NUL ∉ s.

(** The string starting at the beginning of the memory [m]: the bytes
    before the first NUL.  [None] when there is no terminator in [m]:
    the read runs out of the object. *)
Fixpoint c_str (m : text) : option text :=
  match m with
  | [] => None
  | c :: m' =>
      if decide (c = NUL) then Some []
      else s ← c_str m'; Some (c :: s)
  end.

(** [strrchr(m, c)] for [c] other than NUL: the offset in [m] of the last
    [c] before the terminator, [None] for a null result. *)
Fixpoint strrchr (s : text) (c : ascii) : option nat :=
  match s with
  | [] => None
  | x :: s' =>
      match strrchr s' c with
      | Some i => Some (S i)
      | None => if decide (x = c) then Some 0%nat else None
      end
  end.

(** [strcmp] on two string values: the difference of the first two
    characters that differ, read as [unsigned char], the end of a string
    counting as 0.  The plugin tests the result against 0 only. *)
Fixpoint strcmp (a b : text) : Z :=
  match a, b with
  | [], [] => 0
  | [], y :: _ => 0 - uchar_val y
  | x :: _, [] => uchar_val x
  | x :: a', y :: b' =>
      if decide (x = y) then strcmp a' b' else uchar_val x - uchar_val y
  end.

(** [strncmp] on two string values: at most [n] characters compared. *)
Fixpoint strncmp (a b : text) (n : nat) {struct n} : Z :=
  match n with
  | O => 0
  | S n' =>
      match a, b with
      | [], [] => 0
      | [], y :: _ => 0 - uchar_val y
      | x :: _, [] => uchar_val x
      | x :: a', y :: b' =>
          if decide (x = y) then strncmp a' b' n'
          else uchar_val x - uchar_val y
      end
  end.

(** [memcmp(m, lit, n)] against the [n] first bytes of [lit]: 0 when the
    bytes are equal and, as only the test against 0 is used, 1 when they
    are not; [None] when [m] has fewer than [n] bytes. *)
Definition memcmp (m lit : text) (n : nat) : option Z :=
  if decide (n ≤ length m)%nat
  then Some (if decide (take n m = take n lit) then 0 else 1)
  else None.

(** [sprintf_s(buf, size, ...)]: the formatted text [s] when it fits in
    [size] bytes with its terminator; otherwise the runtime's
    invalid-parameter handler runs and the call does not return
    ([None]). *)
Definition sprintf_s (size : nat) (s : text) : option text :=
  if decide (length s < size)%nat then Some s else None.

End C.

(** ** The disassembler's database and the plugin's memory *)

Abbreviation ea_t := Z.
Abbreviation loc := positive.
Abbreviation handle := positive.

(** A non-null [struct _imports *]: the address of the static
    [loadedbase] or of a block of the heap. *)
Inductive ptr := loadedbase_addr | heap_addr (p : loc).

(** [struct _imports]: a node of the list of loaded files.  [filename] is
    the flexible array member: the bytes that were copied into the block. *)
Record _imports := mk_imports {
  next : option ptr;
  filename : text
}.

(** [struct _imname]: the name buffer handed to [importmap]. *)
Record _imname := mk_imname {
  name : text;
  trunc : Z
}.

Record segment_t := mk_segment {
  segm_name : option text;
  segm_cmt : option text
}.

(** What [get_func_limits] gives for a function: the start of its limits. *)
Record func_t := mk_func { startEA : ea_t }.

Record name_t := mk_name { nm_text : text; nm_public : bool }.

(** One entry of an import module, as [enum_import_names] reports it. *)
Record import_t := mk_import {
  imp_ea : ea_t;
  imp_name : option text;
  imp_ord : Z
}.

Record idb := mk_idb {
  segs : list (option segment_t);
  funcs : list (option func_t);
  names : gmap Z name_t;
  import_modules : list (list import_t);
  cmts : gmap Z text
}.

Inductive event :=
  | Ev_open_linput (f : text) (li : handle)
  | Ev_close_linput (li : handle)
  | Ev_build_loaders_list (li ll : handle)
  | Ev_free_loaders_list (ll : handle)
  | Ev_malloc (size : nat) (p : loc)
  | Ev_free (p : loc)
  | Ev_load_nonbinary_file (f : text) (ok : bool)
  | Ev_set_segm_name (n : nat) (s : text)
  | Ev_set_segment_cmt (n : nat) (s : text)
  | Ev_set_cmt (ea : ea_t) (s : text)
  | Ev_msg (s : text)
  | Ev_warning (s : text)
  | Ev_replace_wait_box (i n : nat).

(** The plugin's globals ([loadedbase], [loadedend]), the C heap (a block
    is [None] until it is written), the database and the log of the calls
    made so far, oldest first. *)
Record world := mk_world {
  loadedbase : _imports;
  loadedend : ptr;
  heap : gmap positive (option _imports);
  db : idb;
  trace : list event
}.

(** What the plugin cannot decide.  [MAXSTR] and [QMAXPATH] are the SDK's
    constants (the sizes of the plugin's buffers).  The other fields say
    how the outside answers: whether a file opens and with which handle,
    whether a loader takes it, whether [malloc] finds memory for a size in
    a heap, and what [load_nonbinary_file] makes of the database and
    answers. *)
Record env := mk_env {
  MAXSTR : nat;
  QMAXPATH : nat;
  open_linput_r : text → option handle;
  build_loaders_list_r : handle → option handle;
  malloc_r : gmap positive (option _imports) → nat → bool;
  load_nonbinary_file_r : text → idb → bool * idb
}.

(** [sizeof(struct _imports)]: one pointer of the 32-bit build, the array
    member has size 0. *)
Definition sizeof_imports : nat := 4.
Opaque sizeof_imports.

(** ** A state monad with abnormal termination *)

Definition M (A : Type) : Type := world → option (A * world).

Definition ret {A} (a : A) : M A := λ w, Some (a, w).

Definition bind {A B} (m : M A) (k : A → M B) : M B :=
  λ w, match m w with
       | Some (a, w') => k a w'
       | None => None
       end.

Notation "'let!' x ':=' m 'in' k" := (bind m (λ x, k))
  (at level 10, x pattern, m at level 100, k at level 200).
Notation "m ';;' k" := (bind m (λ _, k))
  (at level 100, k at level 200, right associativity).

Definition abort {A} : M A := λ _, None.

Definition lift {A} (o : option A) : M A :=
  λ w, match o with Some a => Some (a, w) | None => None end.

Definition gets {A} (f : world → A) : M A := λ w, Some (f w, w).

Definition emit (e : event) : M unit :=
  λ w, Some (tt, mk_world (loadedbase w) (loadedend w) (heap w) (db w)
                          (trace w ++ [e])).

Definition set_heap (h : gmap positive (option _imports)) : M unit :=
  λ w, Some (tt, mk_world (loadedbase w) (loadedend w) h (db w) (trace w)).

Definition set_db (d : idb) : M unit :=
  λ w, Some (tt, mk_world (loadedbase w) (loadedend w) (heap w) d (trace w)).

Definition set_loadedbase (b : _imports) : M unit :=
  λ w, Some (tt, mk_world b (loadedend w) (heap w) (db w) (trace w)).

Definition set_loadedend (p : ptr) : M unit :=
  λ w, Some (tt, mk_world (loadedbase w) p (heap w) (db w) (trace w)).

(** [for (i = start; i < start + n; i++) s = body(i, s)]: a counting loop
    over the variables [s] its body updates. *)
Fixpoint for_loop {V : Type} (n : nat) (i : nat) (body : nat → V → M V)
    (s : V) : M V :=
  match n with
  | O => ret s
  | S n' => let! s' := body i s in for_loop n' (S i) body s'
  end.

(** ** The SDK's calls, on the database

    Each call has the effect its header documents, on the part of the
    database that the plugin reads back, and the calls that acquire,
    release or write are logged.  A call that writes is taken to do so:
    [set_segm_name], [set_segment_cmt] and [set_cmt] store the text they
    are given. *)

Definition LF : ascii := "010"%char.

Definition msg (s : text) : M unit := emit (Ev_msg s).
Definition warning (s : text) : M unit := emit (Ev_warning s).

Definition open_linput (e : env) (f : text) : M (option handle) :=
  match open_linput_r e f with
  | Some li => emit (Ev_open_linput f li);; ret (Some li)
  | None => ret None
  end.

Definition close_linput (li : handle) : M unit := emit (Ev_close_linput li).

Definition build_loaders_list (e : env) (li : handle) : M (option handle) :=
  match build_loaders_list_r e li with
  | Some ll => emit (Ev_build_loaders_list li ll);; ret (Some ll)
  | None => ret None
  end.

Definition free_loaders_list (ll : handle) : M unit :=
  emit (Ev_free_loaders_list ll).

(** [malloc]: a block at an address not in use, its contents not yet
    written, or a null pointer. *)
Definition malloc (e : env) (size : nat) : M (option loc) :=
  let! h := gets heap in
  if malloc_r e h size then
    let p := fresh (dom h) in
    set_heap (<[p := None]> h);; emit (Ev_malloc size p);; ret (Some p)
  else ret None.

(** [free]: the block is gone; freeing what is not allocated does not
    return. *)
Definition free (p : loc) : M unit :=
  let! h := gets heap in
  match h !! p with
  | Some _ => set_heap (delete p h);; emit (Ev_free p)
  | None => abort
  end.

(** [load_nonbinary_file(filename, li, ".", NEF_SEGS | NEF_RSCS | NEF_IMPS
    | NEF_CODE, ll)]: the database after it and its answer. *)
Definition load_nonbinary_file (e : env) (f : text) (li ll : handle)
    : M bool :=
  let! d := gets db in
  let r := load_nonbinary_file_r e f d in
  set_db (snd r);; emit (Ev_load_nonbinary_file f (fst r));; ret (fst r).

Definition get_segm_qty : M nat := gets (λ w, length (segs (db w))).

(** [getnseg(n)]: the segment, named by its number [n] from here on. *)
Definition getnseg (n : nat) : M (option segment_t) :=
  gets (λ w, default None (segs (db w) !! n)).

(** [get_segm_name(s, buf, bufsize)]: the length of the name, -1 when the
    segment has none; the plugin does not read [buf]. *)
Definition get_segm_name (s : segment_t) : Z :=
  match segm_name s with
  | Some nm => Z.of_nat (length nm)
  | None => -1
  end.

Definition get_segment_cmt (s : segment_t) : option text := segm_cmt s.

Definition upd_segs (f : list (option segment_t) → list (option segment_t))
    : M unit :=
  let! d := gets db in
  set_db (mk_idb (f (segs d)) (funcs d) (names d) (import_modules d) (cmts d)).

Definition set_segm_name (n : nat) (nm : text) : M unit :=
  let! s := getnseg n in
  match s with
  | Some s =>
      upd_segs (λ l, <[n := Some (mk_segment (Some nm) (segm_cmt s))]> l);;
      emit (Ev_set_segm_name n nm)
  | None => abort
  end.

Definition set_segment_cmt (n : nat) (c : text) : M unit :=
  let! s := getnseg n in
  match s with
  | Some s =>
      upd_segs (λ l, <[n := Some (mk_segment (segm_name s) (Some c))]> l);;
      emit (Ev_set_segment_cmt n c)
  | None => abort
  end.

(** [set_cmt(ea, s, true)]: the repeatable comment at [ea]; an empty text
    removes it. *)
Definition set_cmt (ea : ea_t) (c : text) : M unit :=
  let! d := gets db in
  set_db (mk_idb (segs d) (funcs d) (names d) (import_modules d)
            (if decide (c = []) then delete ea (cmts d)
             else <[ea := c]> (cmts d)));;
  emit (Ev_set_cmt ea c).

Definition get_func_qty : M nat := gets (λ w, length (funcs (db w))).

Definition getn_func (n : nat) : M (option func_t) :=
  gets (λ w, default None (funcs (db w) !! n)).

Definition is_public_name (ea : ea_t) : M bool :=
  gets (λ w, match names (db w) !! ea with
             | Some n => nm_public n
             | None => false
             end).

(** [get_func_name(ea, buf, bufsize)]: the buffer it fills, with the name
    cut to [bufsize - 1] characters and its terminator; [None] for a null
    result. *)
Definition get_func_name (ea : ea_t) (bufsize : nat) : M (option text) :=
  gets (λ w, match names (db w) !! ea with
             | Some n => Some (take (bufsize - 1) (nm_text n) ++ [C.NUL])
             | None => None
             end).

Definition get_import_module_qty : M nat :=
  gets (λ w, length (import_modules (db w))).

(** [enum_import_names(mod, callback, param)]: the callback runs on each
    entry in turn, until it answers 0. *)
Fixpoint enum_names {P : Type} (l : list import_t)
    (callback : ea_t → option text → Z → P → M (Z * P)) (param : P)
    : M (Z * P) :=
  match l with
  | [] => ret (1, param)
  | imp :: l' =>
      let! r := callback (imp_ea imp) (imp_name imp) (imp_ord imp) param in
      if decide (fst r = 0) then ret (0, snd r)
      else enum_names l' callback (snd r)
  end.

Definition enum_import_names {P : Type} (mod_index : nat)
    (callback : ea_t → option text → Z → P → M (Z * P)) (param : P)
    : M (Z * P) :=
  let! mods := gets (λ w, import_modules (db w)) in
  match mods !! mod_index with
  | Some l => enum_names l callback param
  | None => ret (-1, param)
  end.

(** ** The plugin *)

(** Reading and writing through a [struct _imports *]. *)
Definition deref (p : ptr) : M _imports :=
  λ w, match p with
       | loadedbase_addr => Some (loadedbase w, w)
       | heap_addr l =>
           match heap w !! l with
           | Some (Some nd) => Some (nd, w)
           | _ => None
           end
       end.

Definition write_node (l : loc) (nd : _imports) : M unit :=
  let! h := gets heap in
  match h !! l with
  | Some _ => set_heap (<[l := Some nd]> h)
  | None => abort
  end.

Definition write_next (p : ptr) (v : option ptr) : M unit :=
  match p with
  | loadedbase_addr =>
      let! b := gets loadedbase in set_loadedbase (mk_imports v (filename b))
  | heap_addr l =>
      let! nd := deref p in write_node l (mk_imports v (filename nd))
  end.

(** The loop of [isloaded].  The source loop has no bound; a walk that
    neither ends nor finds the name within as many nodes as the heap holds
    is in a cycle and never returns, which is [abort] here. *)
Fixpoint isloaded_loop (fuel : nat) (fn : text) (p : option ptr) : M Z :=
  match p with
  | None => ret 0
  | Some p =>
      match fuel with
      | O => abort
      | S fuel' =>
          let! nd := deref p in
          let! s := lift (C.c_str (filename nd)) in
          if decide (C.strcmp fn s = 0) then ret 1
          else isloaded_loop fuel' fn (next nd)
      end
  end.

Definition isloaded (fn : text) : M Z :=
  let! b := gets loadedbase in
  let! n := gets (λ w, size (heap w)) in
  isloaded_loop (S n) fn (next b).

Fixpoint listloaded_loop (fuel : nat) (p : option ptr) : M unit :=
  match p with
  | None => ret tt
  | Some p =>
      match fuel with
      | O => abort
      | S fuel' =>
          let! nd := deref p in
          let! s := lift (C.c_str (filename nd)) in
          msg (str ">>>> '" ++ s ++ str "'" ++ [LF]);;
          listloaded_loop fuel' (next nd)
      end
  end.

Definition listloaded : M unit :=
  msg (str "--------------------------" ++ [LF] ++
       str "Currently loaded files:" ++ [LF] ++
       str "--------------------------" ++ [LF]);;
  let! b := gets loadedbase in
  let! n := gets (λ w, size (heap w)) in
  listloaded_loop (S n) (next b).

Definition importenum (ea : ea_t) (nm : option text) (ord : Z) (param : unit)
    : M (Z * unit) :=
  set_cmt ea [];; ret (1, tt).

Definition clearcmts : M unit :=
  let! imports := get_import_module_qty in
  for_loop imports 0%nat
    (λ i _, let! _ := enum_import_names i importenum tt in ret tt) tt.

(** The comment text [load] builds for a segment:
    [sprintf_s(segn, sizeof(segn), "\ndep: %s\n", filename)]. *)
Definition format_dep (e : env) (fn : text) : option text :=
  C.sprintf_s (QMAXPATH e) ([LF] ++ str "dep: " ++ fn ++ [LF]).

(** The body of the segment loop of [load]. *)
Definition load_segment (e : env) (fn : text) (n : nat) : M unit :=
  let! segm := getnseg n in
  match segm with
  | None => ret tt
  | Some segm =>
      if decide (get_segm_name segm = -1) then ret tt
      else match get_segment_cmt segm with
           | Some _ => ret tt
           | None =>
               match C.strrchr fn "\"%char with
               | None => ret tt
               | Some i =>
                   let file := drop (S i) fn in
                   set_segm_name n file;;
                   let! segn := lift (format_dep e fn) in
                   set_segment_cmt n segn
               end
           end
  end.

Definition load (e : env) (fn : text) : M Z :=
  let! l := isloaded fn in
  if decide (l ≠ 0) then ret (-2)
  else
    let! linput := open_linput e fn in
    match linput with
    | None => ret (-1)
    | Some linput =>
        let! loadinfo := build_loaders_list e linput in
        match loadinfo with
        | None => close_linput linput;; ret (-1)
        | Some loadinfo =>
            let fnlen := (length fn + 1)%nat in
            let! p := malloc e (sizeof_imports + fnlen) in
            match p with
            | None =>
                free_loaders_list loadinfo;; close_linput linput;; ret (-1)
            | Some p =>
                let! ok := load_nonbinary_file e fn linput loadinfo in
                if negb ok then
                  free p;; free_loaders_list loadinfo;;
                  close_linput linput;; ret (-1)
                else
                  let! segsa := get_segm_qty in
                  for_loop segsa 0%nat (λ n _, load_segment e fn n) tt;;
                  free_loaders_list loadinfo;;
                  close_linput linput;;
                  write_node p (mk_imports None (take fnlen (fn ++ [C.NUL])));;
                  let! last := gets loadedend in
                  write_next last (Some (heap_addr p));;
                  set_loadedend (heap_addr p);;
                  ret 0
            end
        end
    end.

(** [importmap]: the callback of [mapinexports].  [param] is the name
    buffer; it is written to and put back as it was. *)
Definition importmap (e : env) (ea : ea_t) (nm : option text) (ord : Z)
    (param : _imname) : M (Z * _imname) :=
  match nm with
  | None => ret (1, param)
  | Some nm =>
      let! base := lift (C.c_str (name param)) in
      let len := length base in
      if decide (C.strncmp nm base len = 0) then
        (* De-truncate *)
        let buf := <[len := "_"%char]> (name param) in
        let! full := lift (C.c_str buf) in
        let! comment :=
          lift (C.sprintf_s (MAXSTR e) (str "import -> " ++ full)) in
        set_cmt ea comment;;
        (* Re-truncate *)
        ret (1, mk_imname (<[len := C.NUL]> buf) (trunc param))
      else ret (1, param)
  end.

(** The [while] loop over the characters after the last underscore:
    whether [ptr2] is non-null when it ends. *)
Fixpoint scan_digits (m : text) : option bool :=
  match m with
  | [] => None
  | c :: m' =>
      if decide (c = C.NUL) then Some true
      else if (C.char_val c <? C.char_val "0")
              || (C.char_val "9" <? C.char_val c)
           then Some false
           else scan_digits m'
  end.

(** What [mapinexports] does to the name buffer [fname] before it looks at
    the imports: the buffer, cut at the last underscore when only digits
    follow it, and the flag [trunc]. *)
Definition truncate_name (fname : text) : option _imname :=
  s ← C.c_str fname;
  match C.strrchr s "_"%char with
  | None => Some (mk_imname fname 0)
  | Some i =>
      ok ← scan_digits (drop (S i) fname);
      if ok : bool then Some (mk_imname (<[i := C.NUL]> fname) 1)
      else Some (mk_imname fname 0)
  end.

(** The body of the loop of [mapinexports], for function number [i]. *)
Definition mapinexports_func (e : env) (nfuncs : nat) (i : nat) : M unit :=
  (if decide (i mod 5 = 0)%nat then emit (Ev_replace_wait_box i nfuncs)
   else ret tt);;
  let! func := getn_func i in
  match func with
  | None => ret tt
  | Some func =>
      let! pub := is_public_name (startEA func) in
      if negb pub then ret tt
      else
        let! fname := get_func_name (startEA func) (MAXSTR e) in
        match fname with
        | None => ret tt
        | Some fname =>
            let! imname := lift (truncate_name fname) in
            if decide (trunc imname ≠ 0) then
              let! imports := get_import_module_qty in
              let! _ :=
                for_loop imports 0%nat
                  (λ i2 im,
                     let! r := enum_import_names i2 (importmap e) im in
                     ret (snd r))
                  imname in
              ret tt
            else ret tt
        end
  end.

Definition mapinexports (e : env) : M unit :=
  let! nfuncs := get_func_qty in
  for_loop nfuncs 0%nat (λ i _, mapinexports_func e nfuncs i) tt.

(** What the first loop of [run] reads in a segment comment [cmt]: the
    length [fnlen] and the memory from [cmt + 6] on, after the byte before
    the terminator was set to 0; [None] when the comment does not start
    with the six bytes of the prefix. *)
Definition restore_parse (cmt0 : text) : option (nat * text) :=
  let cmt := cmt0 ++ [C.NUL] in
  let fnlen := length cmt0 in
  if decide (fnlen < 6)%nat then None
  else if decide (C.memcmp cmt ([LF] ++ str "dep: ") 6 = Some 0) then
    let fnlen' := (fnlen - 6)%nat in
    Some (fnlen', drop 6 (<[(6 + fnlen' - 1)%nat := C.NUL]> cmt))
  else None.

(** The body of the first loop of [run], for segment number [i]; [old]
    counts the files taken over from an earlier session. *)
Definition run_segment (e : env) (i : nat) (old : Z) : M Z :=
  let! segm := getnseg i in
  match segm with
  | None => ret old
  | Some segm =>
      match get_segment_cmt segm with
      | None =>
          set_segment_cmt i ([LF] ++ str "dep: original" ++ [LF]);; ret old
      | Some cmt0 =>
          match restore_parse cmt0 with
          | None => ret old
          | Some (fnlen, cmt) =>
              let! is_original :=
                if decide (fnlen = 9%nat) then
                  let! r := lift (C.memcmp cmt (str "original" ++ [C.NUL]) 9) in
                  ret (bool_decide (r = 0))
                else ret false in
              let! skip :=
                if is_original : bool then ret true
                else let! s := lift (C.c_str cmt) in
                     let! l := isloaded s in
                     ret (bool_decide (l ≠ 0)) in
              if skip : bool then ret old
              else
                let! iptr := malloc e (sizeof_imports + fnlen) in
                match iptr with
                | None =>
                    warning (str "Failed to allocate memory for restoring linked list");;
                    ret old
                | Some iptr =>
                    write_node iptr (mk_imports None (take fnlen cmt));;
                    let! last := gets loadedend in
                    write_next last (Some (heap_addr iptr));;
                    set_loadedend (heap_addr iptr);;
                    ret (old + 1)
                end
          end
      end
  end.

(** The first loop of [run]: original segments get their comment, and the
    list is filled again from the comments of an earlier session. *)
Definition run_restore (e : env) : M Z :=
  let! nsegs := get_segm_qty in
  for_loop nsegs 0%nat (run_segment e) 0.

(** The state the plugin starts in: [loadedbase = { 0 }] and
    [loadedend = &loadedbase]. *)
Definition initial_world (d : idb) : world :=
  mk_world (mk_imports None []) loadedbase_addr ∅ d [].

(** ** The rest of the plugin: [term], [enumcb] and [run] *)

(** [free(ptr)] on a pointer to a node; [&loadedbase] is no block of the
    heap. *)
Definition free_node (p : ptr) : M unit :=
  match p with
  | heap_addr l => free l
  | loadedbase_addr => abort
  end.

(** The loop of [term]: [ptr2 = ptr->next; free(ptr); ptr = ptr2].  As in
    the other walks, [fuel] bounds the nodes visited; each turn frees a
    block, so a walk longer than the heap has blocks would free one
    twice. *)
Fixpoint term_loop (fuel : nat) (p : option ptr) : M unit :=
  match p with
  | None => ret tt
  | Some p =>
      match fuel with
      | O => abort
      | S fuel' =>
          let! nd := deref p in
          free_node p;;
          term_loop fuel' (next nd)
      end
  end.

Definition term : M unit :=
  let! b := gets loadedbase in
  let! n := gets (λ w, size (heap w)) in
  term_loop (S n) (next b).

(** [tolower] in the "C" locale: the letters A to Z only. *)
Definition tolower (c : ascii) : ascii :=
  let n := N_of_ascii c in
  if ((65 <=? n) && (n <=? 90))%N then ascii_of_N (n + 32) else c.

(** [strnicmp] on two string values: [strncmp] on the characters in
    lower case.  The plugin tests the result against 0 only. *)
Fixpoint strnicmp (a b : text) (n : nat) {struct n} : Z :=
  match n with
  | O => 0
  | S n' =>
      match a, b with
      | [], [] => 0
      | [], y :: _ => 0 - C.uchar_val (tolower y)
      | x :: _, [] => C.uchar_val (tolower x)
      | x :: a', y :: b' =>
          if decide (tolower x = tolower y) then strnicmp a' b' n'
          else C.uchar_val (tolower x) - C.uchar_val (tolower y)
      end
  end.

(** [enumcb(file, ud)]: the callback of [enumerate_files]; [ud] is the
    name of the import module. *)
Definition enumcb (file ud : text) : Z :=
  match C.strrchr file "\"%char with
  | None => 0
  | Some i =>
      let sb := drop (S i) file in
      if decide (strnicmp sb ud (length ud) = 0) then 1 else 0
  end.

(** The three answers of [askbuttons_c]. *)
Inductive button := ASKBTN_YES | ASKBTN_NO | ASKBTN_CANCEL.

(** What the user, the file system and the analysis answer during one
    [run]: the button of [askbuttons_c]; the folder [AskUsingForm_c]
    writes to [path] ([None] when the form is cancelled and the call
    gives 0); the name [get_import_module_name] has for module number [i]
    (the call answers for every number below [get_import_module_qty()]);
    the names [enumerate_files] passes to its callback for a folder, in
    its order; the file [askfile_c] gives ([None] for a null result);
    and the database [autoWait] leaves when the analysis queue is
    empty. *)
Record ui := mk_ui {
  askbuttons_r : button;
  AskUsingForm_r : option text;
  get_import_module_name_r : nat → text;
  enumerate_files_r : text → list text;
  askfile_r : option text;
  autoWait_r : idb → idb
}.

(** [enumerate_files(answer, answer_size, path, "*", enumcb, ud)]: the
    files are passed to the callback until it answers other than 0; the
    name of that file is copied to [answer], a buffer of [QMAXPATH]
    bytes.  [None] for the result 0: no file was taken, and [answer] is
    not read. *)
Definition enumerate_files (e : env) (u : ui) (path ud : text)
    : option text :=
  take (QMAXPATH e - 1)%nat
    <$> List.find (λ f, bool_decide (enumcb f ud ≠ 0))
          (enumerate_files_r u path).

Definition autoWait (u : ui) : M unit :=
  let! d := gets db in set_db (autoWait_r u d).

(** The wait box is not part of the world: showing and hiding it changes
    nothing the plugin reads. *)
Definition show_wait_box : M unit := ret tt.
Definition hide_wait_box : M unit := ret tt.

(** The body of the loop over the import modules, for module [i] and the
    folder [path]; [buf] is filled by [get_import_module_name(i, buf,
    sizeof(buf) - 4)]. *)
Definition run_import (e : env) (u : ui) (path : text) (i : nat) : M unit :=
  let buf := take (QMAXPATH e - 4 - 1)%nat (get_import_module_name_r u i) in
  match enumerate_files e u path buf with
  | None =>
      warning (str "Cannot find resource for import '" ++ buf ++ str "'" ++
               [LF] ++ str "Ignoring." ++ [LF])
  | Some buf2 =>
      let! r := load e buf2 in
      if decide (r = -1)
      then warning (str "Failed to load file '" ++ buf2 ++ str "'" ++ [LF])
      else ret tt
  end.

(** The end of [run], from [clearcmts()] on. *)
Definition run_finish (e : env) (u : ui) : M unit :=
  clearcmts;;
  listloaded;;
  show_wait_box;;
  autoWait u;;
  mapinexports e;;
  hide_wait_box;;
  msg (str "All done" ++ [LF]).

(** [run(arg)]; the argument is not read. *)
Definition run (e : env) (u : ui) : M unit :=
  let! old := run_restore e in
  (if decide (old ≠ 0) then
     msg (str "Detected " ++ str (pretty old) ++
          str " previous loaded files" ++ [LF]);;
     listloaded
   else ret tt);;
  match askbuttons_r u with
  | ASKBTN_CANCEL => ret tt
  | ASKBTN_NO =>
      match AskUsingForm_r u with
      | None => ret tt
      | Some path =>
          let! imports := get_import_module_qty in
          for_loop imports 0%nat (λ i _, run_import e u path i) tt;;
          run_finish e u
      end
  | ASKBTN_YES =>
      match askfile_r u with
      | Some ptr =>
          let! i := load e ptr in
          if decide (i = -1) then
            warning (str "Failed to load file" ++ [LF])
          else if decide (i = -2) then
            warning (str "File is already loaded" ++ [LF])
          else ret tt
      | None => ret tt
      end;;
      run_finish e u
  end.

(** ** Definitions for the statements *)

Definition is_digit (c : ascii) : Prop := c ∈ str "0123456789".

Definition annotate (ea : ea_t) (c : text) (w : world) : world :=
  mk_world (loadedbase w) (loadedend w) (heap w)
    (mk_idb (segs (db w)) (funcs (db w)) (names (db w))
       (import_modules (db w)) (<[ea := c]> (cmts (db w))))
    (trace w ++ [Ev_set_cmt ea c]).

Definition annotate_import (base full : text) (imp : import_t) (w : world)
    : world :=
  match imp_name imp with
  | Some nm =>
      if decide (base `prefix_of` nm)
      then annotate (imp_ea imp) (str "import -> " ++ full) w
      else w
  | None => w
  end.

Definition annotate_all (base full : text) (l : list import_t) (w : world)
    : world :=
  foldl (λ w imp, annotate_import base full imp w) w l.

(** The split the truncation amounts to, on the name as a value: the text
    before the last underscore and the digits after it. *)
Definition numeric_suffix (nm : text) : option (text * text) :=
  match C.strrchr nm "_"%char with
  | Some i =>
      if bool_decide (Forall is_digit (drop (S i) nm))
      then Some (take i nm, drop (S i) nm)
      else None
  | None => None
  end.

Definition add_event (ev : event) (w : world) : world :=
  mk_world (loadedbase w) (loadedend w) (heap w) (db w) (trace w ++ [ev]).

Definition sweep_func (nfuncs i : nat) (w : world) : world :=
  let w1 := if decide (i mod 5 = 0)%nat
            then add_event (Ev_replace_wait_box i nfuncs) w else w in
  match funcs (db w) !! i with
  | Some (Some f) =>
      match names (db w) !! startEA f with
      | Some n =>
          if nm_public n then
            match numeric_suffix (nm_text n) with
            | Some (base, _) =>
                annotate_all base (nm_text n)
                  (concat (import_modules (db w))) w1
            | None => w1
            end
          else w1
      | None => w1
      end
  | _ => w1
  end.

(** The names of the database are strings that leave room, in a buffer of
    [MAXSTR] bytes, for the ten characters "import -> " and a terminator.
    (The SDK has names of 511 characters at most and [MAXSTR] is 1024.) *)
Definition names_ok (e : env) (d : idb) : Prop :=
  ∀ ea n, names d !! ea = Some n →
    C.cstring (nm_text n) ∧ (length (nm_text n) + 10 < MAXSTR e)%nat.

(** Two worlds that differ in comments and log only. *)
Definition same_tables (w w' : world) : Prop :=
  loadedbase w' = loadedbase w ∧ loadedend w' = loadedend w ∧
  heap w' = heap w ∧ segs (db w') = segs (db w) ∧
  funcs (db w') = funcs (db w) ∧ names (db w') = names (db w) ∧
  import_modules (db w') = import_modules (db w).

Definition sweep (w : world) : world :=
  let nfuncs := length (funcs (db w)) in
  foldl (λ w i, sweep_func nfuncs i w) w (seq 0 nfuncs).

(** The calls of [set_cmt] that the imports [l] get for the function named
    [full], cut to [base]. *)
Definition import_events (base full : text) (l : list import_t)
    : list event :=
  omap (λ imp,
          match imp_name imp with
          | Some nm =>
              if decide (base `prefix_of` nm)
              then Some (Ev_set_cmt (imp_ea imp) (str "import -> " ++ full))
              else None
          | None => None
          end) l.

(** The calls that [mapinexports] logs for function number [i]. *)
Definition func_events (d : idb) (nfuncs i : nat) : list event :=
  (if decide (i mod 5 = 0)%nat then [Ev_replace_wait_box i nfuncs] else [])
  ++ match funcs d !! i with
     | Some (Some f) =>
         match names d !! startEA f with
         | Some n =>
             if nm_public n then
               match numeric_suffix (nm_text n) with
               | Some (base, _) =>
                   import_events base (nm_text n) (concat (import_modules d))
               | None => []
               end
             else []
         | None => []
         end
     | _ => []
     end.

(** Every comment of [w'] was in [w] or was set by a call of [evs]. *)
Definition cmts_logged (w w' : world) (evs : list event) : Prop :=
  ∀ ea c, cmts (db w') !! ea = Some c →
          cmts (db w) !! ea = Some c ∨ Ev_set_cmt ea c ∈ evs.

(** The nodes at [locs], linked from [p] to [q], hold the file names [fs]. *)
Fixpoint lseg (h : gmap positive (option _imports)) (p : option ptr)
    (locs : list loc) (fs : list text) (q : option ptr) : Prop :=
  match locs, fs with
  | [], [] => p = q
  | l :: locs', f :: fs' =>
      p = Some (heap_addr l) ∧ C.cstring f ∧
      ∃ nx, h !! l = Some (Some (mk_imports nx (f ++ [C.NUL]))) ∧
            lseg h nx locs' fs' q
  | _, _ => False
  end.

Definition last_ptr (locs : list loc) : ptr :=
  match last locs with
  | Some l => heap_addr l
  | None => loadedbase_addr
  end.

(** The list that starts at [loadedbase.next] holds the file names [fs],
    in this order, and [loadedend] points to its last node. *)
Definition registry (w : world) (fs : list text) : Prop :=
  ∃ locs, lseg (heap w) (next (loadedbase w)) locs fs None ∧
          NoDup locs ∧ loadedend w = last_ptr locs.

Definition add_events (evs : list event) (w : world) : world :=
  mk_world (loadedbase w) (loadedend w) (heap w) (db w) (trace w ++ evs).

Definition dep_text (fn : text) : text := [LF] ++ str "dep: " ++ fn ++ [LF].

(** What the body of the segment loop of [load] does to segment [n]. *)
Definition mark_segment (fn : text) (n : nat) (w : world) : world :=
  match default None (segs (db w) !! n) with
  | Some s =>
      match segm_name s, segm_cmt s, C.strrchr fn "\"%char with
      | Some _, None, Some i =>
          mk_world (loadedbase w) (loadedend w) (heap w)
            (mk_idb
               (<[n := Some (mk_segment (Some (drop (S i) fn))
                                        (Some (dep_text fn)))]> (segs (db w)))
               (funcs (db w)) (names (db w)) (import_modules (db w))
               (cmts (db w)))
            (trace w ++ [Ev_set_segm_name n (drop (S i) fn);
                         Ev_set_segment_cmt n (dep_text fn)])
      | _, _, _ => w
      end
  | None => w
  end.

Definition mark_from (fn : text) (i n : nat) (w : world) : world :=
  foldl (λ w k, mark_segment fn k w) w (seq i n).

Definition is_seg_event (ev : event) : Prop :=
  match ev with
  | Ev_set_segm_name _ _ | Ev_set_segment_cmt _ _ => True
  | _ => False
  end.

(** [w'] differs from [w] in segments only, by calls that name or comment
    a segment. *)
Definition seg_step (w w' : world) : Prop :=
  loadedbase w' = loadedbase w ∧ loadedend w' = loadedend w ∧
  heap w' = heap w ∧ funcs (db w') = funcs (db w) ∧
  names (db w') = names (db w) ∧
  import_modules (db w') = import_modules (db w) ∧
  cmts (db w') = cmts (db w) ∧
  ∃ evs, trace w' = trace w ++ evs ∧ Forall is_seg_event evs.

(** The world [load] leaves when every step until the segment loop went
    well, for the handles [li] and [ll]. *)
Definition host_loaded (e : env) (fn : text) (li ll : handle) (w : world)
    : world :=
  mk_world (loadedbase w) (loadedend w)
    (<[fresh (dom (heap w)) := None]> (heap w))
    (load_nonbinary_file_r e fn (db w)).2
    (trace w ++
     [Ev_open_linput fn li; Ev_build_loaders_list li ll;
      Ev_malloc (sizeof_imports + (length fn + 1)) (fresh (dom (heap w)));
      Ev_load_nonbinary_file fn true]).

Definition segments_marked (e : env) (fn : text) (li ll : handle) (w : world)
    : world :=
  mark_from fn 0 (length (segs (load_nonbinary_file_r e fn (db w)).2))
    (host_loaded e fn li ll w).

(** Every step of [load] before the segment loop goes well. *)
Definition load_can_succeed (e : env) (fn : text) (li ll : handle) (w : world)
    : Prop :=
  open_linput_r e fn = Some li ∧ build_loaders_list_r e li = Some ll ∧
  malloc_r e (heap w) (sizeof_imports + (length fn + 1)) = true ∧
  (load_nonbinary_file_r e fn (db w)).1 = true.

Definition listloaded_line (f : text) : event :=
  Ev_msg (str ">>>> '" ++ f ++ str "'" ++ [LF]).

Definition listloaded_header : event :=
  Ev_msg (str "--------------------------" ++ [LF] ++
          str "Currently loaded files:" ++ [LF] ++
          str "--------------------------" ++ [LF]).

Global Instance ptr_eq_dec : EqDecision ptr.
Proof. solve_decision. Defined.

Global Instance event_eq_dec : EqDecision event.
Proof. solve_decision. Defined.

(** How many times the call [ev] is in the log [evs]. *)
Definition count_event (ev : event) (evs : list event) : nat :=
  length (filter (λ x, x = ev) evs).

(** Each handle or block that the calls of [evs] acquire is released by
    exactly one call of [evs]. *)
Definition released_once (evs : list event) : Prop :=
  (∀ f li, Ev_open_linput f li ∈ evs →
           count_event (Ev_close_linput li) evs = 1%nat) ∧
  (∀ li ll, Ev_build_loaders_list li ll ∈ evs →
            count_event (Ev_free_loaders_list ll) evs = 1%nat) ∧
  (∀ sz p, Ev_malloc sz p ∈ evs → count_event (Ev_free p) evs = 1%nat).

(** One of the steps of [load] after the check of the list fails: the file
    does not open, no loader takes it, there is no memory for the node, or
    the database refuses the file. *)
Definition load_fails (e : env) (fn : text) (w : world) : Prop :=
  match open_linput_r e fn with
  | None => True
  | Some li =>
      match build_loaders_list_r e li with
      | None => True
      | Some ll =>
          malloc_r e (heap w) (sizeof_imports + (length fn + 1)) = false ∨
          (load_nonbinary_file_r e fn (db w)).1 = false
      end
  end.

(** The wording of the specification: a name is cut when its last
    underscore is followed by one decimal digit at least, and by nothing
    else. *)
Definition claimed_candidate (nm : text) : Prop :=
  ∃ base suf, nm = base ++ "_"%char :: suf ∧ ("_"%char ∉ suf) ∧
              suf ≠ [] ∧ Forall is_digit suf.


(** The segment comments are strings, and none is the bare six bytes of the
    prefix (for such a comment [run] copies no byte into the node). *)
Definition comments_ok (d : idb) : Prop :=
  ∀ i s c, segs d !! i = Some (Some s) → segm_cmt s = Some c →
           C.cstring c ∧ c ≠ [LF] ++ str "dep: ".

(** The sweep has a reason to set the comment [c] at [ea]: [c] is the text
    for a public function whose name ends in an underscore and digits, and
    [ea] is a named import that the name's text before that underscore is a
    prefix of. *)
Definition annotated_by (d : idb) (ea : ea_t) (c : text) : Prop :=
  ∃ i f n base suf mdl imp inm,
    funcs d !! i = Some (Some f) ∧ names d !! startEA f = Some n ∧
    nm_public n = true ∧ nm_text n = base ++ "_"%char :: suf ∧
    Forall is_digit suf ∧ mdl ∈ import_modules d ∧ imp ∈ mdl ∧
    imp_ea imp = ea ∧ imp_name imp = Some inm ∧ base `prefix_of` inm ∧
    c = str "import -> " ++ nm_text n.

(** ** Definitions for the further properties *)

(** What [set_cmt(ea, "", true)] leaves of the world. *)
Definition wipe (ea : ea_t) (w : world) : world :=
  mk_world (loadedbase w) (loadedend w) (heap w)
    (mk_idb (segs (db w)) (funcs (db w)) (names (db w))
       (import_modules (db w)) (delete ea (cmts (db w))))
    (trace w ++ [Ev_set_cmt ea []]).

Definition wipe_all (l : list import_t) (w : world) : world :=
  foldl (λ w imp, wipe (imp_ea imp) w) w l.

(** The addresses of the import entries of all modules. *)
Definition import_addresses (d : idb) : list ea_t :=
  imp_ea <$> concat (import_modules d).

(** The table of comments after one call of the log, as [set_cmt] leaves
    it; the other calls do not touch it. *)
Definition replay_cmt (m : gmap Z text) (ev : event) : gmap Z text :=
  match ev with
  | Ev_set_cmt ea c => if decide (c = []) then delete ea m else <[ea := c]> m
  | _ => m
  end.

Definition replay_cmts (evs : list event) (m : gmap Z text) : gmap Z text :=
  foldl replay_cmt m evs.

(** The texts of the calls of [set_cmt] at [ea], in the order of the log. *)
Definition calls_at (ea : ea_t) (evs : list event) : list text :=
  omap (λ ev, match ev with
              | Ev_set_cmt ea' c => if decide (ea' = ea) then Some c else None
              | _ => None
              end) evs.

(** The calls that [mapinexports] logs, function after function. *)
Definition sweep_events (d : idb) : list event :=
  concat (func_events d (length (funcs d)) <$> seq 0 (length (funcs d))).

(** The segment [load] leaves for a segment of the database after the file
    [fn], whose name after the last backslash is [base], went in: one with
    a name and without a comment gets the base name and the comment. *)
Definition provenance (fn base : text) (s : option segment_t)
    : option segment_t :=
  match s with
  | Some s =>
      match segm_name s, segm_cmt s with
      | Some _, None => Some (mk_segment (Some base) (Some (dep_text fn)))
      | _, _ => Some s
      end
  | None => None
  end.

Definition original_cmt : text := [LF] ++ str "dep: original" ++ [LF].

Definition dep_prefix : text := [LF] ++ str "dep: ".

(** The heap without the blocks at [locs]. *)
Definition release (locs : list loc) (h : gmap positive (option _imports))
    : gmap positive (option _imports) :=
  foldl (λ h l, delete l h) h locs.

(** A computation keeps the relation [R] between the world it starts in
    and the world it returns in. *)
Definition keeps {A} (R : relation world) (m : M A) : Prop :=
  ∀ w a w', m w = Some (a, w') → R w w'.

(** Only the log differs. *)
Definition only_log (w w' : world) : Prop :=
  loadedbase w' = loadedbase w ∧ loadedend w' = loadedend w ∧
  heap w' = heap w ∧ db w' = db w.

(** The list of loaded files is untouched. *)
Definition list_kept (w w' : world) : Prop :=
  loadedbase w' = loadedbase w ∧ loadedend w' = loadedend w ∧
  heap w' = heap w.

(** The list of loaded files is kept and extended at its end, and stays
    free of duplicates. *)
Definition list_extended (w w' : world) : Prop :=
  ∀ fs, registry w fs →
    ∃ added, registry w' (fs ++ added) ∧ (NoDup fs → NoDup (fs ++ added)).

(** The calls the first loop of [run] logs. *)
Definition is_restore_event (ev : event) : Prop :=
  match ev with
  | Ev_malloc _ _ | Ev_set_segment_cmt _ _ | Ev_msg _ | Ev_warning _ => True
  | _ => False
  end.

(** Functions, names, imports and comments at addresses are untouched,
    and no call but those of the first loop of [run] is logged. *)
Definition restore_step (w w' : world) : Prop :=
  funcs (db w') = funcs (db w) ∧ names (db w') = names (db w) ∧
  import_modules (db w') = import_modules (db w) ∧
  cmts (db w') = cmts (db w) ∧
  ∃ evs, trace w' = trace w ++ evs ∧ Forall is_restore_event evs.


(** The files [run] may pass to [load] are named by strings. *)
Definition files_ok (u : ui) : Prop :=
  (∀ path f, f ∈ enumerate_files_r u path → C.cstring f) ∧
  (∀ f, askfile_r u = Some f → C.cstring f).


(** A computation that starts with names that fit ends with names that
    fit. *)
Definition names_fit (e : env) (w w' : world) : Prop :=
  names_ok e (db w) → names_ok e (db w').

(** The loader and the analysis leave names that fit, when the names
    fitted before. *)
Definition host_keeps_names (e : env) (u : ui) : Prop :=
  (∀ f d, names_ok e d → names_ok e (load_nonbinary_file_r e f d).2) ∧
  (∀ d, names_ok e d → names_ok e (autoWait_r u d)).

(** The files [run] may pass to [load] are named by strings that leave
    room, in a buffer of [QMAXPATH] bytes, for the seven characters
    around the path in the segment comment and a terminator. *)
Definition files_fit (e : env) (u : ui) : Prop :=
  (∀ path f, f ∈ enumerate_files_r u path →
     C.cstring f ∧ (length (dep_text f) < QMAXPATH e)%nat) ∧
  (∀ f, askfile_r u = Some f →
     C.cstring f ∧ (length (dep_text f) < QMAXPATH e)%nat).

(** The list is in order and the names fit. *)
Definition ready (e : env) (w : world) : Prop :=
  (∃ fs, registry w fs) ∧ names_ok e (db w).

(** ** Sample data *)

Definition ex_segment : segment_t := mk_segment (Some (str ".text")) None.

(** A loader that adds one segment, with a name and without a comment. *)
Definition ex_load_file (ok : bool) (f : text) (d : idb) : bool * idb :=
  (ok, mk_idb (segs d ++ [Some ex_segment]) (funcs d) (names d)
         (import_modules d) (cmts d)).

Definition ex_env : env :=
  mk_env 1024 260 (λ _, Some 1%positive) (λ _, Some 2%positive)
    (λ _ _, true) (ex_load_file true).

(** The same, with a database that refuses every file. *)
Definition ex_env_refused : env :=
  mk_env 1024 260 (λ _, Some 1%positive) (λ _, Some 2%positive)
    (λ _ _, true) (ex_load_file false).

Definition ex_imports : list (list import_t) :=
  [[mk_import 4096 (Some (str "Foo@4")) 0; mk_import 4100 None 3;
    mk_import 4104 (Some (str "FooBar")) 0];
   [mk_import 8192 (Some (str "Fo")) 0; mk_import 8196 (Some (str "xFoo")) 0]].

Definition ex_db : idb :=
  mk_idb
    [Some (mk_segment (Some (str "seg0"))
             (Some ([LF] ++ str "dep: original" ++ [LF])))]
    [Some (mk_func 100); Some (mk_func 200); None; Some (mk_func 300)]
    (<[100 := mk_name (str "Foo_123") true]>
       (<[200 := mk_name (str "Bar_12a") true]>
          (<[300 := mk_name (str "Fo_1") false]> ∅)))
    ex_imports ∅.

(** A database whose one function is named by an underscore and digits. *)
Definition ex_db_digits : idb :=
  mk_idb [] [Some (mk_func 100)]
    (<[100 := mk_name (str "_123") true]> ∅) ex_imports ∅.

Definition ex_path : text := str "C:\libs\foo.dll".

(** A database whose one function is named with an underscore and nothing
    after it. *)
Definition ex_db_empty_suffix : idb :=
  mk_idb [] [Some (mk_func 100)]
    (<[100 := mk_name (str "Foo_") true]> ∅) ex_imports ∅.


Global Instance cstring_dec s : Decision (C.cstring s).
Proof. unfold C.cstring. apply _. Defined.

Definition ex_imname : _imname :=
  mk_imname (str "Foo" ++ C.NUL :: str "123" ++ [C.NUL]) 1.

Definition ex_db_two : idb :=
  mk_idb [] [Some (mk_func 100); Some (mk_func 200)]
    (<[100 := mk_name (str "Foo_1") true]>
       (<[200 := mk_name (str "Foo_2") true]> ∅))
    ex_imports ∅.

(** The database [load] leaves of the sample one for the sample path, and
    the world in which a new session starts on it. *)
Definition ex_db_loaded : idb :=
  default ex_db ((λ r, db r.2) <$> load ex_env ex_path (initial_world ex_db)).

(** The world after [load] took the sample path. *)
Definition ex_world_loaded : world :=
  default (initial_world ex_db)
    (snd <$> load ex_env ex_path (initial_world ex_db)).

(** A database with one segment, as a loader leaves it. *)
Definition ex_db_plain : idb := mk_idb [Some ex_segment] [] ∅ [] ∅.

(** A database with one segment, whose comment is the user's. *)
Definition ex_db_notes : idb :=
  mk_idb [Some (mk_segment (Some (str "seg0")) (Some (str "my notes")))]
    [] ∅ [] ∅.

(** A database with one segment, whose comment is the bare prefix. *)
Definition ex_db_bare : idb :=
  mk_idb [Some (mk_segment (Some (str "seg0")) (Some ([LF] ++ str "dep: ")))]
    [] ∅ [] ∅.

Definition ex_ui_file : ui :=
  mk_ui ASKBTN_YES None (λ _, str "foo") (λ _, [ex_path]) (Some ex_path) id.

Definition ex_ui_deps : ui :=
  mk_ui ASKBTN_NO (Some (str "C:\libs")) (λ _, str "FOO")
    (λ _, [str "C:\libs\bar.dll"; ex_path]) None id.


(** The world after a [run] on the sample database in which the user
    picks the sample file, and after one that loads the dependencies. *)
Definition ex_world_file : world :=
  default (initial_world ex_db)
    (snd <$> run ex_env ex_ui_file (initial_world ex_db)).

Definition ex_world_deps : world :=
  default (initial_world ex_db)
    (snd <$> run ex_env ex_ui_deps (initial_world ex_db)).

(** * Proofs *)

(** A decidable statement about sample data, by evaluation. *)
Ltac by_compute := apply (bool_decide_unpack _); vm_compute; exact I.

(** ** The C string functions *)

Section cstrings.
Import C.

Lemma uchar_val_inj x y : uchar_val x = uchar_val y → x = y.
Proof.
  unfold uchar_val. intros H%N2Z.inj.
  rewrite <- (ascii_N_embedding x), <- (ascii_N_embedding y). congruence.
Qed.

Lemma uchar_val_nul x : uchar_val x = 0 → x = NUL.
Proof. intros H. apply uchar_val_inj. by rewrite H. Qed.

Lemma cstring_nil : cstring [].
Proof. unfold cstring. apply not_elem_of_nil. Qed.

Lemma cstring_cons c s : cstring (c :: s) ↔ c ≠ NUL ∧ cstring s.
Proof.
  unfold cstring. rewrite not_elem_of_cons. split.
  - intros [H1 H2]. split; [congruence | done].
  - intros [H1 H2]. split; [congruence | done].
Qed.

Lemma cstring_app s t : cstring (s ++ t) ↔ cstring s ∧ cstring t.
Proof. unfold cstring. by rewrite not_elem_of_app. Qed.

Lemma c_str_app s r : cstring s → c_str (s ++ NUL :: r) = Some s.
Proof.
  induction s as [|c s IH]; simpl; intros Hs.
  - by destruct (decide (NUL = NUL)).
  - apply cstring_cons in Hs as [Hc Hs].
    destruct (decide (c = NUL)); [done|]. by rewrite IH.
Qed.

Lemma c_str_inv m s :
  c_str m = Some s → cstring s ∧ ∃ r, m = s ++ NUL :: r.
Proof.
  revert s. induction m as [|c m IH]; simpl; intros s Hs; [done|].
  destruct (decide (c = NUL)) as [->|Hc].
  - injection Hs as <-. split; [apply cstring_nil | by exists m].
  - destruct (c_str m) as [s'|] eqn:E; simpl in Hs; [|done].
    injection Hs as <-. destruct (IH s' eq_refl) as [Hs' [r ->]].
    split; [by apply cstring_cons | by exists r].
Qed.

Lemma strcmp_eq a b : cstring a → cstring b → strcmp a b = 0 ↔ a = b.
Proof.
  revert b. induction a as [|x a IH]; intros [|y b] Ha Hb; simpl.
  - done.
  - apply cstring_cons in Hb as [Hy _]. split; [|done].
    intros H. destruct Hy. apply uchar_val_nul. lia.
  - apply cstring_cons in Ha as [Hx _]. split; [|done].
    intros H. destruct Hx. by apply uchar_val_nul.
  - apply cstring_cons in Ha as [_ Ha]. apply cstring_cons in Hb as [_ Hb].
    destruct (decide (x = y)) as [->|Hxy].
    + rewrite IH by done. split; [by intros -> | by intros [= ->]].
    + split; [|by intros [= -> _]]. intros H. destruct Hxy.
      apply uchar_val_inj. lia.
Qed.

Lemma strncmp_prefix a b :
  cstring b → strncmp a b (length b) = 0 ↔ b `prefix_of` a.
Proof.
  revert a. induction b as [|y b IH]; intros a Hb; simpl.
  - split; [intros _; apply prefix_nil | done].
  - apply cstring_cons in Hb as [Hy Hb]. destruct a as [|x a].
    + split.
      * intros H. destruct Hy. apply uchar_val_nul. lia.
      * intros H. by apply prefix_nil_not in H.
    + destruct (decide (x = y)) as [->|Hxy].
      * rewrite IH by done. split; [apply prefix_cons | apply prefix_cons_inv_2].
      * split.
        -- intros H. destruct Hxy. apply uchar_val_inj. lia.
        -- intros H. by apply prefix_cons_inv_1 in H.
Qed.

Lemma strrchr_None s c : strrchr s c = None ↔ c ∉ s.
Proof.
  induction s as [|x s IH]; simpl.
  - split; [intros _; apply not_elem_of_nil | done].
  - rewrite not_elem_of_cons. destruct (strrchr s c) as [i|].
    + split; [done|]. intros [_ H]. by apply IH in H.
    + destruct (decide (x = c)) as [->|Hx]; [split; [done | by intros []]|].
      split; [|done]. intros _. split; [done | by apply IH].
Qed.

Lemma strrchr_app pre suf c :
  c ∉ suf → strrchr (pre ++ c :: suf) c = Some (length pre).
Proof.
  intros Hsuf. induction pre as [|x pre IH]; simpl.
  - apply strrchr_None in Hsuf. rewrite Hsuf. by destruct (decide (c = c)).
  - by rewrite IH.
Qed.

Lemma strrchr_Some s c i :
  strrchr s c = Some i →
  ∃ pre suf, s = pre ++ c :: suf ∧ length pre = i ∧ c ∉ suf.
Proof.
  revert i. induction s as [|x s IH]; simpl; intros i H; [done|].
  destruct (strrchr s c) as [j|] eqn:E.
  - injection H as <-. destruct (IH j eq_refl) as (pre & suf & -> & <- & Hs).
    by exists (x :: pre), suf.
  - destruct (decide (x = c)) as [->|]; [|done]. injection H as <-.
    exists [], s. by apply strrchr_None in E.
Qed.
End cstrings.

(** ** The name buffer: cutting the name and the callback *)

Section sweep.
Import C.

Lemma insert_middle {A} (l1 l2 : list A) (x y : A) :
  <[length l1 := y]> (l1 ++ x :: l2) = l1 ++ y :: l2.
Proof. induction l1 as [|a l1 IH]; simpl; [done | by rewrite IH]. Qed.

Lemma drop_middle {A} (l1 l2 : list A) (x : A) :
  drop (S (length l1)) (l1 ++ x :: l2) = l2.
Proof. induction l1 as [|a l1 IH]; simpl; [by rewrite drop_0 | done]. Qed.

Lemma digit_test c :
  (char_val c <? char_val "0") || (char_val "9" <? char_val c)
  = negb (bool_decide (is_digit c)).
Proof.
  destruct c as [[] [] [] [] [] [] [] []]; vm_compute; reflexivity.
Qed.

Lemma scan_digits_spec suf r :
  cstring suf →
  scan_digits (suf ++ NUL :: r) = Some (bool_decide (Forall is_digit suf)).
Proof.
  induction suf as [|c suf IH]; intros Hs.
  - simpl. by destruct (decide (NUL = NUL)).
  - apply cstring_cons in Hs as [Hc Hs]. simpl.
    destruct (decide (c = NUL)); [done|]. rewrite digit_test.
    destruct (bool_decide (is_digit c)) eqn:E; simpl.
    + rewrite IH by done. f_equal. apply bool_decide_ext.
      apply bool_decide_eq_true in E. rewrite Forall_cons. tauto.
    + f_equal. symmetry. apply bool_decide_eq_false.
      apply bool_decide_eq_false in E. rewrite Forall_cons. tauto.
Qed.

Lemma truncate_name_plain nm :
  cstring nm → "_"%char ∉ nm →
  truncate_name (nm ++ [NUL]) = Some (mk_imname (nm ++ [NUL]) 0).
Proof.
  intros Hc Hn. unfold truncate_name. rewrite c_str_app by done. simpl.
  apply strrchr_None in Hn. by rewrite Hn.
Qed.

Lemma truncate_name_suffix base suf :
  cstring base → cstring suf → "_"%char ∉ suf →
  truncate_name ((base ++ "_"%char :: suf) ++ [NUL])
  = Some (if bool_decide (Forall is_digit suf)
          then mk_imname (base ++ NUL :: suf ++ [NUL]) 1
          else mk_imname ((base ++ "_"%char :: suf) ++ [NUL]) 0).
Proof.
  intros Hb Hs Hn. unfold truncate_name.
  rewrite c_str_app; [|apply cstring_app; split; [done|by apply cstring_cons]].
  simpl. rewrite strrchr_app by done.
  rewrite <- app_assoc. simpl.
  rewrite drop_middle, scan_digits_spec by done. simpl.
  destruct (bool_decide (Forall is_digit suf)); [|done].
  by rewrite insert_middle.
Qed.

Lemma importmap_spec e ea nm ord base suf t w :
  cstring base → cstring suf →
  (length (base ++ "_"%char :: suf) + 10 < MAXSTR e)%nat →
  importmap e ea nm ord (mk_imname (base ++ NUL :: suf ++ [NUL]) t) w
  = Some ((1, mk_imname (base ++ NUL :: suf ++ [NUL]) t),
          annotate_import base (base ++ "_"%char :: suf)
            (mk_import ea nm ord) w).
Proof.
  intros Hb Hs Hlen. unfold importmap, annotate_import. simpl.
  destruct nm as [nm|]; [|done].
  unfold bind, lift. simpl. rewrite c_str_app by done.
  destruct (decide (strncmp nm base (length base) = 0)) as [Hm|Hm];
    rewrite strncmp_prefix in Hm by done.
  - rewrite decide_True by done. rewrite !insert_middle.
    replace (base ++ "_"%char :: suf ++ [NUL])
      with ((base ++ "_"%char :: suf) ++ [NUL]) by (by rewrite <- app_assoc).
    rewrite c_str_app.
    2:{ apply cstring_app; split; [done|by apply cstring_cons]. }
    unfold sprintf_s. rewrite decide_True.
    2:{ simpl in *. lia. }
    done.
  - by rewrite decide_False.
Qed.

Lemma numeric_suffix_Some nm base suf :
  numeric_suffix nm = Some (base, suf) ↔
  nm = base ++ "_"%char :: suf ∧ ("_"%char ∉ suf) ∧ Forall is_digit suf.
Proof.
  unfold numeric_suffix. split.
  - destruct (strrchr nm "_"%char) as [i|] eqn:E; [|done].
    apply strrchr_Some in E as (pre & sf & -> & <- & Hsf).
    rewrite drop_middle, take_app_length.
    case_bool_decide; [|done]. by intros [= <- <-].
  - intros (-> & Hn & Hd). rewrite strrchr_app by done.
    rewrite drop_middle, take_app_length. by rewrite bool_decide_eq_true_2.
Qed.

Lemma numeric_suffix_None nm :
  numeric_suffix nm = None ↔
  ∀ base suf, nm = base ++ "_"%char :: suf → "_"%char ∉ suf →
              ¬ Forall is_digit suf.
Proof.
  split.
  - intros HN base suf -> Hn Hd.
    assert (numeric_suffix (base ++ "_"%char :: suf) = Some (base, suf)) as H
      by by apply numeric_suffix_Some.
    congruence.
  - intros H. destruct (numeric_suffix nm) as [[base suf]|] eqn:E; [|done].
    apply numeric_suffix_Some in E as (-> & Hn & Hd). by destruct (H base suf).
Qed.

Lemma truncate_name_refines nm :
  cstring nm →
  truncate_name (nm ++ [NUL])
  = Some (match numeric_suffix nm with
          | Some (base, suf) => mk_imname (base ++ NUL :: suf ++ [NUL]) 1
          | None => mk_imname (nm ++ [NUL]) 0
          end).
Proof.
  intros Hc. destruct (numeric_suffix nm) as [[base suf]|] eqn:E.
  - apply numeric_suffix_Some in E as (-> & Hn & Hd).
    apply cstring_app in Hc as [Hb [_ Hs]%cstring_cons].
    rewrite truncate_name_suffix by done. by rewrite bool_decide_eq_true_2.
  - destruct (strrchr nm "_"%char) as [i|] eqn:Es.
    + apply strrchr_Some in Es as (pre & sf & -> & <- & Hsf).
      apply cstring_app in Hc as [Hb [_ Hs]%cstring_cons].
      rewrite truncate_name_suffix by done.
      rewrite bool_decide_eq_false_2; [done|].
      by eapply numeric_suffix_None.
    + apply truncate_name_plain; [done | by apply strrchr_None].
Qed.
End sweep.

(** ** The loops over the import modules *)

Section loops.
Import C.

Lemma for_loop_fold {V} (I : world → Prop) (body : nat → V → M V)
    (f : nat → V → world → V * world) n i s w :
  (∀ i s w, I w → body i s w = Some (f i s w) ∧ I (f i s w).2) →
  I w →
  for_loop n i body s w
  = Some (foldl (λ sw i, f i sw.1 sw.2) (s, w) (seq i n))
  ∧ I (foldl (λ sw i, f i sw.1 sw.2) (s, w) (seq i n)).2.
Proof.
  intros Hbody. revert i s w. induction n as [|n IH]; intros i s w HI.
  - done.
  - simpl. unfold bind. destruct (Hbody i s w HI) as [-> HI'].
    destruct (f i s w) as [s' w'] eqn:E. simpl in *. by apply IH.
Qed.

Lemma same_tables_refl w : same_tables w w.
Proof. by repeat split. Qed.

Lemma same_tables_trans w1 w2 w3 :
  same_tables w1 w2 → same_tables w2 w3 → same_tables w1 w3.
Proof.
  intros (?&?&?&?&?&?&?) (?&?&?&?&?&?&?). split_and!; congruence.
Qed.

Lemma annotate_import_tables base full imp w :
  same_tables w (annotate_import base full imp w).
Proof.
  unfold annotate_import. destruct (imp_name imp); [|apply same_tables_refl].
  case_decide; [|apply same_tables_refl]. by repeat split.
Qed.

Lemma annotate_all_tables base full l w :
  same_tables w (annotate_all base full l w).
Proof.
  revert w. induction l as [|imp l IH]; intros w; [apply same_tables_refl|].
  simpl. eapply same_tables_trans; [apply annotate_import_tables | apply IH].
Qed.

Lemma enum_names_importmap e base suf t l w :
  cstring base → cstring suf →
  (length (base ++ "_"%char :: suf) + 10 < MAXSTR e)%nat →
  enum_names l (importmap e) (mk_imname (base ++ NUL :: suf ++ [NUL]) t) w
  = Some ((1, mk_imname (base ++ NUL :: suf ++ [NUL]) t),
          annotate_all base (base ++ "_"%char :: suf) l w).
Proof.
  intros Hb Hs Hlen. revert w. induction l as [|imp l IH]; intros w; [done|].
  simpl. unfold bind. rewrite importmap_spec by done. simpl.
  rewrite IH. by destruct imp.
Qed.

Lemma map_modules e base suf t w :
  cstring base → cstring suf →
  (length (base ++ "_"%char :: suf) + 10 < MAXSTR e)%nat →
  for_loop (length (import_modules (db w))) 0%nat
    (λ i2 im, let! r := enum_import_names i2 (importmap e) im in ret (snd r))
    (mk_imname (base ++ NUL :: suf ++ [NUL]) t) w
  = Some (mk_imname (base ++ NUL :: suf ++ [NUL]) t,
          annotate_all base (base ++ "_"%char :: suf)
            (concat (import_modules (db w))) w).
Proof.
  intros Hb Hs Hlen.
  set (im := mk_imname _ t). set (full := base ++ _ :: suf).
  set (mods := import_modules (db w)).
  assert (∀ n i w', import_modules (db w') = mods →
            (i + n = length mods)%nat →
            for_loop n i
              (λ i2 im, let! r := enum_import_names i2 (importmap e) im in
                        ret (snd r)) im w'
            = Some (im, annotate_all base full (concat (drop i mods)) w'))
    as Hgen.
  { induction n as [|n IH]; intros i w' Hm Hn.
    - simpl. rewrite drop_ge by lia. done.
    - destruct (lookup_lt_is_Some_2 mods i) as [l Hl]; [lia|].
      simpl. unfold bind at 1. unfold enum_import_names, bind, gets.
      rewrite Hm, Hl. unfold im at 1. rewrite enum_names_importmap by done.
      simpl. fold im. rewrite IH; [| |lia].
      + rewrite (drop_S _ _ _ Hl). simpl. unfold annotate_all.
        by rewrite foldl_app.
      + rewrite <- Hm. apply annotate_all_tables. }
  rewrite Hgen by done. by rewrite drop_0.
Qed.
End loops.

(** ** [mapinexports] as a fold over the functions *)

Section sweep_spec.
Import C.

Lemma mapinexports_func_spec e nf i w :
  names_ok e (db w) →
  mapinexports_func e nf i w = Some (tt, sweep_func nf i w).
Proof.
  intros Hok. unfold mapinexports_func, sweep_func.
  set (w1 := if decide (i mod 5 = 0)%nat
             then add_event (Ev_replace_wait_box i nf) w else w).
  assert (db w1 = db w) as Hdb by (unfold w1; by case_decide).
  unfold bind at 1.
  assert ((if decide (i mod 5 = 0)%nat
           then emit (Ev_replace_wait_box i nf) else ret tt) w
          = Some (tt, w1)) as -> by (unfold w1; by case_decide).
  unfold bind at 1. unfold getn_func, gets. rewrite Hdb.
  destruct (funcs (db w) !! i) as [[f|]|]; simpl; [|done..].
  unfold bind at 1. unfold is_public_name, gets. rewrite Hdb.
  destruct (names (db w) !! startEA f) as [n|] eqn:En; simpl; [|done].
  destruct (nm_public n); simpl; [|done].
  unfold bind at 1. unfold get_func_name, gets. rewrite Hdb, En.
  destruct (Hok _ _ En) as [Hc Hlen].
  rewrite take_ge by lia.
  unfold bind at 1. unfold lift. rewrite truncate_name_refines by done.
  destruct (numeric_suffix (nm_text n)) as [[base suf]|] eqn:Ens; simpl;
    [|done].
  apply numeric_suffix_Some in Ens as (Hn & Hus & Hd).
  rewrite Hn in Hc, Hlen.
  apply cstring_app in Hc as [Hb [_ Hs]%cstring_cons].
  unfold bind at 1. unfold get_import_module_qty, gets.
  unfold bind at 1. rewrite map_modules by done.
  rewrite Hn, Hdb. done.
Qed.

Lemma sweep_func_tables nf i w : same_tables w (sweep_func nf i w).
Proof.
  unfold sweep_func.
  set (w1 := if decide (i mod 5 = 0)%nat
             then add_event (Ev_replace_wait_box i nf) w else w).
  assert (same_tables w w1) as H1
    by (unfold w1; case_decide; by repeat split).
  destruct (funcs (db w) !! i) as [[f|]|]; [|done..].
  destruct (names (db w) !! startEA f) as [n|]; [|done].
  destruct (nm_public n); [|done].
  destruct (numeric_suffix (nm_text n)) as [[base suf]|]; [|done].
  eapply same_tables_trans; [exact H1 | apply annotate_all_tables].
Qed.

Lemma foldl_unit (g : nat → world → world) l w :
  foldl (λ (sw : unit * world) i, (tt, g i sw.2)) (tt, w) l
  = (tt, foldl (λ w i, g i w) w l).
Proof. revert w. induction l as [|i l IH]; intros w; simpl; [done | apply IH]. Qed.

Lemma mapinexports_spec e w :
  names_ok e (db w) → mapinexports e w = Some (tt, sweep w).
Proof.
  intros Hok. unfold mapinexports, sweep, bind at 1, get_func_qty, gets.
  set (nf := length (funcs (db w))).
  destruct (for_loop_fold (λ w', names (db w') = names (db w))
              (λ i _, mapinexports_func e nf i)
              (λ i _ w', (tt, sweep_func nf i w')) nf 0%nat tt w)
    as [-> _]; [|done|].
  - intros i s w' Hw'. split.
    + apply mapinexports_func_spec. unfold names_ok. by rewrite Hw'.
    + simpl. rewrite <- Hw'. apply sweep_func_tables.
  - f_equal. apply foldl_unit.
Qed.
End sweep_spec.

(** ** The comments the sweep sets *)

Section sweep_events.
Import C.

Lemma annotate_import_trace base full imp w :
  trace (annotate_import base full imp w)
  = trace w ++ import_events base full [imp].
Proof.
  unfold annotate_import, import_events. simpl.
  destruct (imp_name imp); [|by rewrite app_nil_r].
  case_decide; [done | by rewrite app_nil_r].
Qed.

Lemma import_events_app base full l1 l2 :
  import_events base full (l1 ++ l2)
  = import_events base full l1 ++ import_events base full l2.
Proof. apply omap_app. Qed.

Lemma annotate_all_trace base full l w :
  trace (annotate_all base full l w) = trace w ++ import_events base full l.
Proof.
  revert w. induction l as [|imp l IH]; intros w; simpl.
  - by rewrite app_nil_r.
  - rewrite IH, annotate_import_trace, <- app_assoc. f_equal.
    by rewrite <- import_events_app.
Qed.

Lemma annotate_all_snoc base full l imp w :
  annotate_all base full (l ++ [imp]) w
  = annotate_import base full imp (annotate_all base full l w).
Proof. unfold annotate_all. by rewrite foldl_app. Qed.

Lemma annotate_all_cmts base full l w imp nm :
  imp ∈ l → imp_name imp = Some nm → base `prefix_of` nm →
  cmts (db (annotate_all base full l w)) !! imp_ea imp
  = Some (str "import -> " ++ full).
Proof.
  induction l as [|x l IH] using rev_ind; [by intros ?%elem_of_nil|].
  intros Hin Hn Hp. rewrite annotate_all_snoc.
  apply elem_of_app in Hin as [Hin|Hin%list_elem_of_singleton].
  - specialize (IH Hin Hn Hp). unfold annotate_import.
    destruct (imp_name x); [|done]. case_decide; [|done]. simpl.
    destruct (decide (imp_ea x = imp_ea imp)) as [->|Hne].
    + by rewrite lookup_insert_eq.
    + by rewrite lookup_insert_ne.
  - subst x. unfold annotate_import. rewrite Hn.
    rewrite decide_True by done. simpl. by rewrite lookup_insert_eq.
Qed.

Lemma annotate_all_logged base full l w :
  cmts_logged w (annotate_all base full l w) (import_events base full l).
Proof.
  induction l as [|x l IH] using rev_ind; [by left|].
  intros ea c. rewrite annotate_all_snoc, import_events_app.
  unfold annotate_import, import_events at 2. simpl.
  destruct (imp_name x) as [nm|].
  2:{ intros H. destruct (IH _ _ H); [by left|right]. rewrite app_nil_r. done. }
  case_decide.
  2:{ intros H'. destruct (IH _ _ H'); [by left|right]. rewrite app_nil_r. done. }
  simpl. destruct (decide (imp_ea x = ea)) as [->|Hne].
  - rewrite lookup_insert_eq. intros [= <-]. right.
    apply elem_of_app. right. apply list_elem_of_here.
  - rewrite lookup_insert_ne by done. intros H'.
    destruct (IH _ _ H'); [by left|right]. apply elem_of_app. by left.
Qed.

Lemma sweep_func_trace nf i w :
  trace (sweep_func nf i w) = trace w ++ func_events (db w) nf i.
Proof.
  unfold sweep_func, func_events.
  set (w1 := if decide (i mod 5 = 0)%nat
             then add_event (Ev_replace_wait_box i nf) w else w).
  assert (trace w1 = trace w ++
            (if decide (i mod 5 = 0)%nat
             then [Ev_replace_wait_box i nf] else [])) as H1.
  { unfold w1. case_decide; [done | by rewrite app_nil_r]. }
  destruct (funcs (db w) !! i) as [[f|]|]; [|by rewrite app_nil_r..].
  destruct (names (db w) !! startEA f) as [n|]; [|by rewrite app_nil_r].
  destruct (nm_public n); [|by rewrite app_nil_r].
  destruct (numeric_suffix (nm_text n)) as [[base suf]|];
    [|by rewrite app_nil_r].
  by rewrite annotate_all_trace, H1, app_assoc.
Qed.

Lemma sweep_func_logged nf i w :
  cmts_logged w (sweep_func nf i w) (func_events (db w) nf i).
Proof.
  unfold sweep_func, func_events.
  set (w1 := if decide (i mod 5 = 0)%nat
             then add_event (Ev_replace_wait_box i nf) w else w).
  assert (cmts (db w1) = cmts (db w)) as H1 by (unfold w1; by case_decide).
  assert (cmts_logged w w1 []) as H0 by (intros ea c; rewrite H1; by left).
  assert (∀ evs, cmts_logged w w1 evs) as Hany.
  { intros evs ea c Hc. destruct (H0 _ _ Hc) as [|H]; [by left|].
    by apply elem_of_nil in H. }
  destruct (funcs (db w) !! i) as [[f|]|]; [|apply Hany..].
  destruct (names (db w) !! startEA f) as [n|]; [|apply Hany].
  destruct (nm_public n); [|apply Hany].
  destruct (numeric_suffix (nm_text n)) as [[base suf]|]; [|apply Hany].
  intros ea c Hc.
  destruct (annotate_all_logged base (nm_text n)
              (concat (import_modules (db w))) w1 ea c Hc) as [H|H].
  - left. by rewrite <- H1.
  - right. apply elem_of_app. by right.
Qed.

Lemma func_events_tables nf i w w' :
  same_tables w w' → func_events (db w') nf i = func_events (db w) nf i.
Proof.
  intros (_ & _ & _ & _ & Hf & Hn & Hi). unfold func_events.
  by rewrite Hf, Hn, Hi.
Qed.

Lemma sweep_fold_trace nf l w0 w :
  same_tables w0 w →
  same_tables w0 (foldl (λ w i, sweep_func nf i w) w l) ∧
  trace (foldl (λ w i, sweep_func nf i w) w l)
  = trace w ++ concat (func_events (db w0) nf <$> l) ∧
  cmts_logged w (foldl (λ w i, sweep_func nf i w) w l)
    (concat (func_events (db w0) nf <$> l)).
Proof.
  revert w. induction l as [|i l IH]; intros w Hw; simpl.
  - split_and!; [done | by rewrite app_nil_r | by left].
  - assert (same_tables w0 (sweep_func nf i w)) as Hw'
      by (eapply same_tables_trans; [done | apply sweep_func_tables]).
    destruct (IH _ Hw') as (Ht & Htr & Hlog). split_and!; [done| |].
    + rewrite Htr, sweep_func_trace, <- app_assoc.
      by rewrite (func_events_tables nf i w0 w).
    + intros ea c Hc. destruct (Hlog _ _ Hc) as [H|H].
      * destruct (sweep_func_logged nf i w _ _ H) as [H'|H']; [by left|].
        right. apply elem_of_app. left.
        by rewrite <- (func_events_tables nf i w0 w).
      * right. apply elem_of_app. by right.
Qed.

Lemma sweep_trace w :
  trace (sweep w)
  = trace w ++ concat (func_events (db w) (length (funcs (db w)))
                         <$> seq 0 (length (funcs (db w)))) ∧
  cmts_logged w (sweep w)
    (concat (func_events (db w) (length (funcs (db w)))
               <$> seq 0 (length (funcs (db w))))) ∧
  same_tables w (sweep w).
Proof.
  unfold sweep.
  destruct (sweep_fold_trace (length (funcs (db w)))
              (seq 0 (length (funcs (db w)))) w w (same_tables_refl w))
    as (? & ? & ?).
  done.
Qed.
End sweep_events.

(** ** The linked list of loaded files *)

Section registry.
Import C.
Implicit Types h : gmap positive (option _imports).

Lemma lseg_length h p locs fs q : lseg h p locs fs q → length locs = length fs.
Proof.
  revert p fs. induction locs as [|l locs IH]; intros p [|f fs]; simpl; try done.
  intros (_ & _ & nx & _ & H). f_equal. by eapply IH.
Qed.

Lemma lseg_alloc h p locs fs q l : lseg h p locs fs q → l ∈ locs → is_Some (h !! l).
Proof.
  revert p fs. induction locs as [|l' locs IH]; intros p [|f fs]; simpl; try done.
  - by intros _ ?%elem_of_nil.
  - intros (_ & _ & nx & Hl & H) [->|Hin]%elem_of_cons; [by eexists|].
    by eapply IH.
Qed.

Lemma lseg_size h p locs fs q :
  lseg h p locs fs q → NoDup locs → (length locs ≤ size h)%nat.
Proof.
  intros Hs Hnd.
  assert (locs ⊆+ elements (dom h)) as Hsub.
  { apply NoDup_submseteq; [done|]. intros l Hl.
    apply elem_of_elements, elem_of_dom. by eapply lseg_alloc. }
  apply submseteq_length in Hsub.
  by rewrite <- size_dom.
Qed.

Lemma lseg_frame h p locs fs q l v :
  l ∉ locs → lseg h p locs fs q → lseg (<[l := v]> h) p locs fs q.
Proof.
  revert p fs. induction locs as [|l' locs IH]; intros p [|f fs]; simpl; try done.
  intros [Hne Hnin]%not_elem_of_cons (-> & Hc & nx & Hl & H).
  split_and!; [done..|]. exists nx. split; [|by apply IH].
  by rewrite lookup_insert_ne.
Qed.

Lemma lseg_snoc h p locs fs l f q :
  lseg h p locs fs (Some (heap_addr l)) → cstring f →
  h !! l = Some (Some (mk_imports q (f ++ [NUL]))) →
  lseg h p (locs ++ [l]) (fs ++ [f]) q.
Proof.
  revert p fs. induction locs as [|l' locs IH]; intros p [|f' fs]; simpl; try done.
  - intros -> Hc Hl. split_and!; [done..|]. by exists q.
  - intros (-> & Hc' & nx & Hl' & H) Hc Hl. split_and!; [done..|].
    exists nx. split; [done|]. by apply IH.
Qed.

Lemma lseg_unsnoc h p locs l fs q :
  lseg h p (locs ++ [l]) fs q →
  ∃ fs' f, fs = fs' ++ [f] ∧ cstring f ∧
           lseg h p locs fs' (Some (heap_addr l)) ∧
           h !! l = Some (Some (mk_imports q (f ++ [NUL]))).
Proof.
  revert p fs. induction locs as [|l' locs IH]; intros p [|f fs]; simpl; try done.
  - intros (-> & Hc & nx & Hl & H). destruct fs; [|done]. simpl in H. subst nx.
    by exists [], f.
  - intros (-> & Hc & nx & Hl & H).
    destruct (IH _ _ H) as (fs' & f' & -> & Hc' & H' & Hl').
    exists (f :: fs'), f'. split_and!; [done..| |done]. by exists nx.
Qed.

Lemma isloaded_loop_spec fuel fn p locs fs w :
  lseg (heap w) p locs fs None → cstring fn → (length locs ≤ fuel)%nat →
  isloaded_loop fuel fn p w
  = Some (if bool_decide (fn ∈ fs) then 1 else 0, w).
Proof.
  revert fuel p fs. induction locs as [|l locs IH]; intros fuel p [|f fs];
    simpl; try done.
  - intros -> _ _. by destruct fuel.
  - intros (-> & Hc & nx & Hl & H) Hfn Hfuel.
    destruct fuel as [|fuel]; [lia|]. simpl.
    unfold bind at 1. unfold deref. rewrite Hl.
    unfold bind at 1. unfold lift. simpl. rewrite c_str_app by done.
    destruct (decide (strcmp fn f = 0)) as [He|He];
      rewrite strcmp_eq in He by done.
    + subst f. rewrite bool_decide_eq_true_2; [done | apply list_elem_of_here].
    + rewrite (IH fuel nx fs) by (done || lia).
      do 2 f_equal. rewrite (bool_decide_ext (fn ∈ f :: fs) (fn ∈ fs)); [done|].
      rewrite elem_of_cons.
      split; [intros [Hq|Hq]; [by destruct He | done] | by right].
Qed.

Lemma isloaded_spec fn fs w :
  registry w fs → cstring fn →
  isloaded fn w = Some (if bool_decide (fn ∈ fs) then 1 else 0, w).
Proof.
  intros (locs & Hs & Hnd & _) Hfn. unfold isloaded, bind, gets.
  eapply isloaded_loop_spec; [done..|].
  etrans; [by eapply lseg_size | lia].
Qed.

Lemma isloaded_loop_pure fuel fn p w r w' :
  isloaded_loop fuel fn p w = Some (r, w') → w' = w ∧ (r = 0 ∨ r = 1).
Proof.
  revert p. induction fuel as [|fuel IH]; intros [p|]; simpl; unfold ret;
    try done; try (intros [= <- <-]; by auto).
  unfold bind at 1. unfold deref.
  destruct p as [|l].
  - unfold bind at 1. unfold lift.
    destruct (c_str (filename (loadedbase w))); [|done].
    case_decide; [intros [= <- <-]; auto | apply IH].
  - destruct (heap w !! l) as [[nd|]|]; [|done..].
    unfold bind at 1. unfold lift.
    destruct (c_str (filename nd)); [|done].
    case_decide; [intros [= <- <-]; auto | apply IH].
Qed.

Lemma isloaded_pure fn w r w' :
  isloaded fn w = Some (r, w') → w' = w ∧ (r = 0 ∨ r = 1).
Proof. unfold isloaded, bind, gets. apply isloaded_loop_pure. Qed.

Lemma registry_initial d : registry (initial_world d) [].
Proof. exists []. split_and!; [done | apply NoDup_nil_2 | done]. Qed.
End registry.

(** ** The segment loop of [load] *)

Section segments.
Import C.

Lemma load_segment_eq e fn n w :
  load_segment e fn n w = Some (tt, mark_segment fn n w) ∨
  (load_segment e fn n w = None ∧ "\"%char ∈ fn ∧
   ¬ (length (dep_text fn) < QMAXPATH e)%nat).
Proof.
  remember (load_segment e fn n w) as r eqn:E.
  unfold load_segment, bind at 1, getnseg, gets in E. unfold mark_segment.
  destruct (default None (segs (db w) !! n)) as [s|] eqn:Es; [|by left].
  unfold get_segm_name, get_segment_cmt in E.
  destruct (segm_name s) as [nm|] eqn:En.
  2:{ rewrite decide_True in E by done. by left. }
  rewrite decide_False in E by lia.
  destruct (segm_cmt s) as [c|] eqn:Ec; [by left|].
  destruct (strrchr fn "\"%char) as [i|] eqn:Er; [|by left].
  unfold bind at 1 in E. unfold set_segm_name, bind at 1, getnseg, gets in E.
  rewrite Es in E. unfold bind at 1 in E.
  unfold upd_segs, bind at 1, gets, set_db, emit in E.
  unfold bind at 1 in E. unfold lift, format_dep, sprintf_s in E.
  fold (dep_text fn) in E.
  destruct (decide (length (dep_text fn) < QMAXPATH e)%nat) as [Hfit|Hfit].
  2:{ right. split_and!; [done| |done].
      destruct (decide ("\"%char ∈ fn)) as [|Hn]; [done|].
      apply strrchr_None in Hn. congruence. }
  left. unfold set_segment_cmt, bind at 1, getnseg, gets in E. simpl in E.
  assert (n < length (segs (db w)))%nat as Hn.
  { apply lookup_lt_is_Some. destruct (segs (db w) !! n); [by eexists|done]. }
  rewrite list_lookup_insert_eq in E by done. simpl in E.
  unfold upd_segs, bind, gets, set_db, emit in E. simpl in E.
  by rewrite list_insert_insert_eq, <- app_assoc in E.
Qed.

Lemma load_segment_inv e fn n w u w' :
  load_segment e fn n w = Some (u, w') → w' = mark_segment fn n w.
Proof.
  destruct (load_segment_eq e fn n w) as [->|[-> _]]; [|done].
  by intros [= _ <-].
Qed.

Lemma load_segment_ok e fn n w :
  "\"%char ∉ fn ∨ (length (dep_text fn) < QMAXPATH e)%nat →
  load_segment e fn n w = Some (tt, mark_segment fn n w).
Proof.
  destruct (load_segment_eq e fn n w) as [->|(_ & ? & ?)]; [done|]. tauto.
Qed.

Lemma load_segs_inv e fn n i w u w' :
  for_loop n i (λ k _, load_segment e fn k) tt w = Some (u, w') →
  w' = mark_from fn i n w.
Proof.
  unfold mark_from. revert i w. induction n as [|n IH]; intros i w; simpl.
  - by intros [= _ <-].
  - unfold bind at 1.
    destruct (load_segment e fn i w) as [[[] w1]|] eqn:E; [|done].
    apply load_segment_inv in E as ->. apply IH.
Qed.

Lemma load_segs_ok e fn n i w :
  "\"%char ∉ fn ∨ (length (dep_text fn) < QMAXPATH e)%nat →
  for_loop n i (λ k _, load_segment e fn k) tt w
  = Some (tt, mark_from fn i n w).
Proof.
  intros Hfit. unfold mark_from. revert i w.
  induction n as [|n IH]; intros i w; simpl; [done|].
  unfold bind at 1. rewrite load_segment_ok by done. apply IH.
Qed.

Lemma mark_segment_no_backslash fn n w :
  "\"%char ∉ fn → mark_segment fn n w = w.
Proof.
  intros Hn%strrchr_None. unfold mark_segment. rewrite Hn.
  destruct (default None (segs (db w) !! n)) as [s|]; [|done].
  by destruct (segm_name s), (segm_cmt s).
Qed.

Lemma mark_from_no_backslash fn i n w :
  "\"%char ∉ fn → mark_from fn i n w = w.
Proof.
  intros Hn. unfold mark_from. revert i w.
  induction n as [|n IH]; intros i w; simpl; [done|].
  by rewrite mark_segment_no_backslash.
Qed.

Lemma seg_step_refl w : seg_step w w.
Proof.
  split_and!; [done..|]. exists []. by rewrite app_nil_r.
Qed.

Lemma seg_step_trans w1 w2 w3 :
  seg_step w1 w2 → seg_step w2 w3 → seg_step w1 w3.
Proof.
  intros (?&?&?&?&?&?&?& evs1 & Ht1 & Hf1) (?&?&?&?&?&?&?& evs2 & Ht2 & Hf2).
  split_and!; [congruence..|]. exists (evs1 ++ evs2).
  split; [by rewrite Ht2, Ht1, app_assoc | by apply Forall_app].
Qed.

Lemma mark_segment_step fn n w : seg_step w (mark_segment fn n w).
Proof.
  unfold mark_segment.
  destruct (default None (segs (db w) !! n)) as [s|]; [|apply seg_step_refl].
  destruct (segm_name s), (segm_cmt s), (strrchr fn "\"%char);
    try apply seg_step_refl.
  split_and!; [done..|]. eexists. split; [done|].
  by repeat constructor.
Qed.

Lemma mark_from_step fn i n w : seg_step w (mark_from fn i n w).
Proof.
  unfold mark_from. revert i w.
  induction n as [|n IH]; intros i w; simpl; [apply seg_step_refl|].
  eapply seg_step_trans; [apply mark_segment_step | apply IH].
Qed.
End segments.

(** ** [load], step by step *)

Section load.
Import C.

Lemma lseg_init h p locs fs q l :
  lseg h p locs fs q → l ∈ locs → ∃ nd, h !! l = Some (Some nd).
Proof.
  revert p fs. induction locs as [|l' locs IH]; intros p [|f fs]; simpl; try done.
  - by intros _ ?%elem_of_nil.
  - intros (_ & _ & nx & Hl & H) [->|Hin]%elem_of_cons; [by eexists|].
    by eapply IH.
Qed.

Lemma registry_frame w w' fs :
  loadedbase w' = loadedbase w → loadedend w' = loadedend w →
  heap w' = heap w → registry w fs → registry w' fs.
Proof. intros Hb He Hh (locs & H). exists locs. by rewrite Hb, He, Hh. Qed.

Lemma registry_alloc w w' fs p v :
  loadedbase w' = loadedbase w → loadedend w' = loadedend w →
  heap w !! p = None → heap w' = <[p := v]> (heap w) →
  registry w fs → registry w' fs.
Proof.
  intros Hb He Hp Hh (locs & Hs & Hnd & Hl). exists locs.
  rewrite Hb, He, Hh. split_and!; [|done..].
  apply lseg_frame; [|done]. intros Hin.
  destruct (lseg_init _ _ _ _ _ _ Hs Hin) as [nd Hnd']. congruence.
Qed.

Lemma link_node {A} (k : M A) p f fs w :
  registry w fs → heap w !! p = Some None → cstring f →
  ∃ w', (write_node p (mk_imports None (f ++ [NUL]));;
         let! last := gets loadedend in
         write_next last (Some (heap_addr p));;
         set_loadedend (heap_addr p);; k) w = k w'
        ∧ registry w' (fs ++ [f]) ∧ db w' = db w ∧ trace w' = trace w.
Proof.
  intros (locs & Hs & Hnd & Hl) Hp Hf.
  assert (p ∉ locs) as Hpl.
  { intros Hin. destruct (lseg_init _ _ _ _ _ _ Hs Hin) as [nd Hnd']. congruence. }
  unfold bind at 1. unfold write_node, bind at 1, gets. rewrite Hp.
  unfold set_heap. unfold bind at 1. unfold gets. simpl. rewrite Hl.
  destruct (decide (locs = [])) as [->|Hne].
  - (* the list is empty: [loadedend] is [&loadedbase] *)
    destruct fs; [|done]. simpl in Hs.
    unfold last_ptr. simpl. unfold bind at 1. unfold write_next, bind, gets.
    simpl. eexists. split; [reflexivity|]. simpl. split_and!; [|done..].
    exists [p]. split; [|split; [apply NoDup_singleton | done]].
    simpl. split_and!; [done..|]. exists None. by rewrite lookup_insert_eq.
  - destruct (exists_last Hne) as (locs' & ll & ->).
    apply lseg_unsnoc in Hs as (fs' & fl & -> & Hfl & Hs & Hll).
    apply NoDup_app in Hnd as (Hnd1 & Hnd2 & _).
    apply not_elem_of_app in Hpl as [Hpl Hpll].
    rewrite list_elem_of_singleton in Hpll.
    unfold last_ptr. rewrite last_snoc.
    unfold bind at 1. unfold write_next, bind at 1, deref. simpl.
    rewrite lookup_insert_ne by done. rewrite Hll. simpl.
    unfold write_node, bind, gets. simpl.
    rewrite lookup_insert_ne by done. rewrite Hll. simpl.
    eexists. split; [reflexivity|]. simpl. split_and!; [|done..].
    exists ((locs' ++ [ll]) ++ [p]). simpl. split; [|split].
    + apply lseg_snoc with (l := p); [|done|].
      * apply lseg_snoc with (l := ll); [|done|].
        -- apply lseg_frame; [|by apply lseg_frame].
           intros Hin. apply (Hnd2 ll Hin), list_elem_of_here.
        -- by rewrite lookup_insert_eq.
      * rewrite lookup_insert_ne by done. by rewrite lookup_insert_eq.
    + apply NoDup_app. split_and!; [| |apply NoDup_singleton].
      * apply NoDup_app. split_and!; [done|exact Hnd2|apply NoDup_singleton].
      * intros x Hx ->%list_elem_of_singleton.
        apply elem_of_app in Hx as [Hx|Hx%list_elem_of_singleton]; done.
    + unfold last_ptr. by rewrite last_snoc.
Qed.

Lemma load_loaded e fn w l :
  isloaded fn w = Some (l, w) → l ≠ 0 → load e fn w = Some (-2, w).
Proof.
  intros Hl Hne. unfold load, bind at 1. rewrite Hl.
  by rewrite decide_True.
Qed.

Lemma load_fail_open e fn w :
  isloaded fn w = Some (0, w) → open_linput_r e fn = None →
  load e fn w = Some (-1, w).
Proof.
  intros Hl Ho. unfold load, bind at 1. rewrite Hl. simpl.
  unfold bind at 1. unfold open_linput. by rewrite Ho.
Qed.

Lemma load_fail_loader e fn w li :
  isloaded fn w = Some (0, w) → open_linput_r e fn = Some li →
  build_loaders_list_r e li = None →
  load e fn w
  = Some (-1, add_events [Ev_open_linput fn li; Ev_close_linput li] w).
Proof.
  intros Hl Ho Hb. unfold load, bind at 1. rewrite Hl. simpl.
  unfold bind at 1. unfold open_linput. rewrite Ho.
  unfold bind at 1. unfold emit. unfold bind at 1. simpl.
  unfold bind at 1. unfold build_loaders_list. rewrite Hb. simpl.
  unfold bind, close_linput, emit, ret, add_events. simpl.
  by rewrite <- app_assoc.
Qed.

Lemma load_fail_malloc e fn w li ll :
  isloaded fn w = Some (0, w) → open_linput_r e fn = Some li →
  build_loaders_list_r e li = Some ll →
  malloc_r e (heap w) (sizeof_imports + (length fn + 1)) = false →
  load e fn w
  = Some (-1, add_events [Ev_open_linput fn li;
                          Ev_build_loaders_list li ll;
                          Ev_free_loaders_list ll; Ev_close_linput li] w).
Proof.
  intros Hl Ho Hb Hm. unfold load, bind at 1. rewrite Hl. simpl.
  unfold bind at 1. unfold open_linput. rewrite Ho.
  unfold bind at 1. unfold emit. unfold bind at 1. simpl.
  unfold bind at 1. unfold build_loaders_list. rewrite Hb.
  unfold bind at 1. unfold emit. unfold bind at 1. simpl.
  unfold bind at 1. unfold malloc, bind at 1, gets. simpl. rewrite Hm.
  unfold bind, free_loaders_list, close_linput, emit, ret, add_events. simpl.
  by rewrite <- !app_assoc.
Qed.

Lemma load_fail_host e fn w li ll :
  isloaded fn w = Some (0, w) → open_linput_r e fn = Some li →
  build_loaders_list_r e li = Some ll →
  malloc_r e (heap w) (sizeof_imports + (length fn + 1)) = true →
  (load_nonbinary_file_r e fn (db w)).1 = false →
  load e fn w
  = Some (-1, mk_world (loadedbase w) (loadedend w) (heap w)
                (load_nonbinary_file_r e fn (db w)).2
                (trace w ++
                 [Ev_open_linput fn li; Ev_build_loaders_list li ll;
                  Ev_malloc (sizeof_imports + (length fn + 1))
                            (fresh (dom (heap w)));
                  Ev_load_nonbinary_file fn false;
                  Ev_free (fresh (dom (heap w)));
                  Ev_free_loaders_list ll; Ev_close_linput li])).
Proof.
  intros Hl Ho Hb Hm Hh. unfold load, bind at 1. rewrite Hl. simpl.
  unfold bind at 1. unfold open_linput. rewrite Ho.
  unfold bind at 1. unfold emit. unfold bind at 1. simpl.
  unfold bind at 1. unfold build_loaders_list. rewrite Hb.
  unfold bind at 1. unfold emit. unfold bind at 1. simpl.
  unfold bind at 1. unfold malloc, bind at 1, gets. simpl. rewrite Hm.
  unfold bind at 1. unfold set_heap. unfold bind at 1. unfold emit.
  unfold bind at 1. simpl.
  unfold bind at 1. unfold load_nonbinary_file, bind, gets, set_db, emit.
  simpl. rewrite Hh. simpl. unfold free, bind, gets. simpl.
  rewrite lookup_insert_eq. simpl.
  unfold set_heap, emit, free_loaders_list, close_linput, emit, ret. simpl.
  rewrite delete_insert_id.
  2:{ apply not_elem_of_dom. apply is_fresh. }
  by rewrite <- !app_assoc.
Qed.

(** The rest of [load] once the file is in the database. *)
Lemma load_host_ok e fn w li ll :
  isloaded fn w = Some (0, w) → open_linput_r e fn = Some li →
  build_loaders_list_r e li = Some ll →
  malloc_r e (heap w) (sizeof_imports + (length fn + 1)) = true →
  (load_nonbinary_file_r e fn (db w)).1 = true →
  load e fn w
  = (for_loop (length (segs (load_nonbinary_file_r e fn (db w)).2)) 0%nat
       (λ n _, load_segment e fn n) tt;;
     free_loaders_list ll;; close_linput li;;
     write_node (fresh (dom (heap w)))
       (mk_imports None (take (length fn + 1) (fn ++ [NUL])));;
     let! last := gets loadedend in
     write_next last (Some (heap_addr (fresh (dom (heap w)))));;
     set_loadedend (heap_addr (fresh (dom (heap w))));;
     ret 0)
      (mk_world (loadedbase w) (loadedend w)
         (<[fresh (dom (heap w)) := None]> (heap w))
         (load_nonbinary_file_r e fn (db w)).2
         (trace w ++
          [Ev_open_linput fn li; Ev_build_loaders_list li ll;
           Ev_malloc (sizeof_imports + (length fn + 1))
                     (fresh (dom (heap w)));
           Ev_load_nonbinary_file fn true])).
Proof.
  intros Hl Ho Hb Hm Hh. unfold load at 1, bind at 1. rewrite Hl. simpl.
  unfold bind at 1. unfold open_linput. rewrite Ho.
  unfold bind at 1. unfold emit. unfold bind at 1. simpl.
  unfold bind at 1. unfold build_loaders_list. rewrite Hb.
  unfold bind at 1. unfold emit. unfold bind at 1. simpl.
  unfold bind at 1. unfold malloc, bind at 1, gets. simpl. rewrite Hm.
  unfold bind at 1. unfold set_heap. unfold bind at 1. unfold emit.
  unfold bind at 1. simpl.
  unfold bind at 1. unfold load_nonbinary_file, bind at 1, gets.
  unfold bind at 1. unfold set_db. unfold bind at 1. unfold emit. simpl.
  rewrite Hh. simpl. unfold bind at 1. unfold get_segm_qty, gets. simpl.
  by rewrite <- !app_assoc.
Qed.
End load.

(** ** A [load] that goes well *)

Section load_success.
Import C.

Lemma load_success e fn w li ll fs :
  registry w fs → cstring fn → fn ∉ fs → load_can_succeed e fn li ll w →
  ∃ w', registry w' (fs ++ [fn]) ∧
        db w' = db (segments_marked e fn li ll w) ∧
        trace w' = trace (segments_marked e fn li ll w)
                   ++ [Ev_free_loaders_list ll; Ev_close_linput li] ∧
        (∀ r w'', load e fn w = Some (r, w'') → r = 0 ∧ w'' = w') ∧
        ("\"%char ∉ fn ∨ (length (dep_text fn) < QMAXPATH e)%nat →
         load e fn w = Some (0, w')).
Proof.
  intros Hreg Hfn Hnin (Ho & Hb & Hm & Hh).
  assert (isloaded fn w = Some (0, w)) as Hl.
  { rewrite (isloaded_spec fn fs) by done. by rewrite bool_decide_eq_false_2. }
  rewrite (load_host_ok e fn w li ll) by done.
  fold (host_loaded e fn li ll w).
  set (w1 := host_loaded e fn li ll w).
  set (w2 := segments_marked e fn li ll w).
  assert (seg_step w1 w2) as (Hs1 & Hs2 & Hs3 & _) by apply mark_from_step.
  set (p := fresh (dom (heap w))).
  assert (heap w !! p = None) as Hp
    by (apply not_elem_of_dom, is_fresh).
  assert (registry (add_events [Ev_free_loaders_list ll; Ev_close_linput li] w2) fs)
    as Hreg2.
  { apply (registry_frame w1); [done..|].
    by apply (registry_alloc w w1 fs p None). }
  destruct (link_node (ret 0) p fn fs _ Hreg2) as (w' & Hrun & Hreg' & Hdb & Htr);
    [|done|].
  { simpl. rewrite Hs3. apply lookup_insert_eq. }
  exists w'. split_and!; [done..| |].
  - intros r w''. unfold bind at 1.
    destruct (for_loop _ _ _ _ w1) as [[u w2']|] eqn:E; [|done].
    apply load_segs_inv in E. fold (segments_marked e fn li ll w) in E.
    fold w2 in E. subst w2'.
    unfold bind at 1. unfold free_loaders_list, emit.
    unfold bind at 1. unfold close_linput, emit. simpl.
    rewrite take_ge by (rewrite length_app; simpl; lia).
    rewrite <- app_assoc. simpl. intros Hres.
    assert (Some (r, w'') = Some (0, w')) as [= -> ->]; [|done].
    rewrite <- Hres. exact Hrun.
  - intros Hfit. unfold bind at 1. rewrite load_segs_ok by done.
    fold (segments_marked e fn li ll w). fold w2.
    unfold bind at 1. unfold free_loaders_list, emit.
    unfold bind at 1. unfold close_linput, emit. simpl.
    rewrite take_ge by (rewrite length_app; simpl; lia).
    rewrite <- app_assoc. simpl. exact Hrun.
Qed.
End load_success.

(** ** [listloaded] *)

Section listing.
Import C.

Lemma add_events_add_events evs1 evs2 w :
  add_events evs2 (add_events evs1 w) = add_events (evs1 ++ evs2) w.
Proof. unfold add_events. simpl. by rewrite app_assoc. Qed.

Lemma listloaded_loop_spec fuel p locs fs w :
  lseg (heap w) p locs fs None → (length locs ≤ fuel)%nat →
  listloaded_loop fuel p w
  = Some (tt, add_events (listloaded_line <$> fs) w).
Proof.
  revert fuel p fs w. induction locs as [|l locs IH]; intros fuel p [|f fs] w;
    simpl; try done.
  - intros -> _. destruct fuel; unfold ret, add_events; simpl;
      rewrite app_nil_r; by destruct w.
  - intros (-> & Hc & nx & Hl & H) Hfuel.
    destruct fuel as [|fuel]; [lia|]. simpl.
    unfold bind at 1. unfold deref. rewrite Hl.
    unfold bind at 1. unfold lift. simpl. rewrite c_str_app by done.
    unfold bind at 1. unfold msg, emit.
    rewrite (IH fuel nx fs) by (done || simpl; lia).
    f_equal. f_equal. unfold add_events. simpl. by rewrite <- app_assoc.
Qed.

Lemma listloaded_spec fs w :
  registry w fs →
  listloaded w
  = Some (tt, add_events (listloaded_header :: (listloaded_line <$> fs)) w).
Proof.
  intros (locs & Hs & Hnd & _). unfold listloaded.
  unfold bind at 1. unfold msg, emit. unfold bind, gets.
  erewrite listloaded_loop_spec; [| exact Hs |].
  - unfold add_events. simpl. by rewrite <- app_assoc.
  - simpl. etrans; [by eapply lseg_size | lia].
Qed.
End listing.

(** ** The three results of [load] *)

Section load_cases.
Import C.

Ltac inv_elem :=
  repeat match goal with
    | H : _ ∈ [] |- _ => by apply elem_of_nil in H
    | H : _ ∈ _ :: _ |- _ =>
        apply elem_of_cons in H as [H|H]; [try discriminate H|]
    end.

Ltac count_one :=
  unfold count_event; repeat (rewrite filter_cons; case_decide; try done);
  try congruence.

Ltac solve_released :=
  split_and!; intros; inv_elem;
  repeat match goal with H : _ = _ |- _ => injection H as ?; subst end;
  count_one.

Ltac no_seg_events := repeat constructor; by intros [].

Lemma load_fails_spec e fn w :
  isloaded fn w = Some (0, w) → load_fails e fn w →
  ∃ w' evs, load e fn w = Some (-1, w') ∧
            loadedbase w' = loadedbase w ∧ loadedend w' = loadedend w ∧
            heap w' = heap w ∧ trace w' = trace w ++ evs ∧
            released_once evs ∧ Forall (λ ev, ¬ is_seg_event ev) evs.
Proof.
  intros Hl Hf. unfold load_fails in Hf.
  destruct (open_linput_r e fn) as [li|] eqn:Ho.
  2:{ exists w, []. rewrite load_fail_open by done.
      split_and!; [done..|by rewrite app_nil_r|solve_released|no_seg_events]. }
  destruct (build_loaders_list_r e li) as [ll|] eqn:Hb.
  2:{ eexists _, _. rewrite (load_fail_loader e fn w li) by done.
      split_and!; [done..|solve_released|no_seg_events]. }
  destruct (malloc_r e (heap w) (sizeof_imports + (length fn + 1))) eqn:Hm.
  2:{ eexists _, _. rewrite (load_fail_malloc e fn w li ll) by done.
      split_and!; [done..|solve_released|no_seg_events]. }
  destruct Hf as [Hf|Hf]; [done|].
  eexists _, _. rewrite (load_fail_host e fn w li ll) by done.
  split_and!; [done..|solve_released|no_seg_events].
Qed.

Lemma load_cases e fn w fs r w' :
  registry w fs → cstring fn → load e fn w = Some (r, w') →
  (r = -2 ∧ fn ∈ fs ∧ w' = w) ∨
  (r = -1 ∧ (fn ∉ fs) ∧ load_fails e fn w ∧ registry w' fs ∧
   ∃ evs, trace w' = trace w ++ evs ∧ released_once evs ∧
          Forall (λ ev, ¬ is_seg_event ev) evs) ∨
  (r = 0 ∧ (fn ∉ fs) ∧
   ∃ li ll, load_can_succeed e fn li ll w ∧ registry w' (fs ++ [fn]) ∧
     db w' = db (segments_marked e fn li ll w) ∧
     trace w' = trace (segments_marked e fn li ll w)
                ++ [Ev_free_loaders_list ll; Ev_close_linput li]).
Proof.
  intros Hreg Hfn Hload.
  pose proof (isloaded_spec fn fs w Hreg Hfn) as Hl.
  destruct (decide (fn ∈ fs)) as [Hin|Hnin].
  - rewrite bool_decide_eq_true_2 in Hl by done.
    rewrite (load_loaded e fn w 1) in Hload by done.
    injection Hload as <- <-. by left.
  - rewrite bool_decide_eq_false_2 in Hl by done. right.
    destruct (open_linput_r e fn) as [li|] eqn:Ho.
    2:{ left. destruct (load_fails_spec e fn w Hl) as (w1 & evs & Hr & ? & ? & ? & ?);
          [unfold load_fails; by rewrite Ho|].
        rewrite Hr in Hload. injection Hload as <- <-.
        split_and!; [done|done|unfold load_fails; by rewrite Ho| |by exists evs].
        by apply (registry_frame w). }
    destruct (build_loaders_list_r e li) as [ll|] eqn:Hb.
    2:{ left. destruct (load_fails_spec e fn w Hl) as (w1 & evs & Hr & ? & ? & ? & ?);
          [unfold load_fails; by rewrite Ho, Hb|].
        rewrite Hr in Hload. injection Hload as <- <-.
        split_and!; [done|done|unfold load_fails; by rewrite Ho, Hb| |by exists evs].
        by apply (registry_frame w). }
    destruct (decide (malloc_r e (heap w) (sizeof_imports + (length fn + 1)) = true
                      ∧ (load_nonbinary_file_r e fn (db w)).1 = true))
      as [[Hm Hh]|Hno].
    + right.
      destruct (load_success e fn w li ll fs) as (w1 & Hreg1 & Hdb & Htr & Hinv & _);
        [done..|].
      destruct (Hinv _ _ Hload) as [-> ->].
      split_and!; [done..|]. by exists li, ll.
    + left.
      assert (load_fails e fn w) as Hf.
      { unfold load_fails. rewrite Ho, Hb.
        destruct (malloc_r _ _ _); [|by left].
        destruct (load_nonbinary_file_r e fn (db w)).1; [|by right].
        by destruct Hno. }
      destruct (load_fails_spec e fn w Hl Hf) as (w1 & evs & Hr & ? & ? & ? & ?).
      rewrite Hr in Hload. injection Hload as <- <-.
      split_and!; [done..| |by exists evs]. by apply (registry_frame w).
Qed.
End load_cases.

(** ** Properties of the sweep *)

Section sweep_claims.
Import C.

Lemma elem_of_concat {A} (x : A) (ls : list (list A)) :
  x ∈ concat ls ↔ ∃ l, l ∈ ls ∧ x ∈ l.
Proof.
  rewrite list_elem_of_In, in_concat. split.
  - intros (l & H1 & H2). exists l. by rewrite !list_elem_of_In.
  - intros (l & H1 & H2). exists l. by rewrite <- !list_elem_of_In.
Qed.

Lemma digit_not_underscore c : is_digit c → c ≠ "_"%char.
Proof.
  unfold is_digit. intros H ->. vm_compute in H.
  repeat (apply elem_of_cons in H as [H|H]; [discriminate H|]).
  by apply elem_of_nil in H.
Qed.

Lemma digits_no_underscore s : Forall is_digit s → "_"%char ∉ s.
Proof.
  intros H Hin. rewrite Forall_forall in H.
  by apply (digit_not_underscore _ (H _ Hin)).
Qed.

(** The loop of [mapinexports] as it is written: the name in the buffer is
    cut exactly when it has an underscore and no character other than a
    decimal digit follows the last one; the buffer then reads as the text
    before that underscore.  The loop has no test that a digit follows. *)
Theorem truncate_name_numeric_suffix nm :
  cstring nm →
  ∃ im, truncate_name (nm ++ [NUL]) = Some im ∧
    (trunc im ≠ 0 ↔
     ∃ base suf, nm = base ++ "_"%char :: suf ∧ ("_"%char ∉ suf) ∧
                 Forall is_digit suf) ∧
    (∀ base suf, nm = base ++ "_"%char :: suf → "_"%char ∉ suf →
                 Forall is_digit suf →
                 trunc im = 1 ∧ name im = base ++ NUL :: suf ++ [NUL] ∧
                 c_str (name im) = Some base) ∧
    (trunc im = 0 → name im = nm ++ [NUL]).
Proof.
  intros Hc. rewrite truncate_name_refines by done.
  destruct (numeric_suffix nm) as [[base suf]|] eqn:E.
  - apply numeric_suffix_Some in E as (-> & Hn & Hd).
    apply cstring_app in Hc as [Hb [_ Hs]%cstring_cons].
    eexists. split; [done|]. simpl. split_and!.
    + split; [|done]. intros _. by exists base, suf.
    + intros base' suf' Heq Hn' Hd'.
      assert (numeric_suffix (base ++ "_"%char :: suf) = Some (base', suf'))
        as E' by (by apply numeric_suffix_Some).
      assert (numeric_suffix (base ++ "_"%char :: suf) = Some (base, suf))
        as E'' by (by apply numeric_suffix_Some).
      rewrite E' in E''. injection E'' as -> ->.
      split_and!; [done..|]. by apply c_str_app.
    + done.
  - eexists. split; [done|]. simpl. split_and!.
    + split; [done|]. intros (base & suf & Heq & Hn & Hd).
      by destruct (proj1 (numeric_suffix_None nm) E base suf).
    + intros base suf Heq Hn Hd.
      by destruct (proj1 (numeric_suffix_None nm) E base suf).
    + done.
Qed.

(** C3.  For a name that was cut, [importmap] sets the comment of an
    import exactly when the import has a name and the text before the cut
    is a prefix of it; any other import leaves the world as it is. *)
Theorem importmap_matches_prefix e nm im ea inm ord w :
  cstring nm → (length nm + 10 < MAXSTR e)%nat →
  truncate_name (nm ++ [NUL]) = Some im → trunc im ≠ 0 →
  ∃ base w', c_str (name im) = Some base ∧
    (∃ suf, nm = base ++ "_"%char :: suf ∧ Forall is_digit suf) ∧
    importmap e ea inm ord im w = Some ((1, im), w') ∧
    ((∃ s, inm = Some s ∧ base `prefix_of` s) →
     ∃ c, trace w' = trace w ++ [Ev_set_cmt ea c] ∧
          cmts (db w') = <[ea := c]> (cmts (db w))) ∧
    (¬ (∃ s, inm = Some s ∧ base `prefix_of` s) → w' = w).
Proof.
  intros Hc Hlen Ht Htr. rewrite truncate_name_refines in Ht by done.
  destruct (numeric_suffix nm) as [[base suf]|] eqn:E;
    [|injection Ht as <-; by destruct Htr].
  injection Ht as <-.
  apply numeric_suffix_Some in E as (-> & Hn & Hd).
  apply cstring_app in Hc as [Hb [_ Hs]%cstring_cons].
  eexists base, _. simpl. split_and!.
  - by apply c_str_app.
  - by exists suf.
  - by apply importmap_spec.
  - intros (s & -> & Hp). unfold annotate_import. simpl.
    rewrite decide_True by done. by eexists.
  - intros Hno. unfold annotate_import. simpl.
    destruct inm as [s|]; [|done]. case_decide; [|done].
    destruct Hno. by exists s.
Qed.

Lemma func_events_set_cmt d nf i ea c :
  Ev_set_cmt ea c ∈ func_events d nf i ↔
  ∃ f n base suf mdl imp inm,
    funcs d !! i = Some (Some f) ∧ names d !! startEA f = Some n ∧
    nm_public n = true ∧ nm_text n = base ++ "_"%char :: suf ∧
    Forall is_digit suf ∧ mdl ∈ import_modules d ∧ imp ∈ mdl ∧
    imp_ea imp = ea ∧ imp_name imp = Some inm ∧ base `prefix_of` inm ∧
    c = str "import -> " ++ nm_text n.
Proof.
  unfold func_events. split.
  - intros [H|H]%elem_of_app.
    { case_decide; [|by apply elem_of_nil in H].
      apply list_elem_of_singleton in H. discriminate H. }
    destruct (funcs d !! i) as [[f|]|] eqn:Ef; [|by apply elem_of_nil in H..].
    destruct (names d !! startEA f) as [n|] eqn:Enm;
      [|by apply elem_of_nil in H].
    destruct (nm_public n) eqn:Ep; [|by apply elem_of_nil in H].
    destruct (numeric_suffix (nm_text n)) as [[base suf]|] eqn:E;
      [|by apply elem_of_nil in H].
    apply numeric_suffix_Some in E as (Hn & Hus & Hd).
    apply list_elem_of_omap in H as (imp & Hin & Himp).
    apply elem_of_concat in Hin as (mdl & Hmdl & Hin).
    destruct (imp_name imp) as [inm|] eqn:En; [|done].
    case_decide; [|done]. injection Himp as <- <-.
    by exists f, n, base, suf, mdl, imp, inm.
  - intros (f & n & base & suf & mdl & imp & inm & Hf & Hn & Hp & Hnm & Hd
            & Hmdl & Himp & <- & Hinm & Hpre & ->).
    assert (numeric_suffix (nm_text n) = Some (base, suf)) as Hsuf.
    { apply numeric_suffix_Some.
      split_and!; [done | by apply digits_no_underscore | done]. }
    apply elem_of_app. right. rewrite Hf, Hn, Hp, Hsuf.
    apply list_elem_of_omap. exists imp. split.
    + apply elem_of_concat. by exists mdl.
    + rewrite Hinm. by rewrite decide_True.
Qed.

Lemma sweep_events_set_cmt d ea c :
  Ev_set_cmt ea c
  ∈ concat (func_events d (length (funcs d)) <$> seq 0 (length (funcs d)))
  ↔ annotated_by d ea c.
Proof.
  rewrite elem_of_concat. split.
  - intros (l & (i & -> & _)%list_elem_of_fmap & Hin).
    apply func_events_set_cmt in Hin. by exists i.
  - intros (i & H). exists (func_events d (length (funcs d)) i). split.
    + apply list_elem_of_fmap_2, elem_of_seq.
      destruct H as (f & _ & _ & _ & _ & _ & _ & Hf%lookup_lt_Some & _). lia.
    + by apply func_events_set_cmt.
Qed.

(** C2 (as the code has it).  The sweep sets a comment exactly where a
    named import has, as a prefix of its name, the text that a public
    function's name has before its last underscore, only digits following
    it; the comment is the text "import -> " followed by the whole name of
    that function, underscore and digits included.  Every comment in the
    database after the sweep was there before or was set by the sweep. *)
Theorem import_annotation_text e w :
  names_ok e (db w) →
  ∃ w' evs, mapinexports e w = Some (tt, w') ∧
    trace w' = trace w ++ evs ∧
    (∀ ea c, Ev_set_cmt ea c ∈ evs ↔ annotated_by (db w) ea c) ∧
    (∀ ea c, cmts (db w') !! ea = Some c →
             cmts (db w) !! ea = Some c ∨ annotated_by (db w) ea c).
Proof.
  intros Hok. rewrite mapinexports_spec by done.
  destruct (sweep_trace w) as (Ht & Hlog & _).
  eexists _, _. split_and!; [done | exact Ht | |].
  - intros ea c. apply sweep_events_set_cmt.
  - intros ea c Hc. destruct (Hlog _ _ Hc) as [H|H]; [by left|right].
    by apply sweep_events_set_cmt.
Qed.

(** C9.  A public function named by an underscore and decimal digits is
    cut to the empty text; when the sweep comes to it, every import that
    has a name gets the comment of this function, and the sweep's log has
    that call for every such import. *)
Theorem empty_base_annotates_every_named_import e w i f n digits :
  names_ok e (db w) → funcs (db w) !! i = Some (Some f) →
  names (db w) !! startEA f = Some n → nm_public n = true →
  nm_text n = "_"%char :: digits → Forall is_digit digits →
  (∃ im, truncate_name (nm_text n ++ [NUL]) = Some im ∧ trunc im ≠ 0 ∧
         c_str (name im) = Some []) ∧
  (∃ w1, mapinexports_func e (length (funcs (db w))) i w = Some (tt, w1) ∧
         ∀ mdl imp inm,
           mdl ∈ import_modules (db w) → imp ∈ mdl →
           imp_name imp = Some inm →
           cmts (db w1) !! imp_ea imp
           = Some (str "import -> " ++ nm_text n)) ∧
  (∃ w' evs, mapinexports e w = Some (tt, w') ∧
             trace w' = trace w ++ evs ∧
             ∀ mdl imp inm,
               mdl ∈ import_modules (db w) → imp ∈ mdl →
               imp_name imp = Some inm →
               Ev_set_cmt (imp_ea imp) (str "import -> " ++ nm_text n)
               ∈ evs).
Proof.
  intros Hok Hf Hn Hpub Hname Hd.
  assert (numeric_suffix (nm_text n) = Some ([], digits)) as Hsuf.
  { apply numeric_suffix_Some. rewrite Hname.
    split_and!; [done| by apply digits_no_underscore | done]. }
  destruct (Hok _ _ Hn) as [Hc _].
  split_and!.
  - rewrite truncate_name_refines, Hsuf by done. eexists.
    split_and!; [done..|]. simpl. by destruct (decide (NUL = NUL)).
  - rewrite mapinexports_func_spec by done. eexists. split; [done|].
    intros mdl imp inm Hmdl Himp Hinm. unfold sweep_func.
    rewrite Hf, Hn, Hpub, Hsuf.
    apply (annotate_all_cmts _ _ _ _ _ inm); [|done|apply prefix_nil].
    apply elem_of_concat. by exists mdl.
  - rewrite mapinexports_spec by done.
    destruct (sweep_trace w) as (Ht & _ & _).
    eexists _, _. split_and!; [done|exact Ht|].
    intros mdl imp inm Hmdl Himp Hinm.
    apply elem_of_concat. exists (func_events (db w) (length (funcs (db w))) i).
    split.
    + apply list_elem_of_fmap_2, elem_of_seq.
      apply lookup_lt_Some in Hf. lia.
    + unfold func_events. apply elem_of_app. right.
      rewrite Hf, Hn, Hpub, Hsuf.
      apply list_elem_of_omap. exists imp. split.
      * apply elem_of_concat. by exists mdl.
      * rewrite Hinm. rewrite decide_True; [done | apply prefix_nil].
Qed.
End sweep_claims.

(** ** Properties of [load] and of the list *)

Section load_claims.
Import C.

(** C4.  A failing step of [load] after the check of the list gives -1,
    leaves [loadedbase], [loadedend] and the heap (so the list of loaded
    files) as they were, and every handle or block the call acquired is
    released by exactly one call. *)
Theorem load_failure_atomic e fn w :
  isloaded fn w = Some (0, w) → load_fails e fn w →
  ∃ w' evs, load e fn w = Some (-1, w') ∧
            loadedbase w' = loadedbase w ∧ loadedend w' = loadedend w ∧
            heap w' = heap w ∧ (∀ fs, registry w fs → registry w' fs) ∧
            trace w' = trace w ++ evs ∧ released_once evs.
Proof.
  intros Hl Hf.
  destruct (load_fails_spec e fn w Hl Hf)
    as (w' & evs & Hr & Hb & He & Hh & Ht & Hrel & _).
  exists w', evs. split_and!; [done..| |done|done].
  intros fs. by apply registry_frame.
Qed.

(** C5.  When the path is in the list, [load] gives -2 and the world is
    the one it started in: nothing is opened, no segment changes, the
    list is the same.  A second [load] of a path that was just loaded
    is such a call. *)
Theorem load_already_loaded e fn w fs :
  registry w fs → cstring fn →
  (fn ∈ fs → load e fn w = Some (-2, w)) ∧
  (∀ w1, load e fn w = Some (0, w1) →
         registry w1 (fs ++ [fn]) ∧
         ∀ e', load e' fn w1 = Some (-2, w1)).
Proof.
  intros Hreg Hfn.
  assert (∀ e w fs, registry w fs → fn ∈ fs → load e fn w = Some (-2, w))
    as Hdup.
  { clear e w fs Hreg. intros e w fs Hreg Hin.
    apply (load_loaded e fn w 1); [|done].
    rewrite (isloaded_spec fn fs) by done. by rewrite bool_decide_eq_true_2. }
  split; [by apply Hdup|]. intros w1 Hload.
  destruct (load_cases e fn w fs 0 w1 Hreg Hfn Hload)
    as [(? & _)|[(? & _)|(_ & _ & li & ll & _ & Hreg1 & _)]]; [done..|].
  split; [done|]. intros e'. apply (Hdup e' w1 (fs ++ [fn])); [done|].
  apply elem_of_app. right. apply list_elem_of_here.
Qed.

(** C6.  After [load] has put [p] in the list, [isloaded p] is 1; and
    [isloaded q] is 1 exactly when [q] is, character for character, one of
    the stored names. *)
Theorem isloaded_exact e p w fs :
  registry w fs → cstring p →
  (∀ w', load e p w = Some (0, w') → isloaded p w' = Some (1, w')) ∧
  (∀ q, cstring q →
        isloaded q w = Some (if bool_decide (q ∈ fs) then 1 else 0, w)).
Proof.
  intros Hreg Hp. split.
  - intros w' Hload.
    destruct (load_cases e p w fs 0 w' Hreg Hp Hload)
      as [(? & _)|[(? & _)|(_ & _ & li & ll & _ & Hreg1 & _)]]; [done..|].
    rewrite (isloaded_spec p (fs ++ [p])) by done.
    rewrite bool_decide_eq_true_2; [done|].
    apply elem_of_app. right. apply list_elem_of_here.
  - intros q Hq. by apply isloaded_spec.
Qed.

Lemma load_registry e fn w fs r w' :
  registry w fs → cstring fn → load e fn w = Some (r, w') →
  registry w' (if decide (r = 0) then fs ++ [fn] else fs) ∧
  (r = 0 → fn ∉ fs).
Proof.
  intros Hreg Hfn Hload.
  destruct (load_cases e fn w fs r w' Hreg Hfn Hload)
    as [(-> & _ & ->)|[(-> & _ & _ & Hreg1 & _)
                      |(-> & Hnin & li & ll & _ & Hreg1 & _)]]; by simpl.
Qed.

(** C7.  The list starts empty; [load] leaves it as it is or adds its
    path at the end, and keeps it free of duplicates; [listloaded] prints
    the names in the order of the list; so after loading [p1], [p2],
    [p3] it prints these three, in this order. *)
Theorem registry_insertion_order :
  (∀ d, registry (initial_world d) []) ∧
  (∀ e fn w fs r w',
     registry w fs → cstring fn → load e fn w = Some (r, w') →
     registry w' (if decide (r = 0) then fs ++ [fn] else fs) ∧
     (NoDup fs → NoDup (if decide (r = 0) then fs ++ [fn] else fs))) ∧
  (∀ w fs, registry w fs →
           listloaded w
           = Some (tt, add_events
                         (listloaded_header :: (listloaded_line <$> fs)) w)) ∧
  (∀ e1 e2 e3 p1 p2 p3 w0 w1 w2 w3,
     registry w0 [] → cstring p1 → cstring p2 → cstring p3 →
     load e1 p1 w0 = Some (0, w1) → load e2 p2 w1 = Some (0, w2) →
     load e3 p3 w2 = Some (0, w3) →
     registry w3 [p1; p2; p3] ∧ NoDup [p1; p2; p3] ∧
     listloaded w3
     = Some (tt, add_events [listloaded_header; listloaded_line p1;
                             listloaded_line p2; listloaded_line p3] w3)).
Proof.
  assert (∀ e fn w fs r w',
     registry w fs → cstring fn → load e fn w = Some (r, w') →
     registry w' (if decide (r = 0) then fs ++ [fn] else fs) ∧
     (NoDup fs → NoDup (if decide (r = 0) then fs ++ [fn] else fs))) as Hstep.
  { intros e fn w fs r w' Hreg Hfn Hload.
    destruct (load_registry e fn w fs r w' Hreg Hfn Hload) as [Hreg' Hnin].
    split; [done|]. intros Hnd. case_decide; [|done].
    apply NoDup_app. split_and!; [done| |apply NoDup_singleton].
    intros x Hx ->%list_elem_of_singleton. by apply Hnin. }
  split_and!; [apply registry_initial | exact Hstep | intros w fs; apply listloaded_spec |].
  intros e1 e2 e3 p1 p2 p3 w0 w1 w2 w3 H0 Hp1 Hp2 Hp3 L1 L2 L3.
  destruct (Hstep _ _ _ _ _ _ H0 Hp1 L1) as [H1 N1]. simpl in H1, N1.
  destruct (Hstep _ _ _ _ _ _ H1 Hp2 L2) as [H2 N2]. simpl in H2, N2.
  destruct (Hstep _ _ _ _ _ _ H2 Hp3 L3) as [H3 N3]. simpl in H3, N3.
  split_and!; [done| |by rewrite (listloaded_spec [p1; p2; p3])].
  apply N3, N2, N1, NoDup_nil_2.
Qed.

Lemma restore_parse_dep fn :
  restore_parse ([LF] ++ str "dep: " ++ fn ++ [LF])
  = Some ((length fn + 1)%nat, fn ++ [NUL; NUL]).
Proof.
  unfold restore_parse.
  assert (length ([LF] ++ str "dep: " ++ fn ++ [LF])
          = (6 + length fn + 1)%nat) as Hlen.
  { simpl. rewrite length_app. simpl. lia. }
  rewrite Hlen. rewrite decide_False by lia.
  rewrite decide_True by (by unfold memcmp; simpl).
  replace (6 + length fn + 1 - 6)%nat with (length fn + 1)%nat by lia.
  do 2 f_equal.
  replace (6 + (length fn + 1) - 1)%nat with (6 + length fn)%nat by lia.
  simpl. rewrite <- app_assoc. simpl. 
  by rewrite insert_middle.
Qed.


(** C10.  [load] names and comments segments only for a path with a
    backslash.  For a path without one, a [load] whose steps all go well
    still gives 0 and puts the path in the list, and the database is the
    one [load_nonbinary_file] left: no segment has a new name or
    comment. *)
Theorem no_backslash_no_provenance e fn w fs :
  registry w fs → cstring fn →
  (∀ r w', load e fn w = Some (r, w') →
     ∃ evs, trace w' = trace w ++ evs ∧
            ((∃ ev, ev ∈ evs ∧ is_seg_event ev) → "\"%char ∈ fn)) ∧
  ("\"%char ∉ fn →
   ∀ li ll, fn ∉ fs → load_can_succeed e fn li ll w →
     ∃ w', load e fn w = Some (0, w') ∧ registry w' (fs ++ [fn]) ∧
           db w' = (load_nonbinary_file_r e fn (db w)).2 ∧
           trace w' = trace w ++
             [Ev_open_linput fn li; Ev_build_loaders_list li ll;
              Ev_malloc (sizeof_imports + (length fn + 1))
                        (fresh (dom (heap w)));
              Ev_load_nonbinary_file fn true;
              Ev_free_loaders_list ll; Ev_close_linput li]).
Proof.
  intros Hreg Hfn. split.
  - intros r w' Hload.
    destruct (load_cases e fn w fs r w' Hreg Hfn Hload)
      as [(_ & _ & ->)|[(_ & _ & _ & _ & evs & Ht & _ & Hns)
                       |(_ & _ & li & ll & _ & _ & _ & Ht)]].
    + exists []. split; [by rewrite app_nil_r|].
      intros (ev & Hin & _). by apply elem_of_nil in Hin.
    + exists evs. split; [done|]. intros (ev & Hin & Hseg).
      rewrite Forall_forall in Hns. by destruct (Hns ev Hin).
    + destruct (decide ("\"%char ∈ fn)) as [Hb|Hb].
      * destruct (mark_from_step fn 0
                    (length (segs (load_nonbinary_file_r e fn (db w)).2))
                    (host_loaded e fn li ll w))
          as (_ & _ & _ & _ & _ & _ & _ & evs & Hts & _).
        fold (segments_marked e fn li ll w) in Hts.
        eexists. split; [|done]. rewrite Ht, Hts. simpl.
        rewrite <- !app_assoc. reflexivity.
      * unfold segments_marked in Ht.
        rewrite mark_from_no_backslash in Ht by done. simpl in Ht.
        eexists. split; [rewrite Ht, <- app_assoc; reflexivity|].
        intros (ev & Hin & Hseg). simpl in Hin.
        repeat (apply elem_of_cons in Hin as [->|Hin]; [done|]).
        by apply elem_of_nil in Hin.
  - intros Hb li ll Hnin Hok.
    destruct (load_success e fn w li ll fs Hreg Hfn Hnin Hok)
      as (w' & Hreg' & Hdb & Ht & _ & Hrun).
    exists w'. unfold segments_marked in Hdb, Ht.
    rewrite mark_from_no_backslash in Hdb, Ht by done.
    split_and!; [apply Hrun; by left|done|done|].
    rewrite Ht. simpl. by rewrite <- app_assoc.
Qed.
End load_claims.

(** ** The first loop of [run] *)

Section restore.
Import C.

Lemma not_original fn :
  fn ≠ str "original" → length fn = 8%nat →
  memcmp (fn ++ [NUL; NUL]) (str "original" ++ [NUL]) 9 = Some 1.
Proof.
  intros Hne Hlen. unfold memcmp.
  rewrite decide_True by (rewrite length_app; simpl; lia).
  rewrite decide_False; [done|].
  rewrite (cons_middle NUL fn [NUL]), app_assoc.
  rewrite take_app_length' by (rewrite length_app; simpl; lia).
  intros H. apply Hne. vm_compute in H.
  change (fn ++ [NUL] = str "original" ++ [NUL]) in H.
  by apply app_inv_tail in H.
Qed.

(** X6.  The first loop of [run] on a segment that carries the comment
    [load] wrote for the path [fn]: while the path is not in the list and
    does not read "original", and there is memory for the node, the path
    goes to the end of the list and is counted, and the database stays as
    it is. *)
Lemma run_segment_restores e i old w fs fn s :
  registry w fs → cstring fn → fn ∉ fs → fn ≠ str "original" →
  segs (db w) !! i = Some (Some s) →
  segm_cmt s = Some ([LF] ++ str "dep: " ++ fn ++ [LF]) →
  malloc_r e (heap w) (sizeof_imports + (length fn + 1)) = true →
  ∃ w', run_segment e i old w = Some (old + 1, w') ∧
        registry w' (fs ++ [fn]) ∧ db w' = db w.
Proof.
  intros Hreg Hfn Hnin Hno Hs Hc Hm.
  assert (isloaded fn w = Some (0, w)) as Hl.
  { rewrite (isloaded_spec fn fs) by done. by rewrite bool_decide_eq_false_2. }
  set (p := fresh (dom (heap w))).
  assert (heap w !! p = None) as Hp by (apply not_elem_of_dom, is_fresh).
  set (wm := mk_world (loadedbase w) (loadedend w) (<[p := None]> (heap w))
               (db w) (trace w ++ [Ev_malloc (sizeof_imports + (length fn + 1)) p])).
  assert (registry wm fs) as Hregm
    by (by apply (registry_alloc w wm fs p None)).
  destruct (link_node (ret (old + 1)) p fn fs wm Hregm) as (w' & Hrun & Hreg' & Hdb & _);
    [apply lookup_insert_eq | done |].
  exists w'. split_and!; [|done..].
  unfold run_segment, bind at 1, getnseg, gets. rewrite Hs.
  change (default None (Some (Some s))) with (Some s). cbv beta iota.
  unfold get_segment_cmt. rewrite Hc, restore_parse_dep.
  unfold bind at 1.
  assert ((if decide ((length fn + 1)%nat = 9%nat)
           then let! r := lift (memcmp (fn ++ [NUL; NUL])
                                  (str "original" ++ [NUL]) 9) in
                ret (bool_decide (r = 0))
           else ret false) w = Some (false, w)) as ->.
  { case_decide; [|done]. unfold bind, lift.
    by rewrite not_original by (done || lia). }
  unfold bind at 1. unfold bind at 1. unfold lift.
  rewrite (c_str_app fn [NUL]) by done.
  unfold bind at 1. rewrite Hl. simpl.
  unfold bind at 1. unfold malloc, bind at 1, gets. rewrite Hm.
  unfold bind at 1. unfold set_heap. unfold bind at 1. unfold emit. simpl.
  rewrite (cons_middle NUL fn [NUL]), app_assoc.
  rewrite take_app_length' by (rewrite length_app; simpl; lia).
  exact Hrun.
Qed.
End restore.

Section restore_all.
Import C.

Lemma restore_parse_inv c fnlen m :
  cstring c → c ≠ [LF] ++ str "dep: " → restore_parse c = Some (fnlen, m) →
  ∃ b x, c = ([LF] ++ str "dep: ") ++ b ++ [x] ∧ cstring b ∧
         fnlen = (length b + 1)%nat ∧ m = b ++ [NUL; NUL].
Proof.
  intros Hc Hne. unfold restore_parse.
  case_decide as Hlen; [done|]. case_decide as Hm; [|done].
  intros [= <- <-]. unfold memcmp in Hm.
  case_decide; [|done]. case_decide as Ht; [|done].
  rewrite take_app_le in Ht by lia.
  assert (c = ([LF] ++ str "dep: ") ++ drop 6 c) as Hsplit.
  { rewrite <- (take_drop 6 c) at 1. by rewrite Ht. }
  destruct (decide (drop 6 c = [])) as [Hnil|Hnn].
  { rewrite Hnil, app_nil_r in Hsplit. done. }
  destruct (exists_last Hnn) as (b & x & Hb).
  rewrite Hb in Hsplit. exists b, x.
  assert (length c = (6 + length b + 1)%nat) as Hl.
  { rewrite Hsplit, !length_app. simpl. lia. }
  split_and!; [done| | lia |].
  - rewrite Hsplit in Hc. apply cstring_app in Hc as [_ Hc].
    by apply cstring_app in Hc as [Hc _].
  - rewrite Hl.
    rewrite Hsplit at 1.
    replace (((([LF] ++ str "dep: ") ++ b ++ [x]) ++ [NUL]))
      with ((([LF] ++ str "dep: ") ++ b) ++ x :: [NUL])
      by (by rewrite <- !app_assoc).
    match goal with
    | |- context [<[?k := _]> _] =>
        replace k with (length (([LF] ++ str "dep: ") ++ b))
          by (rewrite length_app; simpl; lia)
    end.
    rewrite insert_middle. rewrite <- app_assoc. by simpl.
Qed.

Lemma run_segment_registry e i old w fs old' w' :
  registry w fs → comments_ok (db w) →
  run_segment e i old w = Some (old', w') →
  comments_ok (db w') ∧ length (segs (db w')) = length (segs (db w)) ∧
  ((registry w' fs ∧ old' = old) ∨
   (∃ f, (f ∉ fs) ∧ registry w' (fs ++ [f]) ∧ old' = old + 1)).
Proof.
  intros Hreg Hok. unfold run_segment, bind at 1, getnseg, gets.
  destruct (segs (db w) !! i) as [[s|]|] eqn:Hs;
    [|simpl; intros [= <- <-]; by auto..].
  change (default None (Some (Some s))) with (Some s). cbv beta iota.
  unfold get_segment_cmt. destruct (segm_cmt s) as [c|] eqn:Hc.
  2:{ (* an original segment gets its comment *)
      unfold bind at 1. unfold set_segment_cmt, bind at 1, getnseg, gets.
      rewrite Hs. simpl. unfold upd_segs, bind, gets, set_db, emit, ret. simpl.
      intros [= <- <-]. simpl. split_and!.
      - intros j s' c' Hj Hc'. simpl in Hj.
        destruct (decide (j = i)) as [->|Hji].
        + rewrite list_lookup_insert_eq in Hj by (by eapply lookup_lt_Some).
          injection Hj as <-. simpl in Hc'. injection Hc' as <-.
          split; [by_compute | discriminate].
        + rewrite list_lookup_insert_ne in Hj by done. by eapply Hok.
      - by rewrite length_insert.
      - left. split; [|done]. by apply (registry_frame w). }
  destruct (Hok i s c Hs Hc) as [Hcs Hne].
  destruct (restore_parse c) as [[fnlen m]|] eqn:Hp;
    [|intros [= <- <-]; by auto].
  apply restore_parse_inv in Hp as (b & x & Hsplit & Hb & -> & ->); [|done..].
  unfold bind at 1.
  destruct ((if decide ((length b + 1)%nat = 9%nat)
             then let! r := lift (memcmp (b ++ [NUL; NUL])
                                    (str "original" ++ [NUL]) 9) in
                  ret (bool_decide (r = 0))
             else ret false) w) as [[orig w0]|] eqn:Ho; [|done].
  assert (w0 = w) as ->.
  { case_decide; [|by injection Ho as _ <-].
    unfold bind, lift in Ho. destruct (memcmp _ _ _); [|done].
    by injection Ho as _ <-. }
  unfold bind at 1.
  destruct orig; [intros [= <- <-]; by auto|].
  unfold bind at 1. unfold bind at 1. unfold lift.
  rewrite (c_str_app b [NUL]) by done.
  unfold bind at 1. rewrite (isloaded_spec b fs) by done. simpl.
  destruct (decide (b ∈ fs)) as [Hin|Hnin].
  { rewrite (bool_decide_eq_true_2 (b ∈ fs)) by done. simpl.
    intros [= <- <-]. by auto. }
  rewrite (bool_decide_eq_false_2 (b ∈ fs)) by done. simpl.
  unfold bind at 1. unfold malloc, bind at 1, gets.
  destruct (malloc_r e (heap w) (sizeof_imports + (length b + 1))).
  2:{ unfold bind, warning, emit, ret. simpl. intros [= <- <-]. simpl.
      split_and!; [done..|]. left. split; [|done]. by apply (registry_frame w). }
  set (p := fresh (dom (heap w))).
  assert (heap w !! p = None) as Hpn by (apply not_elem_of_dom, is_fresh).
  set (wm := mk_world (loadedbase w) (loadedend w) (<[p := None]> (heap w))
               (db w) (trace w ++ [Ev_malloc (sizeof_imports + (length b + 1)) p])).
  assert (registry wm fs) as Hregm
    by (by apply (registry_alloc w wm fs p None)).
  destruct (link_node (ret (old + 1)) p b fs wm Hregm)
    as (w1 & Hrun & Hreg1 & Hdb & _); [apply lookup_insert_eq | done |].
  unfold bind at 1. unfold set_heap. unfold bind at 1. unfold emit. simpl.
  rewrite (cons_middle NUL b [NUL]), app_assoc.
  rewrite take_app_length' by (rewrite length_app; simpl; lia).
  intros Hres.
  assert (Some (old', w') = Some (old + 1, w1)) as [= -> ->]
    by (rewrite <- Hres; exact Hrun).
  rewrite Hdb. simpl. split_and!; [done..|]. right. by exists b.
Qed.

(** The first loop of [run] keeps the list and adds at its end the paths it
    takes from the comments, each one new to the list. *)
Lemma run_restore_registry e w fs n w' :
  registry w fs → comments_ok (db w) → run_restore e w = Some (n, w') →
  ∃ added, registry w' (fs ++ added) ∧ n = Z.of_nat (length added) ∧
           (NoDup fs → NoDup (fs ++ added)).
Proof.
  unfold run_restore, bind at 1, get_segm_qty, gets.
  generalize (length (segs (db w))) as k. generalize 0%nat as i.
  assert (∀ k i old w fs n w',
            registry w fs → comments_ok (db w) →
            for_loop k i (run_segment e) old w = Some (n, w') →
            ∃ added, registry w' (fs ++ added) ∧
                     n = old + Z.of_nat (length added) ∧
                     (NoDup fs → NoDup (fs ++ added))) as Hgen.
  { clear. induction k as [|k IH]; intros i old w fs n w' Hreg Hok; simpl.
    - intros [= <- <-]. exists []. rewrite app_nil_r. simpl.
      split_and!; [done | lia | done].
    - unfold bind at 1.
      destruct (run_segment e i old w) as [[old1 w1]|] eqn:E; [|done].
      destruct (run_segment_registry e i old w fs old1 w1 Hreg Hok E)
        as (Hok1 & _ & [[Hreg1 ->]|(f & Hnin & Hreg1 & ->)]).
      + apply IH; done.
      + intros Hloop.
        destruct (IH _ _ _ _ _ _ Hreg1 Hok1 Hloop) as (added & Hr & -> & Hnd).
        exists (f :: added). rewrite <- app_assoc in Hr, Hnd. simpl in Hr, Hnd.
        split_and!; [done | simpl; lia |].
        intros Hfs. apply Hnd. apply NoDup_app.
        split_and!; [done | | apply NoDup_singleton].
        intros y Hy ->%list_elem_of_singleton. done. }
  intros i k Hreg Hok Hloop.
  destruct (Hgen k i 0 w fs n w' Hreg Hok Hloop) as (added & ? & -> & ?).
  exists added. split_and!; [done | lia | done].
Qed.
End restore_all.

(** ** The sweep on the sample data *)

Section examples.
Import C.

Lemma ex_db_names_ok : names_ok ex_env ex_db.
Proof. by_compute. Defined.

Lemma ex_db_digits_names_ok : names_ok ex_env ex_db_digits.
Proof. by_compute. Defined.

Lemma ex_path_cstring : cstring ex_path.
Proof. by_compute. Defined.

(** The examples of the name detection, on the code. *)
Lemma truncate_name_examples :
  truncate_name (str "Foo_123" ++ [NUL])
  = Some (mk_imname (str "Foo" ++ NUL :: str "123" ++ [NUL]) 1) ∧
  truncate_name (str "Foo_12a" ++ [NUL])
  = Some (mk_imname (str "Foo_12a" ++ [NUL]) 0) ∧
  truncate_name (str "Foo" ++ [NUL])
  = Some (mk_imname (str "Foo" ++ [NUL]) 0) ∧
  truncate_name (str "Foo_" ++ [NUL])
  = Some (mk_imname (str "Foo" ++ [NUL; NUL]) 1).
Proof. by vm_compute. Qed.

Lemma truncate_name_numeric_suffix_witness :
  ∃ im, truncate_name (str "Foo_123" ++ [NUL]) = Some im ∧
    (trunc im ≠ 0 ↔
     ∃ base suf, str "Foo_123" = base ++ "_"%char :: suf ∧
                 ("_"%char ∉ suf) ∧ Forall is_digit suf) ∧
    (∀ base suf, str "Foo_123" = base ++ "_"%char :: suf →
                 "_"%char ∉ suf → Forall is_digit suf →
                 trunc im = 1 ∧ name im = base ++ NUL :: suf ++ [NUL] ∧
                 c_str (name im) = Some base) ∧
    (trunc im = 0 → name im = str "Foo_123" ++ [NUL]).
Proof. apply truncate_name_numeric_suffix. by_compute. Defined.

(** C1.  The code misses the claim at the name "Foo_".  The comments of
    the source ask for a suffix of numbers ("*_xxxx where the x's are all
    numbers", "numbers only"), but for an empty suffix the [while] loop
    does not run and [ptr2] stays non-null: the name is cut to "Foo",
    though no digit follows its underscore. *)
Lemma truncate_name_empty_suffix :
  truncate_name (str "Foo_" ++ [NUL])
  = Some (mk_imname (str "Foo" ++ [NUL; NUL]) 1) ∧
  c_str (str "Foo" ++ [NUL; NUL]) = Some (str "Foo") ∧
  ¬ claimed_candidate (str "Foo_").
Proof.
  split_and!; [by vm_compute..|].
  intros (base & suf & Heq & Hn & Hne & _).
  assert (strrchr (str "Foo_") "_"%char = Some (length base)) as H
    by (rewrite Heq; by apply strrchr_app).
  assert (strrchr (str "Foo_") "_"%char = Some 3%nat) as H3
    by (by vm_compute).
  rewrite H3 in H. injection H as H.
  assert (drop (S (length base)) (str "Foo_") = suf) as Hd
    by (rewrite Heq; apply drop_middle).
  rewrite <- H in Hd. by subst suf.
Qed.

(** The sweep at that name: the imports whose names start with "Foo" get
    the comment of the function "Foo_". *)
Lemma empty_suffix_sweep_example :
  (snd <$> mapinexports ex_env (initial_world ex_db_empty_suffix)) ≫=
    (λ w, Some (cmts (db w) !! 4096, cmts (db w) !! 4104, cmts (db w) !! 8192))
  = Some (Some (str "import -> Foo_"), Some (str "import -> Foo_"), None).
Proof. by vm_compute. Qed.

Lemma import_annotation_text_witness :
  ∃ w' evs, mapinexports ex_env (initial_world ex_db) = Some (tt, w') ∧
    trace w' = trace (initial_world ex_db) ++ evs ∧
    (∀ ea c, Ev_set_cmt ea c ∈ evs ↔ annotated_by ex_db ea c) ∧
    (∀ ea c, cmts (db w') !! ea = Some c →
             cmts ex_db !! ea = Some c ∨ annotated_by ex_db ea c).
Proof.
  apply (import_annotation_text ex_env (initial_world ex_db)).
  exact ex_db_names_ok.
Defined.

(** C2, as the specification words it, fails on the code: for the
    function "Foo_123" the import "Foo@4" gets the comment
    "import -> Foo_123", not "import -> Foo". *)
Lemma import_annotation_not_base :
  ∃ w', mapinexports ex_env (initial_world ex_db) = Some (tt, w') ∧
        trace w' = [Ev_replace_wait_box 0 4;
                    Ev_set_cmt 4096 (str "import -> Foo_123");
                    Ev_set_cmt 4104 (str "import -> Foo_123")] ∧
        cmts (db w') !! 4096 = Some (str "import -> Foo_123") ∧
        cmts (db w') !! 4096 ≠ Some (str "import -> Foo").
Proof.
  exists (sweep (initial_world ex_db)).
  split; [apply mapinexports_spec, ex_db_names_ok|].
  split_and!; [by vm_compute..|].
  assert (cmts (db (sweep (initial_world ex_db))) !! 4096
          = Some (str "import -> Foo_123")) as -> by (by vm_compute).
  discriminate.
Qed.

Lemma importmap_matches_prefix_witness :
  ∃ base w', c_str (name ex_imname) = Some base ∧
    (∃ suf, str "Foo_123" = base ++ "_"%char :: suf ∧ Forall is_digit suf) ∧
    importmap ex_env 4096 (Some (str "Foo@4")) 0 ex_imname
      (initial_world ex_db) = Some ((1, ex_imname), w') ∧
    ((∃ s, Some (str "Foo@4") = Some s ∧ base `prefix_of` s) →
     ∃ c, trace w' = trace (initial_world ex_db) ++ [Ev_set_cmt 4096 c] ∧
          cmts (db w') = <[4096 := c]> (cmts (db (initial_world ex_db)))) ∧
    (¬ (∃ s, Some (str "Foo@4") = Some s ∧ base `prefix_of` s) →
     w' = initial_world ex_db).
Proof.
  apply (importmap_matches_prefix ex_env (str "Foo_123")).
  - by_compute.
  - by_compute.
  - by vm_compute.
  - by vm_compute.
Defined.

(** The examples of the prefix match, on the code: the import names
    "Foo", "Foo@4" and "FooBar" get the comment, "Fo", "xFoo" and an
    import without a name do not. *)
Lemma prefix_matching_examples :
  let w := initial_world ex_db in
  let hit := Some ((1, ex_imname), annotate 4096 (str "import -> Foo_123") w) in
  let miss := Some ((1, ex_imname), w) in
  importmap ex_env 4096 (Some (str "Foo")) 0 ex_imname w = hit ∧
  importmap ex_env 4096 (Some (str "Foo@4")) 0 ex_imname w = hit ∧
  importmap ex_env 4096 (Some (str "FooBar")) 0 ex_imname w = hit ∧
  importmap ex_env 4096 (Some (str "Fo")) 0 ex_imname w = miss ∧
  importmap ex_env 4096 (Some (str "xFoo")) 0 ex_imname w = miss ∧
  importmap ex_env 4096 (Some (str "foo")) 0 ex_imname w = miss ∧
  importmap ex_env 4096 None 7 ex_imname w = miss.
Proof. by vm_compute. Qed.

Lemma empty_base_witness :
  (∃ im, truncate_name (str "_123" ++ [NUL]) = Some im ∧ trunc im ≠ 0 ∧
         c_str (name im) = Some []) ∧
  (∃ w1, mapinexports_func ex_env 1 0 (initial_world ex_db_digits)
         = Some (tt, w1) ∧
         ∀ mdl imp inm,
           mdl ∈ ex_imports → imp ∈ mdl → imp_name imp = Some inm →
           cmts (db w1) !! imp_ea imp = Some (str "import -> " ++ str "_123")) ∧
  (∃ w' evs, mapinexports ex_env (initial_world ex_db_digits)
             = Some (tt, w') ∧
             trace w' = trace (initial_world ex_db_digits) ++ evs ∧
             ∀ mdl imp inm,
               mdl ∈ ex_imports → imp ∈ mdl → imp_name imp = Some inm →
               Ev_set_cmt (imp_ea imp) (str "import -> " ++ str "_123")
               ∈ evs).
Proof.
  apply (empty_base_annotates_every_named_import ex_env
           (initial_world ex_db_digits) 0 (mk_func 100)
           (mk_name (str "_123") true) (str "123")).
  - exact ex_db_digits_names_ok.
  - reflexivity.
  - by vm_compute.
  - reflexivity.
  - reflexivity.
  - by_compute.
Defined.

(** What the sweep leaves in the sample database for the function
    "_123": the comment on each of the four named imports, none on the
    import that has an ordinal only. *)
Lemma empty_base_example :
  ∃ w', mapinexports ex_env (initial_world ex_db_digits) = Some (tt, w') ∧
        cmts (db w') !! 4096 = Some (str "import -> _123") ∧
        cmts (db w') !! 4104 = Some (str "import -> _123") ∧
        cmts (db w') !! 8192 = Some (str "import -> _123") ∧
        cmts (db w') !! 8196 = Some (str "import -> _123") ∧
        cmts (db w') !! 4100 = None.
Proof.
  exists (sweep (initial_world ex_db_digits)).
  split; [apply mapinexports_spec, ex_db_digits_names_ok|].
  split_and!; by vm_compute.
Qed.
End examples.

(** ** [load] on the sample data *)

Section load_examples.
Import C.

Lemma ex_can_succeed fn w : load_can_succeed ex_env fn 1 2 w.
Proof. by repeat split. Defined.

Lemma load_failure_atomic_witness :
  ∃ w' evs,
    load ex_env_refused ex_path (initial_world ex_db) = Some (-1, w') ∧
    loadedbase w' = loadedbase (initial_world ex_db) ∧
    loadedend w' = loadedend (initial_world ex_db) ∧
    heap w' = heap (initial_world ex_db) ∧
    (∀ fs, registry (initial_world ex_db) fs → registry w' fs) ∧
    trace w' = trace (initial_world ex_db) ++ evs ∧ released_once evs.
Proof.
  apply load_failure_atomic.
  - by vm_compute.
  - right. reflexivity.
Defined.

(** What the refused load of the sample path does, call by call. *)
Lemma load_failure_example :
  ∃ w', load ex_env_refused ex_path (initial_world ex_db) = Some (-1, w') ∧
        trace w' = [Ev_open_linput ex_path 1; Ev_build_loaders_list 1 2;
                    Ev_malloc 20 1; Ev_load_nonbinary_file ex_path false;
                    Ev_free 1; Ev_free_loaders_list 2; Ev_close_linput 1] ∧
        heap w' = ∅ ∧ loadedbase w' = mk_imports None [] ∧
        loadedend w' = loadedbase_addr.
Proof.
  eexists. split.
  - apply (load_fail_host ex_env_refused ex_path (initial_world ex_db) 1 2);
      by vm_compute.
  - split_and!; by vm_compute.
Qed.

Lemma load_already_loaded_witness :
  ∃ w1, load ex_env ex_path (initial_world ex_db) = Some (0, w1) ∧
        registry w1 [ex_path] ∧
        ∀ e', load e' ex_path w1 = Some (-2, w1).
Proof.
  destruct (load_success ex_env ex_path (initial_world ex_db) 1 2 []
              (registry_initial ex_db) ex_path_cstring
              (not_elem_of_nil _) (ex_can_succeed _ _))
    as (w1 & _ & _ & _ & _ & Hrun).
  assert (load ex_env ex_path (initial_world ex_db) = Some (0, w1)) as Hload.
  { apply Hrun. right. vm_compute. lia. }
  exists w1. split; [done|].
  exact (proj2 (load_already_loaded ex_env ex_path (initial_world ex_db) []
                  (registry_initial ex_db) ex_path_cstring) w1 Hload).
Defined.

Lemma isloaded_exact_witness :
  ∃ w1, load ex_env ex_path (initial_world ex_db) = Some (0, w1) ∧
        isloaded ex_path w1 = Some (1, w1) ∧
        isloaded (str "C:\libs\foo") w1 = Some (0, w1) ∧
        isloaded (str "foo.dll") w1 = Some (0, w1) ∧
        isloaded (str "c:\LIBS\FOO.DLL") w1 = Some (0, w1).
Proof.
  destruct (load_success ex_env ex_path (initial_world ex_db) 1 2 []
              (registry_initial ex_db) ex_path_cstring
              (not_elem_of_nil _) (ex_can_succeed _ _))
    as (w1 & Hreg1 & _ & _ & _ & Hrun).
  assert (load ex_env ex_path (initial_world ex_db) = Some (0, w1)) as Hload.
  { apply Hrun. right. vm_compute. lia. }
  exists w1. split; [done|].
  split.
  { exact (proj1 (isloaded_exact ex_env ex_path (initial_world ex_db) []
                    (registry_initial ex_db) ex_path_cstring) w1 Hload). }
  pose proof (proj2 (isloaded_exact ex_env ex_path w1 [ex_path]
                       Hreg1 ex_path_cstring)) as Hq.
  split_and!.
  - rewrite (Hq (str "C:\libs\foo")) by by_compute. by vm_compute.
  - rewrite (Hq (str "foo.dll")) by by_compute. by vm_compute.
  - rewrite (Hq (str "c:\LIBS\FOO.DLL")) by by_compute. by vm_compute.
Defined.

Lemma registry_insertion_order_witness :
  ∃ w1 w2 w3,
    load ex_env (str "C:\a.dll") (initial_world ex_db) = Some (0, w1) ∧
    load ex_env (str "b.dll") w1 = Some (0, w2) ∧
    load ex_env (str "C:\x\c.dll") w2 = Some (0, w3) ∧
    registry w3 [str "C:\a.dll"; str "b.dll"; str "C:\x\c.dll"] ∧
    NoDup [str "C:\a.dll"; str "b.dll"; str "C:\x\c.dll"] ∧
    listloaded w3
    = Some (tt, add_events [listloaded_header;
                            listloaded_line (str "C:\a.dll");
                            listloaded_line (str "b.dll");
                            listloaded_line (str "C:\x\c.dll")] w3).
Proof.
  assert (cstring (str "C:\a.dll")) as Hc1 by by_compute.
  assert (cstring (str "b.dll")) as Hc2 by by_compute.
  assert (cstring (str "C:\x\c.dll")) as Hc3 by by_compute.
  destruct (load_success ex_env (str "C:\a.dll") (initial_world ex_db) 1 2 []
              (registry_initial ex_db) Hc1
              (not_elem_of_nil _) (ex_can_succeed _ _))
    as (w1 & Hreg1 & _ & _ & _ & Hrun1).
  destruct (load_success ex_env (str "b.dll") w1 1 2 [str "C:\a.dll"]
              Hreg1 Hc2 ltac:(by_compute) (ex_can_succeed _ _))
    as (w2 & Hreg2 & _ & _ & _ & Hrun2).
  destruct (load_success ex_env (str "C:\x\c.dll") w2 1 2
              [str "C:\a.dll"; str "b.dll"]
              Hreg2 Hc3 ltac:(by_compute) (ex_can_succeed _ _))
    as (w3 & Hreg3 & _ & _ & _ & Hrun3).
  exists w1, w2, w3.
  assert (load ex_env (str "C:\a.dll") (initial_world ex_db) = Some (0, w1))
    as L1 by (apply Hrun1; right; vm_compute; lia).
  assert (load ex_env (str "b.dll") w1 = Some (0, w2))
    as L2 by (apply Hrun2; right; vm_compute; lia).
  assert (load ex_env (str "C:\x\c.dll") w2 = Some (0, w3))
    as L3 by (apply Hrun3; right; vm_compute; lia).
  split_and!; [done..| | |];
    apply (proj2 (proj2 (proj2 registry_insertion_order))
             ex_env ex_env ex_env _ _ _ (initial_world ex_db) w1 w2 w3
             (registry_initial ex_db) Hc1 Hc2 Hc3 L1 L2 L3).
Defined.



(** The round trip on the sample path, evaluated. *)
Lemma dep_comment_example :
  format_dep ex_env ex_path = Some ([LF] ++ str "dep: C:\libs\foo.dll" ++ [LF]) ∧
  (restore_parse ([LF] ++ str "dep: C:\libs\foo.dll" ++ [LF]) ≫=
     λ r, c_str r.2) = Some ex_path ∧
  (restore_parse ([LF] ++ str "dep: original" ++ [LF]) ≫=
     λ r, c_str r.2) = Some (str "original").
Proof. by vm_compute. Qed.

Lemma no_backslash_witness :
  ∃ w', load ex_env (str "foo.dll") (initial_world ex_db) = Some (0, w') ∧
        registry w' [str "foo.dll"] ∧
        db w' = (load_nonbinary_file_r ex_env (str "foo.dll") ex_db).2 ∧
        trace w' = [Ev_open_linput (str "foo.dll") 1;
                    Ev_build_loaders_list 1 2;
                    Ev_malloc (sizeof_imports + (length (str "foo.dll") + 1))
                              (fresh (dom (heap (initial_world ex_db))));
                    Ev_load_nonbinary_file (str "foo.dll") true;
                    Ev_free_loaders_list 2; Ev_close_linput 1].
Proof.
  apply (proj2 (no_backslash_no_provenance ex_env (str "foo.dll")
                  (initial_world ex_db) [] (registry_initial ex_db)
                  ltac:(by_compute)) ltac:(by_compute) 1%positive 2%positive
           (not_elem_of_nil _) (ex_can_succeed _ _)).
Defined.

(** With a backslash in the path, the new segment gets the file's base
    name and the comment; without one, it keeps what the loader gave
    it. *)
Lemma provenance_example :
  (snd <$> load ex_env ex_path (initial_world ex_db)) ≫=
    (λ w, segs (db w) !! 1%nat)
  = Some (Some (mk_segment (Some (str "foo.dll"))
                  (Some ([LF] ++ str "dep: C:\libs\foo.dll" ++ [LF])))) ∧
  (snd <$> load ex_env (str "foo.dll") (initial_world ex_db)) ≫=
    (λ w, segs (db w) !! 1%nat)
  = Some (Some ex_segment).
Proof. by vm_compute. Qed.
(** A session, evaluated: [load] takes the sample path, and in a new
    session on the database it left the first loop of [run] finds one file
    and [isloaded] knows the path again. *)
Lemma session_restore_example :
  (load ex_env ex_path (initial_world ex_db) ≫= λ r1,
   run_restore ex_env (initial_world (db r1.2)) ≫= λ r2,
   isloaded ex_path r2.2 ≫= λ r3, Some (r1.1, r2.1, r3.1))
  = Some (0, 1, 1).
Proof. by vm_compute. Qed.
End load_examples.

(** ** [clearcmts] *)

Section clearing.
Import C.

Lemma wipe_all_tables l w : same_tables w (wipe_all l w).
Proof.
  revert w. induction l as [|imp l IH]; intros w; [apply same_tables_refl|].
  simpl. eapply same_tables_trans; [|apply IH]. by repeat split.
Qed.

Lemma wipe_all_snoc l imp w :
  wipe_all (l ++ [imp]) w = wipe (imp_ea imp) (wipe_all l w).
Proof. unfold wipe_all. by rewrite foldl_app. Qed.

Lemma wipe_all_app l1 l2 w :
  wipe_all (l1 ++ l2) w = wipe_all l2 (wipe_all l1 w).
Proof. unfold wipe_all. by rewrite foldl_app. Qed.

Lemma wipe_all_trace l w :
  trace (wipe_all l w)
  = trace w ++ ((λ imp, Ev_set_cmt (imp_ea imp) []) <$> l).
Proof.
  induction l as [|imp l IH] using rev_ind; [by rewrite app_nil_r|].
  rewrite wipe_all_snoc, fmap_app. simpl. by rewrite IH, app_assoc.
Qed.

Lemma wipe_all_cmts l w ea :
  cmts (db (wipe_all l w)) !! ea
  = if decide (ea ∈ imp_ea <$> l) then None else cmts (db w) !! ea.
Proof.
  induction l as [|imp l IH] using rev_ind.
  - simpl. destruct (decide (ea ∈ [])) as [H|]; [by apply not_elem_of_nil in H | done].
  - rewrite wipe_all_snoc, fmap_app. simpl.
    destruct (decide (imp_ea imp = ea)) as [->|Hne].
    + rewrite lookup_delete_eq. rewrite decide_True; [done|].
      apply elem_of_app. right. apply list_elem_of_here.
    + rewrite lookup_delete_ne by done. rewrite IH.
      destruct (decide (ea ∈ imp_ea <$> l)) as [Hin|Hnin].
      * rewrite decide_True; [done | apply elem_of_app; by left].
      * rewrite decide_False; [done|].
        intros [H|H%list_elem_of_singleton]%elem_of_app; done.
Qed.

Lemma enum_names_importenum l w :
  enum_names l importenum tt w = Some ((1, tt), wipe_all l w).
Proof.
  revert w. induction l as [|imp l IH]; intros w; [done|].
  simpl. unfold bind at 1. unfold importenum, bind at 1.
  unfold set_cmt, bind, gets, set_db, emit, ret. simpl.
  by rewrite <- IH.
Qed.

Lemma clearcmts_run w :
  clearcmts w = Some (tt, wipe_all (concat (import_modules (db w))) w).
Proof.
  unfold clearcmts, bind at 1, get_import_module_qty, gets.
  set (mods := import_modules (db w)).
  assert (∀ n i w', import_modules (db w') = mods →
            (i + n = length mods)%nat →
            for_loop n i
              (λ i _, let! _ := enum_import_names i importenum tt in ret tt)
              tt w'
            = Some (tt, wipe_all (concat (drop i mods)) w')) as Hgen.
  { induction n as [|n IH]; intros i w' Hm Hn.
    - simpl. by rewrite drop_ge by lia.
    - destruct (lookup_lt_is_Some_2 mods i) as [l Hl]; [lia|].
      simpl. unfold bind at 1. unfold bind at 1.
      unfold enum_import_names, bind at 1, gets. rewrite Hm, Hl.
      rewrite enum_names_importenum. unfold ret at 1.
      rewrite IH; [| |lia].
      + rewrite (drop_S _ _ _ Hl). simpl. by rewrite wipe_all_app.
      + rewrite <- Hm. apply wipe_all_tables. }
  rewrite Hgen by done. by rewrite drop_0.
Qed.

(** X1.  [clearcmts] always returns; it removes the repeatable comment at
    the address of every import entry, with or without a name, by one call
    of [set_cmt] for each entry in the order of the tables, and it changes
    no other comment and nothing else of the database or of the list of
    loaded files. *)
Theorem clearcmts_wipes_imports w :
  ∃ w', clearcmts w = Some (tt, w') ∧ same_tables w w' ∧
        trace w' = trace w ++
          ((λ imp, Ev_set_cmt (imp_ea imp) [])
             <$> concat (import_modules (db w))) ∧
        ∀ ea, cmts (db w') !! ea
              = if decide (ea ∈ import_addresses (db w)) then None
                else cmts (db w) !! ea.
Proof.
  eexists. split; [apply clearcmts_run|]. split_and!.
  - apply wipe_all_tables.
  - apply wipe_all_trace.
  - intros ea. apply wipe_all_cmts.
Qed.
End clearing.

(** ** The sweep overwrites *)

Section overwrite.
Import C.

Lemma replay_cmts_app evs1 evs2 m :
  replay_cmts (evs1 ++ evs2) m = replay_cmts evs2 (replay_cmts evs1 m).
Proof. unfold replay_cmts. by rewrite foldl_app. Qed.

Lemma replay_cmts_last evs m ea :
  replay_cmts evs m !! ea
  = match last (calls_at ea evs) with
    | Some c => if decide (c = []) then None else Some c
    | None => m !! ea
    end.
Proof.
  induction evs as [|ev evs IH] using rev_ind; [done|].
  rewrite replay_cmts_app. unfold calls_at. rewrite omap_app. simpl.
  fold (calls_at ea evs).
  destruct ev as [| | | | | | | | |ea' c| | |]; simpl;
    try (rewrite app_nil_r; exact IH).
  destruct (decide (ea' = ea)) as [->|Hne]; simpl.
  - rewrite last_snoc. destruct (decide (c = [])).
    + apply lookup_delete_eq.
    + apply lookup_insert_eq.
  - rewrite app_nil_r. destruct (decide (c = [])).
    + by rewrite lookup_delete_ne.
    + by rewrite lookup_insert_ne.
Qed.

Lemma annotate_all_replay base full l w :
  cmts (db (annotate_all base full l w))
  = replay_cmts (import_events base full l) (cmts (db w)).
Proof.
  induction l as [|imp l IH] using rev_ind; [done|].
  rewrite annotate_all_snoc, import_events_app, replay_cmts_app, <- IH.
  unfold annotate_import, import_events. simpl.
  destruct (imp_name imp); [|done]. by case_decide.
Qed.

Lemma sweep_func_replay nf i w :
  cmts (db (sweep_func nf i w))
  = replay_cmts (func_events (db w) nf i) (cmts (db w)).
Proof.
  unfold sweep_func, func_events. rewrite replay_cmts_app.
  set (w1 := if decide (i mod 5 = 0)%nat
             then add_event (Ev_replace_wait_box i nf) w else w).
  assert (cmts (db w1) = cmts (db w)) as H1 by (unfold w1; by case_decide).
  assert (replay_cmts
            (if decide (i mod 5 = 0)%nat
             then [Ev_replace_wait_box i nf] else []) (cmts (db w))
          = cmts (db w)) as -> by (by case_decide).
  destruct (funcs (db w) !! i) as [[f|]|]; [|done..].
  destruct (names (db w) !! startEA f) as [n|]; [|done].
  destruct (nm_public n); [|done].
  destruct (numeric_suffix (nm_text n)) as [[base suf]|]; [|done].
  by rewrite annotate_all_replay, H1.
Qed.

Lemma sweep_fold_replay nf l w0 w :
  same_tables w0 w →
  cmts (db (foldl (λ w i, sweep_func nf i w) w l))
  = replay_cmts (concat (func_events (db w0) nf <$> l)) (cmts (db w)).
Proof.
  revert w. induction l as [|i l IH]; intros w Hw; simpl; [done|].
  rewrite replay_cmts_app, IH.
  - by rewrite sweep_func_replay, (func_events_tables nf i w0 w).
  - eapply same_tables_trans; [done | apply sweep_func_tables].
Qed.

Lemma sweep_replay w :
  cmts (db (sweep w)) = replay_cmts (sweep_events (db w)) (cmts (db w)).
Proof. apply sweep_fold_replay, same_tables_refl. Qed.

Lemma import_events_text base full l ea c :
  Ev_set_cmt ea c ∈ import_events base full l → c = str "import -> " ++ full.
Proof.
  unfold import_events. intros (imp & _ & H)%list_elem_of_omap.
  destruct (imp_name imp); [|done]. case_decide; [|done]. by injection H.
Qed.

Lemma sweep_events_text d ea c :
  Ev_set_cmt ea c ∈ sweep_events d → str "import -> " `prefix_of` c.
Proof.
  unfold sweep_events.
  intros (evs & (i & -> & _)%list_elem_of_fmap & Hin)%elem_of_concat.
  unfold func_events in Hin.
  apply elem_of_app in Hin as [Hin|Hin].
  { case_decide; [by apply list_elem_of_singleton in Hin
                 | by apply elem_of_nil in Hin]. }
  destruct (funcs d !! i) as [[f|]|]; [|by apply elem_of_nil in Hin..].
  destruct (names d !! startEA f) as [n|]; [|by apply elem_of_nil in Hin].
  destruct (nm_public n); [|by apply elem_of_nil in Hin].
  destruct (numeric_suffix (nm_text n)) as [[base suf]|];
    [|by apply elem_of_nil in Hin].
  apply import_events_text in Hin as ->. by eexists.
Qed.

Lemma sweep_events_tables w w' :
  same_tables w w' → sweep_events (db w') = sweep_events (db w).
Proof.
  intros Hs. unfold sweep_events.
  destruct Hs as (H1 & H2 & H3 & H4 & Hf & Hn & Hi).
  rewrite Hf. f_equal. apply list_fmap_ext. intros k i _.
  unfold func_events. by rewrite Hf, Hn, Hi.
Qed.

Lemma calls_at_elem ea evs c :
  c ∈ calls_at ea evs ↔ Ev_set_cmt ea c ∈ evs.
Proof.
  unfold calls_at. rewrite list_elem_of_omap. split.
  - intros (ev & Hin & H). destruct ev; try done.
    case_decide; [|done]. injection H as ->. by subst.
  - intros Hin. eexists. split; [done|]. simpl. by rewrite decide_True.
Qed.

(** X2.  While the names fit the buffer, [mapinexports] returns, and it
    changes comments and the log only: the list of loaded files, the
    segments, the functions, the names and the import tables are as they
    were. *)
Theorem mapinexports_keeps_tables e w :
  names_ok e (db w) →
  ∃ w', mapinexports e w = Some (tt, w') ∧ same_tables w w' ∧
        trace w' = trace w ++ sweep_events (db w).
Proof.
  intros Hok. exists (sweep w). split; [by apply mapinexports_spec|].
  destruct (sweep_trace w) as (Ht & _ & Hs). done.
Qed.

(** X3.  The sweep overwrites: after it, the comment at an address is
    the text of the last call of [set_cmt] at this address in the sweep's
    log, where the calls come function after function in the order of
    their numbers; an address that no call names keeps the comment it
    had. *)
Theorem mapinexports_last_call_wins e w ea :
  names_ok e (db w) →
  ∃ w', mapinexports e w = Some (tt, w') ∧
        cmts (db w') !! ea
        = match last (calls_at ea (sweep_events (db w))) with
          | Some c => Some c
          | None => cmts (db w) !! ea
          end.
Proof.
  intros Hok. exists (sweep w). split; [by apply mapinexports_spec|].
  rewrite sweep_replay, replay_cmts_last.
  destruct (last (calls_at ea (sweep_events (db w)))) as [c|] eqn:El; [|done].
  apply last_Some_elem_of, calls_at_elem, sweep_events_text in El.
  destruct El as [k ->]. by rewrite decide_False.
Qed.

Lemma ex_db_two_names_ok : names_ok ex_env ex_db_two.
Proof.
  intros ea n. unfold ex_db_two. simpl.
  intros [[_ <-]|[_ [[_ <-]|[_ H]]%lookup_insert_Some]]%lookup_insert_Some;
    [split; [by_compute | simpl; lia]..|done].
Qed.

Lemma mapinexports_keeps_tables_witness :
  ∃ w', mapinexports ex_env (initial_world ex_db) = Some (tt, w') ∧
        same_tables (initial_world ex_db) w' ∧
        trace w' = trace (initial_world ex_db) ++ sweep_events ex_db.
Proof.
  exact (mapinexports_keeps_tables ex_env (initial_world ex_db)
           ex_db_names_ok).
Defined.

Lemma mapinexports_last_call_wins_witness :
  ∃ w', mapinexports ex_env (initial_world ex_db_two) = Some (tt, w') ∧
        cmts (db w') !! 4096
        = match last (calls_at 4096 (sweep_events ex_db_two)) with
          | Some c => Some c
          | None => None
          end.
Proof.
  exact (mapinexports_last_call_wins ex_env (initial_world ex_db_two) 4096
           ex_db_two_names_ok).
Defined.

(** Both sample functions match the import at 4096; the second one's text
    stays. *)
Lemma last_call_example :
  calls_at 4096 (sweep_events ex_db_two)
  = [str "import -> Foo_1"; str "import -> Foo_2"] ∧
  (snd <$> mapinexports ex_env (initial_world ex_db_two)) ≫=
    (λ w, cmts (db w) !! 4096)
  = Some (str "import -> Foo_2").
Proof. by vm_compute. Qed.
End overwrite.

(** ** The segments after a [load] *)

Section provenance.
Import C.

Lemma mark_segment_segs dir base n w :
  "\"%char ∉ base →
  segs (db (mark_segment (dir ++ "\"%char :: base) n w))
  = alter (provenance (dir ++ "\"%char :: base) base) n (segs (db w)).
Proof.
  intros Hb. unfold mark_segment.
  rewrite strrchr_app by done.
  rewrite drop_middle.
  destruct (segs (db w) !! n) as [[s|]|] eqn:Es; simpl.
  - destruct (segm_name s) eqn:En, (segm_cmt s) eqn:Ec; simpl;
      apply list_eq; intros k; destruct (decide (k = n)) as [->|Hk];
      rewrite ?list_lookup_alter_eq, ?list_lookup_alter_ne by done;
      rewrite ?list_lookup_insert_ne by done;
      rewrite ?Es; simpl; rewrite ?En, ?Ec; try done.
    by rewrite list_lookup_insert_eq by (by eapply lookup_lt_Some).
  - apply list_eq; intros k; destruct (decide (k = n)) as [->|Hk];
      rewrite ?list_lookup_alter_eq, ?list_lookup_alter_ne by done;
      rewrite ?Es; done.
  - apply list_eq; intros k; destruct (decide (k = n)) as [->|Hk];
      rewrite ?list_lookup_alter_eq, ?list_lookup_alter_ne by done;
      rewrite ?Es; done.
Qed.

Lemma mark_from_segs dir base i n w k :
  "\"%char ∉ base →
  segs (db (mark_from (dir ++ "\"%char :: base) i n w)) !! k
  = if decide (i ≤ k < i + n)%nat
    then provenance (dir ++ "\"%char :: base) base <$> segs (db w) !! k
    else segs (db w) !! k.
Proof.
  intros Hb. unfold mark_from. revert i w.
  induction n as [|n IH]; intros i w; simpl.
  { by rewrite decide_False by lia. }
  rewrite IH, mark_segment_segs by done.
  destruct (decide (k = i)) as [->|Hk].
  - rewrite list_lookup_alter_eq.
    rewrite (decide_False (P := (S i ≤ i < S i + n)%nat)) by lia.
    by rewrite decide_True by lia.
  - rewrite list_lookup_alter_ne by done.
    destruct (decide (S i ≤ k < S i + n)%nat).
    + by rewrite decide_True by lia.
    + by rewrite decide_False by lia.
Qed.

(** X4.  A [load] whose steps all go well, for a path that is not in the
    list and has a backslash: it gives 0, the path is at the end of the
    list, and of the segments the database has after
    [load_nonbinary_file], old or new, each one with a name and without a
    comment is renamed to the text after the last backslash and gets the
    comment "\ndep: <path>\n"; the other segments, the functions, the
    names, the imports and the comments at addresses stay. *)
Theorem load_marks_segments e fn dir base w li ll fs :
  registry w fs → cstring fn → fn = dir ++ "\"%char :: base →
  "\"%char ∉ base → fn ∉ fs → load_can_succeed e fn li ll w →
  (length (dep_text fn) < QMAXPATH e)%nat →
  ∃ w', load e fn w = Some (0, w') ∧ registry w' (fs ++ [fn]) ∧
        segs (db w')
        = provenance fn base <$> segs (load_nonbinary_file_r e fn (db w)).2 ∧
        funcs (db w') = funcs (load_nonbinary_file_r e fn (db w)).2 ∧
        names (db w') = names (load_nonbinary_file_r e fn (db w)).2 ∧
        import_modules (db w')
        = import_modules (load_nonbinary_file_r e fn (db w)).2 ∧
        cmts (db w') = cmts (load_nonbinary_file_r e fn (db w)).2.
Proof.
  intros Hreg Hfn Heq Hb Hnin Hok Hfit.
  set (d := (load_nonbinary_file_r e fn (db w)).2).
  destruct (load_success e fn w li ll fs Hreg Hfn Hnin Hok)
    as (w' & Hreg' & Hdb & _ & _ & Hrun).
  exists w'. split; [apply Hrun; by right|]. split; [done|].
  rewrite Hdb. unfold segments_marked. fold d.
  destruct (mark_from_step fn 0 (length (segs d)) (host_loaded e fn li ll w))
    as (_ & _ & _ & Hf & Hn & Hi & Hc & _).
  split; [|done].
  apply list_eq. intros k. rewrite Heq at 1. rewrite mark_from_segs by done.
  rewrite <- Heq. simpl. fold d. rewrite list_lookup_fmap.
  case_decide as Hk; [done|].
  rewrite lookup_ge_None_2 by lia. done.
Qed.

Lemma load_marks_segments_witness :
  ∃ w', load ex_env ex_path (initial_world ex_db) = Some (0, w') ∧
        registry w' ([] ++ [ex_path]) ∧
        segs (db w')
        = provenance ex_path (str "foo.dll")
            <$> segs (load_nonbinary_file_r ex_env ex_path ex_db).2 ∧
        funcs (db w') = funcs ex_db ∧ names (db w') = names ex_db ∧
        import_modules (db w') = import_modules ex_db ∧
        cmts (db w') = cmts ex_db.
Proof.
  exact (load_marks_segments ex_env ex_path (str "C:\libs") (str "foo.dll")
           (initial_world ex_db) 1%positive 2%positive []
           (registry_initial ex_db) ltac:(by_compute) eq_refl
           ltac:(by_compute) (not_elem_of_nil _) (ex_can_succeed _ _)
           ltac:(vm_compute; lia)).
Defined.
End provenance.

(** ** The first loop of [run] returns *)

Section restore_total.
Import C.

Lemma run_segment_returns e i old w fs :
  registry w fs → comments_ok (db w) → is_Some (run_segment e i old w).
Proof.
  intros Hreg Hok. unfold run_segment, bind at 1, getnseg, gets.
  destruct (segs (db w) !! i) as [[s|]|] eqn:Hs; [|by eexists..].
  change (default None (Some (Some s))) with (Some s). cbv beta iota.
  unfold get_segment_cmt. destruct (segm_cmt s) as [c|] eqn:Hc.
  2:{ unfold bind at 1. unfold set_segment_cmt, bind at 1, getnseg, gets.
      rewrite Hs. simpl. by eexists. }
  destruct (Hok i s c Hs Hc) as [Hcs Hne].
  destruct (restore_parse c) as [[fnlen m]|] eqn:Hp; [|by eexists].
  apply restore_parse_inv in Hp as (b & x & Hsplit & Hb & -> & ->); [|done..].
  unfold bind at 1.
  assert (∃ orig,
            (if decide ((length b + 1)%nat = 9%nat)
             then let! r := lift (memcmp (b ++ [NUL; NUL])
                                    (str "original" ++ [NUL]) 9) in
                  ret (bool_decide (r = 0))
             else ret false) w = Some (orig, w)) as [orig ->].
  { case_decide; [|by eexists]. unfold bind, lift, memcmp.
    rewrite decide_True by (rewrite length_app; simpl; lia). by eexists. }
  unfold bind at 1. destruct orig; [by eexists|].
  unfold bind at 1. unfold bind at 1. unfold lift.
  rewrite (c_str_app b [NUL]) by done.
  unfold bind at 1. rewrite (isloaded_spec b fs) by done. simpl.
  destruct (decide (b ∈ fs)) as [Hin|Hnin].
  { rewrite (bool_decide_eq_true_2 (b ∈ fs)) by done. by eexists. }
  rewrite (bool_decide_eq_false_2 (b ∈ fs)) by done. simpl.
  unfold bind at 1. unfold malloc, bind at 1, gets.
  destruct (malloc_r e (heap w) (sizeof_imports + (length b + 1)));
    [|by eexists].
  set (p := fresh (dom (heap w))).
  assert (heap w !! p = None) as Hpn by (apply not_elem_of_dom, is_fresh).
  set (wm := mk_world (loadedbase w) (loadedend w) (<[p := None]> (heap w))
               (db w) (trace w ++ [Ev_malloc (sizeof_imports + (length b + 1)) p])).
  assert (registry wm fs) as Hregm
    by (by apply (registry_alloc w wm fs p None)).
  destruct (link_node (ret (old + 1)) p b fs wm Hregm)
    as (w1 & Hrun & _); [apply lookup_insert_eq | done |].
  unfold bind at 1. unfold set_heap. unfold bind at 1. unfold emit. simpl.
  rewrite (cons_middle NUL b [NUL]), app_assoc.
  rewrite take_app_length' by (rewrite length_app; simpl; lia).
  exists (old + 1, w1). exact Hrun.
Qed.

Lemma restore_loop_returns e k i old w fs :
  registry w fs → comments_ok (db w) →
  is_Some (for_loop k i (run_segment e) old w).
Proof.
  revert i old w fs. induction k as [|k IH]; intros i old w fs Hreg Hok;
    simpl; [by eexists|].
  unfold bind at 1.
  destruct (run_segment_returns e i old w fs Hreg Hok) as [[old1 w1] E].
  rewrite E.
  destruct (run_segment_registry e i old w fs old1 w1 Hreg Hok E)
    as (Hok1 & _ & [[Hreg1 _]|(f & _ & Hreg1 & _)]); by eapply IH.
Qed.

(** X5.  The first loop of [run], on a list in order and segment comments
    that are strings other than the bare prefix, returns; it keeps the
    list, adds at its end the paths it reads in the comments, each one new
    to the list (so a list without duplicates stays one), and counts the
    paths it added. *)
Theorem run_restore_extends e w fs :
  registry w fs → comments_ok (db w) →
  ∃ n w' added, run_restore e w = Some (n, w') ∧
    registry w' (fs ++ added) ∧ n = Z.of_nat (length added) ∧
    (NoDup fs → NoDup (fs ++ added)).
Proof.
  intros Hreg Hok.
  assert (is_Some (run_restore e w)) as [[n w'] E].
  { unfold run_restore, bind at 1, get_segm_qty, gets.
    by eapply restore_loop_returns. }
  destruct (run_restore_registry e w fs n w' Hreg Hok E) as (added & H).
  by exists n, w', added.
Qed.

(** X7.  A segment without a comment is an original one: the first loop
    of [run] gives it the comment "\ndep: original\n", keeps its name,
    the count and the list, and on a second pass finds the comment and
    changes nothing. *)
Theorem run_segment_original e i old w s :
  segs (db w) !! i = Some (Some s) → segm_cmt s = None →
  ∃ w', run_segment e i old w = Some (old, w') ∧
        segs (db w')
        = <[i := Some (mk_segment (segm_name s) (Some original_cmt))]>
            (segs (db w)) ∧
        loadedbase w' = loadedbase w ∧ loadedend w' = loadedend w ∧
        heap w' = heap w ∧
        trace w' = trace w ++ [Ev_set_segment_cmt i original_cmt] ∧
        run_segment e i old w' = Some (old, w').
Proof.
  intros Hs Hc. eexists. split.
  { unfold run_segment, bind at 1, getnseg, gets. rewrite Hs.
    change (default None (Some (Some s))) with (Some s). cbv beta iota.
    unfold get_segment_cmt. rewrite Hc.
    unfold bind at 1. unfold set_segment_cmt, bind at 1, getnseg, gets.
    rewrite Hs. simpl. unfold upd_segs, bind, gets, set_db, emit, ret. simpl.
    reflexivity. }
  simpl. split_and!; [done..|].
  unfold run_segment, bind at 1, getnseg, gets. simpl.
  rewrite list_lookup_insert_eq by (by eapply lookup_lt_Some).
  reflexivity.
Qed.
End restore_total.

(** ** Comments the first loop of [run] does not expect *)

Section restore_edges.
Import C.

(** X8.  A segment whose comment does not start with the six bytes
    "\ndep: " is not the plugin's: the first loop of [run] leaves it, the
    list, the count and the log as they are. *)
Theorem run_segment_foreign_comment e i old w s c :
  segs (db w) !! i = Some (Some s) → segm_cmt s = Some c → cstring c →
  ¬ dep_prefix `prefix_of` c →
  run_segment e i old w = Some (old, w).
Proof.
  intros Hs Hc _ Hp.
  unfold run_segment, bind at 1, getnseg, gets. rewrite Hs.
  change (default None (Some (Some s))) with (Some s). cbv beta iota.
  unfold get_segment_cmt. rewrite Hc.
  assert (restore_parse c = None) as ->; [|done].
  unfold restore_parse. case_decide as Hl; [done|].
  rewrite decide_False; [done|]. unfold memcmp.
  rewrite decide_True by (rewrite length_app; simpl; lia).
  case_decide as Ht; [|done]. exfalso. apply Hp.
  rewrite take_app_le in Ht by lia.
  exists (drop 6 c). rewrite <- (take_drop 6 c) at 1. by rewrite Ht.
Qed.

Lemma isloaded_loop_seg fuel fn p locs fs q w :
  lseg (heap w) p locs fs q → cstring fn → fn ∉ fs →
  isloaded_loop (length locs + fuel) fn p w = isloaded_loop fuel fn q w.
Proof.
  revert p fs. induction locs as [|l locs IH]; intros p [|f fs]; simpl;
    try done.
  - by intros ->.
  - intros (-> & Hc & nx & Hl & H) Hfn [Hne Hnin]%not_elem_of_cons.
    unfold bind at 1. unfold deref. rewrite Hl.
    unfold bind at 1. unfold lift. simpl. rewrite c_str_app by done.
    rewrite decide_False by (by rewrite strcmp_eq).
    by apply (IH nx fs).
Qed.

Lemma listloaded_loop_seg fuel p locs fs q w :
  lseg (heap w) p locs fs q →
  listloaded_loop (length locs + fuel) p w
  = listloaded_loop fuel q (add_events (listloaded_line <$> fs) w).
Proof.
  revert p fs w. induction locs as [|l locs IH]; intros p [|f fs] w; simpl;
    try done.
  - intros ->. unfold add_events. rewrite app_nil_r. by destruct w.
  - intros (-> & Hc & nx & Hl & H).
    unfold bind at 1. unfold deref. rewrite Hl.
    unfold bind at 1. unfold lift. simpl. rewrite c_str_app by done.
    unfold bind at 1. unfold msg, emit.
    rewrite (IH nx fs) by done.
    f_equal. unfold add_events. simpl. by rewrite <- app_assoc.
Qed.

(** A node that is linked behind the list, whatever its [filename]. *)
Lemma link_raw {A} (k : M A) p m fs w :
  registry w fs → heap w !! p = Some None →
  ∃ w' locs,
    (write_node p (mk_imports None m);;
     let! last := gets loadedend in
     write_next last (Some (heap_addr p));;
     set_loadedend (heap_addr p);; k) w = k w' ∧
    lseg (heap w') (next (loadedbase w')) locs fs (Some (heap_addr p)) ∧
    NoDup locs ∧ heap w' !! p = Some (Some (mk_imports None m)) ∧
    db w' = db w ∧ trace w' = trace w.
Proof.
  intros (locs & Hs & Hnd & Hl) Hp.
  assert (p ∉ locs) as Hpl.
  { intros Hin. destruct (lseg_init _ _ _ _ _ _ Hs Hin) as [nd Hnd']. congruence. }
  unfold bind at 1. unfold write_node, bind at 1, gets. rewrite Hp.
  unfold set_heap. unfold bind at 1. unfold gets. simpl. rewrite Hl.
  destruct (decide (locs = [])) as [->|Hne].
  - destruct fs; [|done]. simpl in Hs.
    unfold last_ptr. simpl. unfold bind at 1. unfold write_next, bind, gets.
    simpl. eexists. exists []. split; [reflexivity|]. simpl.
    split_and!; [done | apply NoDup_nil_2 | apply lookup_insert_eq | done..].
  - destruct (exists_last Hne) as (locs' & ll & ->).
    apply lseg_unsnoc in Hs as (fs' & fl & -> & Hfl & Hs & Hll).
    pose proof Hnd as Hnd0.
    apply NoDup_app in Hnd as (Hnd1 & Hnd2 & _).
    apply not_elem_of_app in Hpl as [Hpl Hpll].
    rewrite list_elem_of_singleton in Hpll.
    unfold last_ptr. rewrite last_snoc.
    unfold bind at 1. unfold write_next, bind at 1, deref. simpl.
    rewrite lookup_insert_ne by done. rewrite Hll. simpl.
    unfold write_node, bind, gets. simpl.
    rewrite lookup_insert_ne by done. rewrite Hll. simpl.
    eexists. exists (locs' ++ [ll]). split; [reflexivity|]. simpl.
    split_and!; [|done| |done..].
    + apply lseg_snoc with (l := ll); [|done|].
      * apply lseg_frame; [|by apply lseg_frame].
        intros Hin. apply (Hnd2 ll Hin), list_elem_of_here.
      * by rewrite lookup_insert_eq.
    + rewrite lookup_insert_ne by done. by rewrite lookup_insert_eq.
Qed.

(** X9.  A segment comment that is the bare six bytes "\ndep: " passes
    the test of the prefix with a name of length 0: while the list has no
    empty name, the first loop of [run] allocates a node of
    [sizeof(struct _imports)] bytes, copies no byte into its [filename],
    links it and counts it.  Every later walk that reaches this node
    reads past the block: [listloaded], and [isloaded] for any name that
    is not in the list before it, have no result. *)
Theorem run_segment_bare_prefix e i old w fs s :
  registry w fs → [] ∉ fs →
  segs (db w) !! i = Some (Some s) → segm_cmt s = Some dep_prefix →
  malloc_r e (heap w) (sizeof_imports + 0) = true →
  ∃ w', run_segment e i old w = Some (old + 1, w') ∧
        listloaded w' = None ∧
        ∀ fn, cstring fn → fn ∉ fs → isloaded fn w' = None.
Proof.
  intros Hreg Hnil Hs Hc Hm.
  assert (isloaded [] w = Some (0, w)) as Hl.
  { rewrite (isloaded_spec [] fs) by (done || apply cstring_nil).
    by rewrite bool_decide_eq_false_2. }
  set (p := fresh (dom (heap w))).
  assert (heap w !! p = None) as Hp by (apply not_elem_of_dom, is_fresh).
  set (wm := mk_world (loadedbase w) (loadedend w) (<[p := None]> (heap w))
               (db w) (trace w ++ [Ev_malloc (sizeof_imports + 0) p])).
  assert (registry wm fs) as Hregm
    by (by apply (registry_alloc w wm fs p None)).
  destruct (link_raw (ret (old + 1)) p [] fs wm Hregm)
    as (w' & locs & Hrun & Hseg & Hnd & Hnode & _); [apply lookup_insert_eq|].
  exists w'. split_and!.
  - unfold run_segment, bind at 1, getnseg, gets. rewrite Hs.
    change (default None (Some (Some s))) with (Some s). cbv beta iota.
    unfold get_segment_cmt. rewrite Hc.
    change (restore_parse dep_prefix) with (Some (0%nat, [NUL])).
    cbv beta iota. unfold bind at 1.
    rewrite decide_False by lia. unfold ret at 1.
    unfold bind at 1. unfold bind at 1. unfold lift.
    change (c_str [NUL]) with (Some ([] : text)).
    unfold bind at 1. rewrite Hl. simpl.
    unfold bind at 1. unfold malloc, bind at 1, gets. rewrite Hm.
    unfold bind at 1. unfold set_heap. unfold bind at 1. unfold emit. simpl.
    exact Hrun.
  - unfold listloaded. unfold bind at 1. unfold msg, emit.
    unfold bind, gets. cbv beta iota.
    match goal with |- listloaded_loop _ _ ?w0 = _ => set (w0' := w0) end.
    change (heap w0') with (heap w'). change (loadedbase w0') with (loadedbase w').
    assert (length locs ≤ size (heap w'))%nat as Hsz by (by eapply lseg_size).
    replace (S (size (heap w')))
      with (length locs + S (size (heap w') - length locs))%nat by lia.
    rewrite (listloaded_loop_seg _ _ locs fs (Some (heap_addr p)) w0') by done.
    simpl. unfold bind at 1. unfold deref. simpl. by rewrite Hnode.
  - intros fn Hfn Hnin. unfold isloaded, bind, gets.
    assert (length locs ≤ size (heap w'))%nat as Hsz by (by eapply lseg_size).
    replace (S (size (heap w')))
      with (length locs + S (size (heap w') - length locs))%nat by lia.
    rewrite (isloaded_loop_seg _ fn _ locs fs (Some (heap_addr p)) w') by done.
    simpl. unfold bind at 1. unfold deref. by rewrite Hnode.
Qed.
End restore_edges.

Section restore_examples.
Import C.

Lemma ex_db_loaded_segs :
  segs ex_db_loaded
  = [Some (mk_segment (Some (str "seg0")) (Some original_cmt));
     Some (mk_segment (Some (str "foo.dll")) (Some (dep_text ex_path)))].
Proof. by vm_compute. Qed.

Lemma ex_db_loaded_comments_ok : comments_ok ex_db_loaded.
Proof.
  intros i s c. rewrite ex_db_loaded_segs.
  destruct i as [|[|i]]; simpl; [| |done];
    intros [= <-] [= <-]; (split; [by_compute | discriminate]).
Qed.

Lemma run_restore_extends_witness :
  ∃ n w' added,
    run_restore ex_env (initial_world ex_db_loaded) = Some (n, w') ∧
    registry w' ([] ++ added) ∧ n = Z.of_nat (length added) ∧
    (NoDup ([] : list text) → NoDup ([] ++ added)).
Proof.
  exact (run_restore_extends ex_env (initial_world ex_db_loaded) []
           (registry_initial _) ex_db_loaded_comments_ok).
Defined.

Lemma run_segment_original_witness :
  ∃ w', run_segment ex_env 0 0 (initial_world ex_db_plain) = Some (0, w') ∧
        segs (db w')
        = <[0%nat := Some (mk_segment (segm_name ex_segment)
                             (Some original_cmt))]> (segs ex_db_plain) ∧
        loadedbase w' = loadedbase (initial_world ex_db_plain) ∧
        loadedend w' = loadedend (initial_world ex_db_plain) ∧
        heap w' = heap (initial_world ex_db_plain) ∧
        trace w' = [] ++ [Ev_set_segment_cmt 0 original_cmt] ∧
        run_segment ex_env 0 0 w' = Some (0, w').
Proof.
  exact (run_segment_original ex_env 0 0 (initial_world ex_db_plain)
           ex_segment eq_refl eq_refl).
Defined.

Lemma run_segment_foreign_comment_witness :
  run_segment ex_env 0 0 (initial_world ex_db_notes)
  = Some (0, initial_world ex_db_notes).
Proof.
  apply (run_segment_foreign_comment ex_env 0 0 (initial_world ex_db_notes)
           (mk_segment (Some (str "seg0")) (Some (str "my notes")))
           (str "my notes") eq_refl eq_refl ltac:(by_compute)).
  by_compute.
Defined.

Lemma run_segment_bare_prefix_witness :
  ∃ w', run_segment ex_env 0 0 (initial_world ex_db_bare) = Some (0 + 1, w') ∧
        listloaded w' = None ∧
        ∀ fn, cstring fn → fn ∉ [] → isloaded fn w' = None.
Proof.
  exact (run_segment_bare_prefix ex_env 0 0 (initial_world ex_db_bare) []
           (mk_segment (Some (str "seg0")) (Some dep_prefix))
           (registry_initial _) (not_elem_of_nil _) eq_refl eq_refl eq_refl).
Defined.
End restore_examples.

(** ** [term] and [enumcb] *)

Section term.
Import C.

Lemma lseg_delete h p locs fs q l :
  l ∉ locs → lseg h p locs fs q → lseg (delete l h) p locs fs q.
Proof.
  revert p fs. induction locs as [|l' locs IH]; intros p [|f fs]; simpl; try done.
  intros [Hne Hnin]%not_elem_of_cons (-> & Hc & nx & Hl & H).
  split_and!; [done..|]. exists nx. split; [|by apply IH].
  by rewrite lookup_delete_ne.
Qed.

Lemma release_lookup locs h l :
  release locs h !! l = if decide (l ∈ locs) then None else h !! l.
Proof.
  revert h. induction locs as [|l' locs IH]; intros h; simpl.
  - destruct (decide (l ∈ [])) as [H|]; [by apply not_elem_of_nil in H | done].
  - rewrite IH. destruct (decide (l ∈ locs)) as [Hin|Hnin].
    + rewrite decide_True; [done | by right].
    + destruct (decide (l = l')) as [->|Hne].
      * rewrite lookup_delete_eq. rewrite decide_True; [done | by left].
      * rewrite lookup_delete_ne by done.
        rewrite decide_False; [done|]. by intros [?|?]%elem_of_cons.
Qed.

Lemma term_loop_spec fuel p locs fs w :
  lseg (heap w) p locs fs None → NoDup locs → (length locs ≤ fuel)%nat →
  term_loop fuel p w
  = Some (tt, mk_world (loadedbase w) (loadedend w) (release locs (heap w))
                (db w) (trace w ++ (Ev_free <$> locs))).
Proof.
  revert fuel p fs w. induction locs as [|l locs IH]; intros fuel p [|f fs] w;
    simpl; try done.
  - intros -> _ _. rewrite app_nil_r. destruct fuel; by destruct w.
  - intros (-> & Hc & nx & Hl & H) [Hnin Hnd]%NoDup_cons Hfuel.
    destruct fuel as [|fuel]; [lia|]. simpl.
    unfold bind at 1. unfold deref. rewrite Hl.
    unfold bind at 1. unfold free, bind at 1, gets. rewrite Hl.
    unfold bind at 1. unfold set_heap. unfold emit. simpl.
    rewrite (IH fuel nx fs); simpl; [|by apply lseg_delete|done|lia].
    by rewrite <- app_assoc.
Qed.

(** X10.  [term] on a list in order returns and frees each node of the
    list with one call of [free], from the first node to the last; the
    other blocks of the heap, the database and the two globals
    [loadedbase] and [loadedend] are as they were. *)
Theorem term_frees_list w fs :
  registry w fs →
  ∃ w' locs, term w = Some (tt, w') ∧
    lseg (heap w) (next (loadedbase w)) locs fs None ∧ NoDup locs ∧
    trace w' = trace w ++ (Ev_free <$> locs) ∧
    (∀ l, heap w' !! l = if decide (l ∈ locs) then None else heap w !! l) ∧
    loadedbase w' = loadedbase w ∧ loadedend w' = loadedend w ∧
    db w' = db w.
Proof.
  intros (locs & Hs & Hnd & _). eexists _, locs. split.
  { unfold term, bind, gets. eapply term_loop_spec; [done..|].
    etrans; [by eapply lseg_size | lia]. }
  simpl. split_and!; try done. intros l. apply release_lookup.
Qed.

(** X11.  [term] does not reset the list's head: after it, on a list that
    was not empty, [loadedbase.next] points to a freed node, and a walk
    of the list ([isloaded], [listloaded], so [load] too) reads freed
    memory and has no result. *)
Theorem term_leaves_dangling w fs :
  registry w fs → fs ≠ [] →
  ∃ w', term w = Some (tt, w') ∧ listloaded w' = None ∧
        ∀ fn, isloaded fn w' = None ∧ ∀ e, load e fn w' = None.
Proof.
  intros (locs & Hs & Hnd & _) Hne. eexists. split.
  { unfold term, bind, gets. eapply term_loop_spec; [done..|].
    etrans; [by eapply lseg_size | lia]. }
  destruct locs as [|l locs], fs as [|f fs]; try done.
  destruct Hs as (Hp & _).
  assert (∀ fn, isloaded fn
            (mk_world (loadedbase w) (loadedend w)
               (release (l :: locs) (heap w)) (db w)
               (trace w ++ (Ev_free <$> l :: locs))) = None) as Hl.
  { intros fn. unfold isloaded, bind at 1, gets. unfold bind at 1.
    cbn [loadedbase]. rewrite Hp. cbn [isloaded_loop].
    unfold bind at 1. unfold deref. cbn [heap].
    rewrite release_lookup. rewrite decide_True; [done | by left]. }
  split; [|intros fn; split; [apply Hl|]].
  - unfold listloaded. unfold bind at 1. unfold msg, emit.
    unfold bind at 1, gets. unfold bind at 1.
    cbn [loadedbase]. rewrite Hp. cbn [listloaded_loop].
    unfold bind at 1. unfold deref. cbn [heap].
    rewrite release_lookup. rewrite decide_True; [done | by left].
  - intros e. unfold load, bind at 1. by rewrite Hl.
Qed.
End term.

Section enumcb.
Import C.

Lemma tolower_nul c : c ≠ NUL → tolower c ≠ NUL.
Proof.
  intros Hc. unfold tolower.
  destruct (_ && _)%N eqn:E; [|done].
  revert E. destruct c as [[] [] [] [] [] [] [] []]; by vm_compute.
Qed.

Lemma strnicmp_prefix a b :
  cstring b →
  strnicmp a b (length b) = 0 ↔ (tolower <$> b) `prefix_of` (tolower <$> a).
Proof.
  revert a. induction b as [|y b IH]; intros a Hb; simpl.
  - split; [intros _; apply prefix_nil | done].
  - apply cstring_cons in Hb as [Hy Hb]. destruct a as [|x a]; simpl.
    + split.
      * intros H. destruct (tolower_nul y Hy). apply uchar_val_nul. lia.
      * intros H. by apply prefix_nil_not in H.
    + destruct (decide (tolower x = tolower y)) as [->|Hxy].
      * rewrite IH by done. split; [apply prefix_cons | apply prefix_cons_inv_2].
      * split.
        -- intros H. destruct Hxy. apply uchar_val_inj. lia.
        -- intros H. by apply prefix_cons_inv_1 in H.
Qed.

(** X12.  [enumcb] takes a file when, and only when, its name has a
    backslash and the import module's name is, letter case apart, a
    prefix of the text after the last backslash: the answer is 1 then and
    0 otherwise.  (So the name of the module need not be the whole name of
    the file, and a file named without a backslash is never taken.) *)
Theorem enumcb_spec file ud :
  cstring ud →
  (enumcb file ud = 1 ↔
   ∃ dir base, file = dir ++ "\"%char :: base ∧ ("\"%char ∉ base) ∧
               (tolower <$> ud) `prefix_of` (tolower <$> base)) ∧
  (enumcb file ud = 1 ∨ enumcb file ud = 0).
Proof.
  intros Hud. unfold enumcb.
  destruct (strrchr file "\"%char) as [i|] eqn:E.
  - apply strrchr_Some in E as (dir & base & -> & <- & Hb).
    rewrite drop_middle. cbv zeta.
    destruct (decide (strnicmp base ud (length ud) = 0)) as [H|H].
    + split; [|by left]. split; [|done]. intros _. exists dir, base.
      split_and!; [done..|]. by apply strnicmp_prefix.
    + split; [|by right]. split; [done|].
      intros (dir' & base' & Heq & Hb' & Hp). destruct H.
      apply strnicmp_prefix; [done|].
      assert (base' = base) as <-; [|done].
      assert (strrchr (dir' ++ "\"%char :: base') "\"%char
              = strrchr (dir ++ "\"%char :: base) "\"%char) as Hr
        by (by rewrite Heq).
      rewrite !strrchr_app in Hr by done. injection Hr as Hlen.
      apply app_inj_1 in Heq as [_ [= ->]]; done.
  - split; [|by right]. split; [done|].
    intros (dir & base & -> & Hb & _).
    by rewrite strrchr_app in E.
Qed.

Lemma enumcb_spec_witness :
  (enumcb (str "C:\libs\KERNEL32.dll") (str "kernel32") = 1 ↔
   ∃ dir base, str "C:\libs\KERNEL32.dll" = dir ++ "\"%char :: base ∧
               ("\"%char ∉ base) ∧
               (tolower <$> str "kernel32") `prefix_of` (tolower <$> base)) ∧
  (enumcb (str "C:\libs\KERNEL32.dll") (str "kernel32") = 1 ∨
   enumcb (str "C:\libs\KERNEL32.dll") (str "kernel32") = 0).
Proof.
  apply (enumcb_spec (str "C:\libs\KERNEL32.dll") (str "kernel32")).
  by_compute.
Defined.

(** The callback, evaluated: other case, a longer name, no backslash, and
    the empty name of a module. *)
Lemma enumcb_examples :
  enumcb (str "C:\libs\KERNEL32.dll") (str "kernel32") = 1 ∧
  enumcb (str "C:\libs\kernel32.dll.bak") (str "KERNEL32.DLL") = 1 ∧
  enumcb (str "C:\libs\kernel.dll") (str "kernel32") = 0 ∧
  enumcb (str "kernel32.dll") (str "kernel32") = 0 ∧
  enumcb (str "C:\libs\anything") [] = 1.
Proof. by vm_compute. Qed.
End enumcb.

(** ** What a computation keeps *)

Section keeps.
Context (R : relation world) `{!PreOrder R}.

Lemma keeps_ret {A} (a : A) : keeps R (ret a).
Proof. intros w a' w' [= _ <-]. reflexivity. Qed.

Lemma keeps_abort {A} : keeps R (@abort A).
Proof. by intros w a w'. Qed.

Lemma keeps_lift {A} (o : option A) : keeps R (lift o).
Proof.
  intros w a w'. unfold lift. destruct o; [|done].
  intros [= _ <-]. reflexivity.
Qed.

Lemma keeps_gets {A} (f : world → A) : keeps R (gets f).
Proof. intros w a w' [= _ <-]. reflexivity. Qed.

Lemma keeps_bind {A B} (m : M A) (k : A → M B) :
  keeps R m → (∀ a, keeps R (k a)) → keeps R (bind m k).
Proof.
  intros Hm Hk w b w'. unfold bind.
  destruct (m w) as [[a w1]|] eqn:E; [|done]. intros H.
  etrans; [by eapply Hm | by eapply Hk].
Qed.

Lemma keeps_for_loop {V} n i (body : nat → V → M V) (s : V) :
  (∀ i s, keeps R (body i s)) → keeps R (for_loop n i body s).
Proof.
  intros Hb. revert i s. induction n as [|n IH]; intros i s; simpl.
  - apply keeps_ret.
  - apply keeps_bind; [apply Hb | intros s'; apply IH].
Qed.

Lemma keeps_enum_names {P} l
    (cb : ea_t → option text → Z → P → M (Z * P)) (p : P) :
  (∀ ea nm ord p, keeps R (cb ea nm ord p)) → keeps R (enum_names l cb p).
Proof.
  intros Hcb. revert p. induction l as [|imp l IH]; intros p; simpl.
  - apply keeps_ret.
  - apply keeps_bind; [apply Hcb|]. intros r.
    case_decide; [apply keeps_ret | apply IH].
Qed.

Lemma keeps_enum_import_names {P} i
    (cb : ea_t → option text → Z → P → M (Z * P)) (p : P) :
  (∀ ea nm ord p, keeps R (cb ea nm ord p)) →
  keeps R (enum_import_names i cb p).
Proof.
  intros Hcb. unfold enum_import_names.
  apply keeps_bind; [apply keeps_gets|]. intros mods.
  destruct (mods !! i); [by apply keeps_enum_names | apply keeps_ret].
Qed.
End keeps.

Lemma keeps_weaken {A} (R R' : relation world) (m : M A) :
  (∀ w w', R w w' → R' w w') → keeps R m → keeps R' m.
Proof. intros HR Hm w a w' H. by eapply HR, Hm. Qed.

(** The frame of a computation, from the frames of its parts; [prim]
    closes the goals for the calls that change the world. *)
Ltac keeps_with prim :=
  unfold getn_func, getnseg, is_public_name, get_func_name, get_func_qty,
    get_import_module_qty, get_segm_qty, msg, warning, show_wait_box,
    hide_wait_box;
  repeat first
    [ apply keeps_ret; exact _
    | apply keeps_abort; exact _
    | apply keeps_lift; exact _
    | apply keeps_gets; exact _
    | prim
    | apply keeps_for_loop; [exact _ | intros ? ?]
    | apply keeps_enum_import_names; [exact _ | intros ? ? ? ?]
    | apply keeps_bind; [exact _ | | intros ?]
    | match goal with
      | |- keeps _ (match ?x with _ => _ end) => destruct x
      end ].

Global Instance only_log_preorder : PreOrder only_log.
Proof.
  split; [by intros w|].
  intros w1 w2 w3 (?&?&?&?) (?&?&?&?). split_and!; congruence.
Qed.

Global Instance list_kept_preorder : PreOrder list_kept.
Proof.
  split; [by intros w|].
  intros w1 w2 w3 (?&?&?) (?&?&?). split_and!; congruence.
Qed.

Global Instance list_extended_preorder : PreOrder list_extended.
Proof.
  split.
  - intros w fs Hreg. exists []. by rewrite app_nil_r.
  - intros w1 w2 w3 H12 H23 fs Hreg.
    destruct (H12 fs Hreg) as (a1 & Hr1 & Hn1).
    destruct (H23 _ Hr1) as (a2 & Hr2 & Hn2).
    exists (a1 ++ a2). rewrite app_assoc. split; [done|]. auto.
Qed.

Global Instance restore_step_preorder : PreOrder restore_step.
Proof.
  split.
  - intros w. split_and!; [done..|]. exists []. by rewrite app_nil_r.
  - intros w1 w2 w3 (?&?&?&?& evs1 & Ht1 & Hf1) (?&?&?&?& evs2 & Ht2 & Hf2).
    split_and!; [congruence..|]. exists (evs1 ++ evs2).
    split; [by rewrite Ht2, Ht1, app_assoc | by apply Forall_app].
Qed.

Global Instance same_tables_preorder : PreOrder same_tables.
Proof.
  split; [intros w; apply same_tables_refl|].
  intros w1 w2 w3. apply same_tables_trans.
Qed.

Lemma list_kept_extended w w' : list_kept w w' → list_extended w w'.
Proof.
  intros (Hb & He & Hh) fs Hreg. exists []. rewrite app_nil_r.
  split; [by apply (registry_frame w) | done].
Qed.

Lemma only_log_list_kept w w' : only_log w w' → list_kept w w'.
Proof. by intros (?&?&?&?). Qed.

Section frames.
Import C.

Lemma emit_only_log ev : keeps only_log (emit ev).
Proof. intros w a w' [= _ <-]. by split_and!. Qed.

Lemma deref_only_log p : keeps only_log (deref p).
Proof.
  intros w a w'. unfold deref. destruct p as [|l].
  - by intros [= _ <-].
  - destruct (heap w !! l) as [[nd|]|]; [|done..]. by intros [= _ <-].
Qed.

Lemma listloaded_loop_only_log fuel p :
  keeps only_log (listloaded_loop fuel p).
Proof.
  revert p. induction fuel as [|fuel IH]; intros [p|]; simpl;
    keeps_with ltac:(first [apply deref_only_log | apply emit_only_log
                           | apply IH]).
Qed.

Lemma listloaded_only_log : keeps only_log listloaded.
Proof.
  unfold listloaded.
  keeps_with ltac:(first [apply emit_only_log
                         | apply listloaded_loop_only_log]).
Qed.

Lemma emit_list_kept ev : keeps list_kept (emit ev).
Proof. intros w a w' [= _ <-]. by split_and!. Qed.

Lemma set_db_list_kept d : keeps list_kept (set_db d).
Proof. intros w a w' [= _ <-]. by split_and!. Qed.

Lemma set_cmt_list_kept ea c : keeps list_kept (set_cmt ea c).
Proof. intros w a w' [= _ <-]. by split_and!. Qed.

Lemma clearcmts_list_kept : keeps list_kept clearcmts.
Proof.
  intros w a w'. rewrite clearcmts_run. intros [= _ <-].
  by destruct (wipe_all_tables (concat (import_modules (db w))) w)
    as (?&?&?&_).
Qed.

Lemma importmap_list_kept e ea nm ord p :
  keeps list_kept (importmap e ea nm ord p).
Proof.
  unfold importmap. keeps_with ltac:(apply set_cmt_list_kept).
Qed.




Lemma mapinexports_list_kept e : keeps list_kept (mapinexports e).
Proof.
  unfold mapinexports, mapinexports_func.
  keeps_with ltac:(first [apply emit_list_kept | apply importmap_list_kept]).
Qed.

End frames.

(** ** [run] and the list *)

Section run_frames.
Import C.

Lemma bind_Some {A B} (m : M A) (k : A → M B) w r :
  bind m k w = Some r → ∃ a w1, m w = Some (a, w1) ∧ k a w1 = Some r.
Proof.
  unfold bind. destruct (m w) as [[a w1]|]; [|done]. intros H.
  by exists a, w1.
Qed.

Lemma cstring_take n s : cstring s → cstring (take n s).
Proof.
  intros Hs. rewrite <- (take_drop n s) in Hs.
  by apply cstring_app in Hs as [? _].
Qed.

Lemma keeps_isloaded (R : relation world) `{!PreOrder R} fn :
  keeps R (isloaded fn).
Proof. intros w r w' [-> _]%isloaded_pure. reflexivity. Qed.

Lemma emit_list_extended ev : keeps list_extended (emit ev).
Proof.
  eapply keeps_weaken; [apply list_kept_extended | apply emit_list_kept].
Qed.

Lemma listloaded_list_extended : keeps list_extended listloaded.
Proof.
  eapply keeps_weaken; [|apply listloaded_only_log].
  intros w w' H. by apply list_kept_extended, only_log_list_kept.
Qed.

Lemma load_list_extended e f : cstring f → keeps list_extended (load e f).
Proof.
  intros Hf w r w' Hload fs Hreg.
  destruct (load_registry e f w fs r w' Hreg Hf Hload) as [Hr Hn].
  destruct (decide (r = 0)) as [->|Hne].
  - exists [f]. split; [done|]. intros Hnd. apply NoDup_app.
    split_and!; [done| |apply NoDup_singleton].
    intros x Hx ->%list_elem_of_singleton. by apply Hn.
  - exists []. by rewrite app_nil_r.
Qed.

Lemma enumerate_files_cstring e u path ud f :
  files_ok u → enumerate_files e u path ud = Some f → cstring f.
Proof.
  intros [Hfiles _]. unfold enumerate_files.
  destruct (List.find _ _) as [f0|] eqn:E; [|done]. intros [= <-].
  apply cstring_take, (Hfiles path).
  apply find_some in E as [Hin _]. by apply list_elem_of_In.
Qed.

Lemma run_import_list_extended e u path i :
  files_ok u → keeps list_extended (run_import e u path i).
Proof.
  intros Hok. unfold run_import.
  destruct (enumerate_files e u path _) as [f|] eqn:E.
  - apply enumerate_files_cstring in E; [|done].
    keeps_with ltac:(first [by apply load_list_extended
                           | apply emit_list_extended]).
  - apply emit_list_extended.
Qed.

Lemma autoWait_list_kept u : keeps list_kept (autoWait u).
Proof. unfold autoWait. keeps_with ltac:(apply set_db_list_kept). Qed.

Lemma run_finish_list_kept e u : keeps list_kept (run_finish e u).
Proof.
  unfold run_finish.
  keeps_with ltac:(first
    [ apply clearcmts_list_kept
    | eapply keeps_weaken; [apply only_log_list_kept
                           | apply listloaded_only_log]
    | apply autoWait_list_kept
    | apply mapinexports_list_kept
    | apply emit_list_kept ]).
Qed.

Lemma run_finish_list_extended e u : keeps list_extended (run_finish e u).
Proof.
  eapply keeps_weaken; [apply list_kept_extended | apply run_finish_list_kept].
Qed.

(** What follows the first loop of [run] keeps the list in order. *)
Lemma run_rest_list_extended e u old :
  files_ok u →
  keeps list_extended
    ((if decide (old ≠ 0) then
        msg (str "Detected " ++ str (pretty old) ++
             str " previous loaded files" ++ [LF]);;
        listloaded
      else ret tt);;
     match askbuttons_r u with
     | ASKBTN_CANCEL => ret tt
     | ASKBTN_NO =>
         match AskUsingForm_r u with
         | None => ret tt
         | Some path =>
             let! imports := get_import_module_qty in
             for_loop imports 0%nat (λ i _, run_import e u path i) tt;;
             run_finish e u
         end
     | ASKBTN_YES =>
         match askfile_r u with
         | Some ptr =>
             let! i := load e ptr in
             if decide (i = -1) then
               warning (str "Failed to load file" ++ [LF])
             else if decide (i = -2) then
               warning (str "File is already loaded" ++ [LF])
             else ret tt
         | None => ret tt
         end;;
         run_finish e u
     end).
Proof.
  intros Hok.
  apply keeps_bind; [exact _| |intros _].
  { case_decide; [|apply keeps_ret; exact _].
    keeps_with ltac:(first [apply emit_list_extended
                           | apply listloaded_list_extended]). }
  destruct (askbuttons_r u); [| |apply keeps_ret; exact _].
  - apply keeps_bind; [exact _| |intros _; apply run_finish_list_extended].
    destruct (askfile_r u) as [f|] eqn:Ef; [|apply keeps_ret; exact _].
    destruct Hok as [_ Hfile].
    keeps_with ltac:(first [apply load_list_extended; by apply Hfile
                           | apply emit_list_extended]).
  - destruct (AskUsingForm_r u) as [path|]; [|apply keeps_ret; exact _].
    keeps_with ltac:(first [by apply run_import_list_extended
                           | apply run_finish_list_extended]).
Qed.

(** X13.  Whenever [run] returns, in any of its modes, the list of loaded
    files is the one it started with, in the same order, with the new
    paths at its end (those restored from the comments and those
    loaded), and a list without duplicates stays one. *)
Theorem run_extends_list e u w fs w' :
  registry w fs → comments_ok (db w) → files_ok u →
  run e u w = Some (tt, w') →
  ∃ added, registry w' (fs ++ added) ∧ (NoDup fs → NoDup (fs ++ added)).
Proof.
  intros Hreg Hok Hfiles Hrun. unfold run in Hrun.
  apply bind_Some in Hrun as (old & w1 & Hres & Hrest).
  destruct (run_restore_registry e w fs old w1 Hreg Hok Hres)
    as (a1 & Hreg1 & _ & Hnd1).
  destruct (run_rest_list_extended e u old Hfiles w1 tt w' Hrest _ Hreg1)
    as (a2 & Hreg2 & Hnd2).
  exists (a1 ++ a2). rewrite app_assoc. split; [done | auto].
Qed.
End run_frames.

(** ** [run], cancelled and to its end *)

Section run_cancel.
Import C.

Ltac step_frame :=
  intros ? ? ?;
  unfold set_segment_cmt, malloc, write_next, write_node, deref,
    set_loadedend, set_loadedbase, set_heap, upd_segs, getnseg, bind, gets,
    set_db, emit, ret;
  repeat case_match; simplify_eq; try done;
  intros [= _ <-]; simpl; (split_and!; [done..|]);
  first [ by (exists []; rewrite app_nil_r)
        | eexists; split; [reflexivity | by repeat constructor] ].

Lemma emit_restore_step ev :
  is_restore_event ev → keeps restore_step (emit ev).
Proof.
  intros Hev w a w' [= _ <-]. split_and!; [done..|]. exists [ev].
  split; [done | by constructor].
Qed.

Lemma set_segment_cmt_restore_step n c :
  keeps restore_step (set_segment_cmt n c).
Proof. step_frame. Qed.

Lemma malloc_restore_step e n : keeps restore_step (malloc e n).
Proof. step_frame. Qed.

Lemma write_node_restore_step l nd : keeps restore_step (write_node l nd).
Proof. step_frame. Qed.

Lemma write_next_restore_step p v : keeps restore_step (write_next p v).
Proof. step_frame. Qed.

Lemma set_loadedend_restore_step p : keeps restore_step (set_loadedend p).
Proof. step_frame. Qed.


Lemma run_segment_restore_step e i old :
  keeps restore_step (run_segment e i old).
Proof.
  unfold run_segment, get_segment_cmt.
  keeps_with ltac:(first
    [ apply set_segment_cmt_restore_step
    | apply keeps_isloaded; exact _
    | apply malloc_restore_step
    | by apply emit_restore_step
    | apply write_node_restore_step
    | apply write_next_restore_step
    | apply set_loadedend_restore_step ]).
Qed.

Lemma run_restore_restore_step e : keeps restore_step (run_restore e).
Proof.
  unfold run_restore.
  keeps_with ltac:(apply run_segment_restore_step).
Qed.



End run_cancel.

Section run_comments.
Import C.



End run_comments.

Section run_examples.
Import C.

Lemma ex_files_ok : files_ok ex_ui_file ∧ files_ok ex_ui_deps.
Proof.
  split; (split; [intros path f Hin | intros f Hf]); simpl in *.
  - apply list_elem_of_singleton in Hin as ->. by_compute.
  - injection Hf as <-. by_compute.
  - apply elem_of_cons in Hin as [->|Hin%list_elem_of_singleton];
      [|subst f]; by_compute.
  - done.
Qed.

Lemma ex_db_comments_ok : comments_ok ex_db.
Proof.
  intros i s c. unfold ex_db. simpl.
  destruct i as [|i]; simpl; [|done].
  intros [= <-] [= <-]. split; [by_compute | discriminate].
Qed.

Lemma run_extends_list_witness :
  ∃ added, registry ex_world_deps ([] ++ added) ∧
           (NoDup ([] : list text) → NoDup ([] ++ added)).
Proof.
  apply (run_extends_list ex_env ex_ui_deps (initial_world ex_db) []
           ex_world_deps (registry_initial _) ex_db_comments_ok
           (proj2 ex_files_ok)).
  vm_compute. reflexivity.
Defined.





(** The two sample runs, evaluated: the list after them, and the comment
    the sweep leaves at the first import. *)
Lemma run_examples :
  (listloaded ex_world_deps ≫= λ r, Some (drop (length (trace ex_world_deps)) (trace r.2)))
  = Some [listloaded_header; listloaded_line ex_path] ∧
  cmts (db ex_world_file) !! 4096 = Some (str "import -> Foo_123") ∧
  cmts (db ex_world_file) !! 4100 = None.
Proof. by vm_compute. Qed.
End run_examples.

(** ** The results of [load], and the sweep twice *)

Section load_total.
Import C.

(** X16.  [load] on a list in order, for a path that fits the buffer of
    the segment comment (or has no backslash), returns one of its three
    results, and which one is decided by the list and by the steps: -2
    exactly when the path is in the list, -1 exactly when it is not and
    a step fails, 0 exactly when it is not and no step fails. *)
Theorem load_returns e fn w fs :
  registry w fs → cstring fn →
  "\"%char ∉ fn ∨ (length (dep_text fn) < QMAXPATH e)%nat →
  ∃ r w', load e fn w = Some (r, w') ∧
          (r = -2 ↔ fn ∈ fs) ∧
          (r = -1 ↔ (fn ∉ fs) ∧ load_fails e fn w) ∧
          (r = 0 ↔ (fn ∉ fs) ∧ ¬ load_fails e fn w).
Proof.
  intros Hreg Hfn Hfit.
  pose proof (isloaded_spec fn fs w Hreg Hfn) as Hl.
  destruct (decide (fn ∈ fs)) as [Hin|Hnin].
  { rewrite bool_decide_eq_true_2 in Hl by done.
    exists (-2), w. rewrite (load_loaded e fn w 1) by done.
    split_and!; [done|done| |]; (split; [done | by intros [? _]]). }
  rewrite bool_decide_eq_false_2 in Hl by done.
  assert (load_fails e fn w ∨
          ∃ li ll, load_can_succeed e fn li ll w) as [Hf|(li & ll & Hok)].
  { unfold load_fails, load_can_succeed.
    destruct (open_linput_r e fn) as [li|]; [|by left].
    destruct (build_loaders_list_r e li) as [ll|] eqn:Hb; [|by left].
    destruct (malloc_r e (heap w) _); [|left; by left].
    destruct (load_nonbinary_file_r e fn (db w)).1; [|left; by right].
    right. by exists li, ll. }
  - destruct (load_fails_spec e fn w Hl Hf) as (w' & evs & Hr & _).
    exists (-1), w'. split_and!; [done| | |]; split; try done.
    by intros [_ ?].
  - destruct (load_success e fn w li ll fs Hreg Hfn Hnin Hok)
      as (w' & _ & _ & _ & _ & Hrun).
    assert (¬ load_fails e fn w) as Hnf.
    { destruct Hok as (Ho & Hb & Hm & Hh). unfold load_fails.
      rewrite Ho, Hb, Hm, Hh. by intros [|]. }
    exists 0, w'. split_and!; [by apply Hrun| | |]; split; try done.
    by intros [_ ?].
Qed.

Lemma load_returns_witness :
  ∃ r w', load ex_env ex_path (initial_world ex_db) = Some (r, w') ∧
          (r = -2 ↔ ex_path ∈ ([] : list text)) ∧
          (r = -1 ↔ (ex_path ∉ ([] : list text)) ∧
                    load_fails ex_env ex_path (initial_world ex_db)) ∧
          (r = 0 ↔ (ex_path ∉ ([] : list text)) ∧
                   ¬ load_fails ex_env ex_path (initial_world ex_db)).
Proof.
  apply (load_returns ex_env ex_path (initial_world ex_db) []
           (registry_initial _) ex_path_cstring).
  right. vm_compute. lia.
Defined.
End load_total.

Section sweep_twice.
Import C.

Lemma replay_cmts_twice evs m :
  replay_cmts evs (replay_cmts evs m) = replay_cmts evs m.
Proof.
  apply map_eq. intros ea. rewrite !replay_cmts_last.
  by destruct (last (calls_at ea evs)).
Qed.

(** X17.  The sweep can be repeated: a second [mapinexports] right after
    the first one sets the same comments again and leaves the database
    as the first one left it. *)
Theorem mapinexports_twice e w :
  names_ok e (db w) →
  ∃ w1 w2, mapinexports e w = Some (tt, w1) ∧
           mapinexports e w1 = Some (tt, w2) ∧ db w2 = db w1.
Proof.
  intros Hok.
  destruct (sweep_trace w) as (_ & _ & Hs1).
  assert (names_ok e (db (sweep w))) as Hok1.
  { destruct Hs1 as (_ & _ & _ & _ & _ & Hn & _). unfold names_ok.
    by rewrite Hn. }
  exists (sweep w), (sweep (sweep w)).
  split; [by apply mapinexports_spec|]. split; [by apply mapinexports_spec|].
  destruct (sweep_trace (sweep w)) as (_ & _ & Hs2).
  pose proof (sweep_replay (sweep w)) as Hc.
  rewrite (sweep_events_tables w (sweep w)) in Hc by done.
  rewrite (sweep_replay w), replay_cmts_twice, <- sweep_replay in Hc.
  destruct Hs2 as (_ & _ & _ & Hsg & Hf & Hn & Hi).
  destruct (db (sweep (sweep w))), (db (sweep w)). simpl in *. congruence.
Qed.

Lemma mapinexports_twice_witness :
  ∃ w1 w2, mapinexports ex_env (initial_world ex_db_two) = Some (tt, w1) ∧
           mapinexports ex_env w1 = Some (tt, w2) ∧ db w2 = db w1.
Proof.
  exact (mapinexports_twice ex_env (initial_world ex_db_two)
           ex_db_two_names_ok).
Defined.
End sweep_twice.

Section more_witnesses.
Import C.

Lemma ex_world_loaded_registry : registry ex_world_loaded [ex_path].
Proof.
  apply (load_registry ex_env ex_path (initial_world ex_db) [] 0
           ex_world_loaded (registry_initial _) ex_path_cstring).
  vm_compute. reflexivity.
Qed.

Lemma term_frees_list_witness :
  ∃ w' locs, term ex_world_loaded = Some (tt, w') ∧
    lseg (heap ex_world_loaded) (next (loadedbase ex_world_loaded)) locs
      [ex_path] None ∧ NoDup locs ∧
    trace w' = trace ex_world_loaded ++ (Ev_free <$> locs) ∧
    (∀ l, heap w' !! l
          = if decide (l ∈ locs) then None else heap ex_world_loaded !! l) ∧
    loadedbase w' = loadedbase ex_world_loaded ∧
    loadedend w' = loadedend ex_world_loaded ∧
    db w' = db ex_world_loaded.
Proof.
  exact (term_frees_list ex_world_loaded [ex_path] ex_world_loaded_registry).
Defined.

Lemma term_leaves_dangling_witness :
  ∃ w', term ex_world_loaded = Some (tt, w') ∧ listloaded w' = None ∧
        ∀ fn, isloaded fn w' = None ∧ ∀ e, load e fn w' = None.
Proof.
  apply (term_leaves_dangling ex_world_loaded [ex_path]
           ex_world_loaded_registry).
  discriminate.
Defined.

Lemma run_segment_restores_witness :
  ∃ w', run_segment ex_env 1 0 (initial_world ex_db_loaded)
        = Some (0 + 1, w') ∧
        registry w' ([] ++ [ex_path]) ∧
        db w' = db (initial_world ex_db_loaded).
Proof.
  apply (run_segment_restores ex_env 1 0 (initial_world ex_db_loaded) []
           ex_path
           (mk_segment (Some (str "foo.dll")) (Some (dep_text ex_path)))
           (registry_initial _) ex_path_cstring (not_elem_of_nil _)).
  - discriminate.
  - change (segs ex_db_loaded !! 1%nat
            = Some (Some (mk_segment (Some (str "foo.dll"))
                            (Some (dep_text ex_path))))).
    by rewrite ex_db_loaded_segs.
  - reflexivity.
  - reflexivity.
Defined.

(** [term] after one [load], evaluated: one block is freed, and the heap
    is empty. *)
Lemma term_example :
  (term ex_world_loaded ≫= λ r,
     Some (drop (length (trace ex_world_loaded)) (trace r.2),
           bool_decide (heap r.2 = ∅)))
  = Some ([Ev_free (fresh (dom (∅ : gmap positive (option _imports))))],
          true).
Proof. by vm_compute. Qed.
End more_witnesses.

(** ** [run] returns *)

Global Instance names_fit_preorder e : PreOrder (names_fit e).
Proof.
  split; [intros w H; exact H|]. intros w1 w2 w3 H12 H23 H. by apply H23, H12.
Qed.

Section run_total.
Import C.

Ltac names_frame :=
  intros ? ? ?;
  unfold open_linput, close_linput, build_loaders_list, free_loaders_list,
    malloc, free, set_segm_name, set_segment_cmt, set_cmt, write_next,
    write_node, deref, set_loadedend, set_loadedbase, set_heap, upd_segs,
    getnseg, bind, gets, set_db, emit, ret, abort;
  repeat case_match; simplify_eq; try done;
  intros [= _ <-]; intros Hfit; exact Hfit.

Lemma emit_names_fit e ev : keeps (names_fit e) (emit ev).
Proof. names_frame. Qed.

Lemma open_linput_names_fit e f : keeps (names_fit e) (open_linput e f).
Proof. names_frame. Qed.

Lemma close_linput_names_fit e li : keeps (names_fit e) (close_linput li).
Proof. names_frame. Qed.

Lemma build_loaders_list_names_fit e li :
  keeps (names_fit e) (build_loaders_list e li).
Proof. names_frame. Qed.

Lemma free_loaders_list_names_fit e ll :
  keeps (names_fit e) (free_loaders_list ll).
Proof. names_frame. Qed.

Lemma malloc_names_fit e n : keeps (names_fit e) (malloc e n).
Proof. names_frame. Qed.

Lemma free_names_fit e p : keeps (names_fit e) (free p).
Proof. names_frame. Qed.

Lemma set_segm_name_names_fit e n nm : keeps (names_fit e) (set_segm_name n nm).
Proof. names_frame. Qed.

Lemma set_segment_cmt_names_fit e n c :
  keeps (names_fit e) (set_segment_cmt n c).
Proof. names_frame. Qed.

Lemma write_node_names_fit e l nd : keeps (names_fit e) (write_node l nd).
Proof. names_frame. Qed.

Lemma write_next_names_fit e p v : keeps (names_fit e) (write_next p v).
Proof. names_frame. Qed.

Lemma set_loadedend_names_fit e p : keeps (names_fit e) (set_loadedend p).
Proof. names_frame. Qed.

Lemma load_nonbinary_file_names_fit e u f li ll :
  host_keeps_names e u → keeps (names_fit e) (load_nonbinary_file e f li ll).
Proof.
  intros [Hl _] w a w'. unfold load_nonbinary_file, bind, gets, set_db, emit, ret.
  intros [= _ <-] Hok. simpl. by apply Hl.
Qed.

Lemma load_names_fit e u fn :
  host_keeps_names e u → keeps (names_fit e) (load e fn).
Proof.
  intros Hh. unfold load, load_segment.
  keeps_with ltac:(first
    [ apply keeps_isloaded; exact _
    | apply open_linput_names_fit
    | apply close_linput_names_fit
    | apply build_loaders_list_names_fit
    | apply free_loaders_list_names_fit
    | apply malloc_names_fit
    | apply free_names_fit
    | by eapply load_nonbinary_file_names_fit
    | apply set_segm_name_names_fit
    | apply set_segment_cmt_names_fit
    | apply write_node_names_fit
    | apply write_next_names_fit
    | apply set_loadedend_names_fit ]).
Qed.

Lemma load_total e fn w fs :
  registry w fs → cstring fn →
  "\"%char ∉ fn ∨ (length (dep_text fn) < QMAXPATH e)%nat →
  is_Some (load e fn w).
Proof.
  intros Hreg Hfn Hfit.
  pose proof (isloaded_spec fn fs w Hreg Hfn) as Hl.
  destruct (decide (fn ∈ fs)) as [Hin|Hnin].
  { rewrite bool_decide_eq_true_2 in Hl by done.
    rewrite (load_loaded e fn w 1) by done. by eexists. }
  rewrite bool_decide_eq_false_2 in Hl by done.
  assert (load_fails e fn w ∨
          ∃ li ll, load_can_succeed e fn li ll w) as [Hf|(li & ll & Hok)].
  { unfold load_fails, load_can_succeed.
    destruct (open_linput_r e fn) as [li|]; [|by left].
    destruct (build_loaders_list_r e li) as [ll|] eqn:Hb; [|by left].
    destruct (malloc_r e (heap w) _); [|left; by left].
    destruct (load_nonbinary_file_r e fn (db w)).1; [|left; by right].
    right. by exists li, ll. }
  - destruct (load_fails_spec e fn w Hl Hf) as (w' & evs & -> & _).
    by eexists.
  - destruct (load_success e fn w li ll fs Hreg Hfn Hnin Hok)
      as (w' & _ & _ & _ & _ & Hrun).
    rewrite Hrun by done. by eexists.
Qed.

Lemma ready_keeps {A} e (m : M A) w a w' :
  keeps list_extended m → keeps (names_fit e) m →
  ready e w → m w = Some (a, w') → ready e w'.
Proof.
  intros Hl Hn [[fs Hreg] Hok] Hrun. split.
  - destruct (Hl w a w' Hrun fs Hreg) as (added & ? & _). by eexists.
  - by apply (Hn w a w' Hrun).
Qed.

Lemma files_fit_ok e u : files_fit e u → files_ok u.
Proof.
  intros [H1 H2]. split.
  - intros path f Hin. by destruct (H1 path f Hin).
  - intros f Hf. by destruct (H2 f Hf).
Qed.

Lemma enumerate_files_fit e u path ud f :
  files_fit e u → enumerate_files e u path ud = Some f →
  cstring f ∧ (length (dep_text f) < QMAXPATH e)%nat.
Proof.
  intros [Hfiles _]. unfold enumerate_files.
  destruct (List.find _ _) as [f0|] eqn:E; [|done]. intros [= <-].
  apply find_some in E as [Hin%list_elem_of_In _].
  destruct (Hfiles path f0 Hin) as [Hc Hlen]. split.
  - by apply cstring_take.
  - unfold dep_text in *. rewrite !length_app in *. rewrite length_take. lia.
Qed.

Lemma run_import_names_fit e u path i :
  host_keeps_names e u → keeps (names_fit e) (run_import e u path i).
Proof.
  intros Hh. unfold run_import.
  keeps_with ltac:(first [by eapply load_names_fit | apply emit_names_fit]).
Qed.

Lemma run_import_total e u path i w :
  files_fit e u → ready e w → is_Some (run_import e u path i w).
Proof.
  intros Hfit [[fs Hreg] _]. unfold run_import.
  destruct (enumerate_files e u path _) as [f|] eqn:E; [|by eexists].
  destruct (enumerate_files_fit e u path _ f Hfit E) as [Hc Hlen].
  unfold bind.
  destruct (load_total e f w fs Hreg Hc (or_intror Hlen)) as [[r w1] ->].
  case_decide; by eexists.
Qed.

Lemma run_imports_total e u path n i w :
  host_keeps_names e u → files_fit e u → ready e w →
  ∃ w', for_loop n i (λ i _, run_import e u path i) tt w = Some (tt, w') ∧
        ready e w'.
Proof.
  intros Hh Hfit. revert i w. induction n as [|n IH]; intros i w Hr; simpl.
  - by exists w.
  - unfold bind at 1.
    destruct (run_import_total e u path i w Hfit Hr) as [[[] w1] E].
    rewrite E. apply IH.
    eapply (ready_keeps e _ w); [| |done|exact E].
    + by apply run_import_list_extended, (files_fit_ok e).
    + by apply run_import_names_fit.
Qed.

Lemma run_finish_total e u w :
  host_keeps_names e u → ready e w → is_Some (run_finish e u w).
Proof.
  intros [_ Ha] [[fs Hreg] Hok]. unfold run_finish.
  unfold bind at 1. rewrite clearcmts_run.
  set (w1 := wipe_all (concat (import_modules (db w))) w).
  pose proof (wipe_all_tables (concat (import_modules (db w))) w)
    as (Hb & He & Hh & _ & _ & Hn & _). fold w1 in Hb, He, Hh, Hn.
  assert (registry w1 fs) as Hreg1 by (by apply (registry_frame w)).
  unfold bind at 1. rewrite (listloaded_spec fs) by done.
  unfold bind at 1. unfold show_wait_box, ret at 1.
  unfold bind at 1. unfold autoWait, bind at 1, gets, set_db.
  unfold bind at 1. rewrite mapinexports_spec.
  - unfold bind, hide_wait_box, ret, msg, emit. by eexists.
  - simpl. apply Ha. unfold names_ok. by rewrite Hn.
Qed.

(** X18.  [run] returns, in each of its modes and whatever the loader
    and the dialogs answer, when it starts on a list in order, segment
    comments that are strings other than the bare prefix and names that
    fit the buffer, the files it may load are named by strings that fit
    the buffer of the segment comment, and the loader and the analysis
    leave names that fit. *)
Theorem run_returns e u w fs :
  registry w fs → comments_ok (db w) → names_ok e (db w) →
  host_keeps_names e u → files_fit e u →
  ∃ w', run e u w = Some (tt, w').
Proof.
  intros Hreg Hok Hnames Hh Hfit.
  assert (is_Some (run_restore e w)) as [[old w1] Hres].
  { unfold run_restore, bind at 1, get_segm_qty, gets.
    by eapply restore_loop_returns. }
  destruct (run_restore_registry e w fs old w1 Hreg Hok Hres)
    as (a1 & Hreg1 & _).
  destruct (run_restore_restore_step e w old w1 Hres) as (_ & Hn1 & _).
  set (detected :=
         if decide (old ≠ 0) then
           msg (str "Detected " ++ str (pretty old) ++
                str " previous loaded files" ++ [LF]);;
           listloaded
         else ret tt).
  assert (∃ w2, detected w1 = Some (tt, w2) ∧ ready e w2)
    as (w2 & Hdet & Hr2).
  { assert (ready e w1) as Hr1.
    { split; [by eexists|]. unfold names_ok. by rewrite Hn1. }
    unfold detected. case_decide; [|by eexists].
    unfold bind at 1. unfold msg, emit.
    erewrite listloaded_spec; [|by apply (registry_frame w1)].
    eexists. split; [done|]. destruct Hr1 as [_ Hn]. split; [|done].
    eexists. by apply (registry_frame w1). }
  unfold run, bind at 1. rewrite Hres. fold detected.
  unfold bind at 1. rewrite Hdet.
  destruct (askbuttons_r u); [| |by eexists].
  - match goal with |- ∃ w', bind ?m _ _ = _ => set (chosen := m) end.
    assert (∃ w3, chosen w2 = Some (tt, w3) ∧ ready e w3)
      as (w3 & Hch & Hr3).
    { unfold chosen.
      destruct (askfile_r u) as [f|] eqn:Ef; [|by exists w2].
      destruct Hfit as [_ Hfile]. destruct (Hfile f Ef) as [Hc Hlen].
      destruct Hr2 as [[fs2 Hreg2] Hn2].
      destruct (load_total e f w2 fs2 Hreg2 Hc (or_intror Hlen))
        as [[r w3] El].
      assert (ready e w3) as [Hl3 Hn3].
      { eapply (ready_keeps e _ w2); [| | |exact El].
        - by apply load_list_extended.
        - by eapply load_names_fit.
        - split; [by eexists | done]. }
      unfold bind. rewrite El. unfold warning, emit, ret.
      repeat case_decide; (eexists; split; [done|]); by split. }
    unfold bind at 1. rewrite Hch.
    destruct (run_finish_total e u w3 Hh Hr3) as [[[] w4] ->]. by eexists.
  - destruct (AskUsingForm_r u) as [path|]; [|by eexists].
    unfold bind at 1. unfold get_import_module_qty, gets.
    unfold bind at 1.
    destruct (run_imports_total e u path
                (length (import_modules (db w2))) 0 w2 Hh Hfit Hr2)
      as (w3 & -> & Hr3).
    destruct (run_finish_total e u w3 Hh Hr3) as [[[] w4] ->]. by eexists.
Qed.

Lemma ex_files_fit : files_fit ex_env ex_ui_deps.
Proof.
  split; [intros path f Hin | intros f Hf]; simpl in *; [|done].
  apply elem_of_cons in Hin as [->|Hin%list_elem_of_singleton];
    [|subst f]; (split; [by_compute | vm_compute; lia]).
Qed.

Lemma ex_host_keeps_names : host_keeps_names ex_env ex_ui_deps.
Proof. split; [intros f d H|intros d H]; exact H. Qed.

Lemma run_returns_witness :
  ∃ w', run ex_env ex_ui_deps (initial_world ex_db) = Some (tt, w').
Proof.
  exact (run_returns ex_env ex_ui_deps (initial_world ex_db) []
           (registry_initial _) ex_db_comments_ok ex_db_names_ok
           ex_host_keeps_names ex_files_fit).
Defined.
End run_total.
